(** * PyGIT: the in-memory revision cache of [tracopt.versioncontrol.git]

    A shallow embedding of [tracopt/versioncontrol/git/PyGIT.py]:
    the size-bounded FIFO dictionary [SizedDict], the revision cache built
    by [Storage._build_rev_cache], the queries answered from it, and the
    stateful parts of [Storage] (cache refresh, the [cat-file --batch] pipe,
    the commit message cache).

    Conventions.
    - Python byte strings and unicode strings are both [string], text
      being taken in the one-byte range.  The identifiers the methods of
      [Storage] take are byte strings, which [to_b] and
      [_fs_from_unicode] leave as they are; [children] and [parents]
      take text as well ([pystr]), which is encoded first.  [to_u] and
      [_fs_to_unicode] are the identity.
    - A Python [dict] is a [gmap], a [set]/[frozenset] a [gset].  Where the
      source iterates over one of them the order is the interpreter's; the
      model takes the enumeration as a parameter that is only known to be a
      permutation of the elements.
    - A Python exception is a value of [exn]; code that can raise returns
      a [result], stateful code returns the state it leaves behind as well. *)

From Stdlib Require Import ZArith Ascii String List Lia.
From stdpp Require Import base option list gmap sets strings sorting.

Set Default Proof Using "Type".
Local Open Scope Z_scope.

(** ** Exceptions and results *)

Inductive exn : Type :=
  | GitError
  | GitErrorSha
  | KeyError
  | IndexError
  | ValueError
  | AssertionError
  | AttributeError
  | UnboundLocalError
  | UnicodeEncodeError.

Inductive result (A : Type) : Type :=
  | Ok (a : A)
  | Raise (e : exn).
Arguments Ok {A} a.
Arguments Raise {A} e.

Definition rbind {A B} (r : result A) (k : A → result B) : result B :=
  match r with
  | Ok a => k a
  | Raise e => Raise e
  end.

Definition assert (b : bool) : result unit :=
  if b then Ok tt else Raise AssertionError.

(** Stateful code: a computation leaves a state behind whether it returns
    or raises. *)
Definition M (S A : Type) : Type := S → result A * S.

Definition mret {S A} (a : A) : M S A := λ s, (Ok a, s).
Definition mraise {S A} (e : exn) : M S A := λ s, (Raise e, s).
Definition mbind {S A B} (m : M S A) (k : A → M S B) : M S B :=
  λ s, match m s with
       | (Ok a, s') => k a s'
       | (Raise e, s') => (Raise e, s')
       end.
Definition mget {S} : M S S := λ s, (Ok s, s).
Definition mmodify {S} (f : S → S) : M S unit := λ s, (Ok tt, f s).
Definition mlift {S A} (r : result A) : M S A := λ s, (r, s).

Notation "'let?' x := r 'in' k" := (rbind r (λ x, k))
  (at level 10, x pattern, r at level 100, k at level 200).
Notation "'let*' x := m 'in' k" := (mbind m (λ x, k))
  (at level 10, x pattern, m at level 100, k at level 200).

(** ** [SizedDict]: size-bounded dictionary with FIFO replacement *)

Module SizedDict.
Section sized_dict.
Context {K V : Type} `{Countable K}.

(** [dict] contents, [__key_fifo] and [__max_size]. *)
Record t : Type := mk {
  data : gmap K V;
  key_fifo : list K;
  max_size : Z
}.

(** [__init__] *)
Definition init (n : Z) : t := mk ∅ [] n.

(** [len(self)] and [name in self] *)
Definition len (d : t) : nat := size (data d).
Definition contains (d : t) (name : K) : bool :=
  bool_decide (is_Some (data d !! name)).

(** The loop [while len(fifo) > max_size: del self[fifo.popleft()]].
    [popleft] on an empty deque raises [IndexError], [__delitem__] of a
    missing key raises [KeyError]; each iteration removes the head of the
    deque, so the loop is structural in it. *)
Fixpoint evict (n : Z) (fifo : list K) (m : gmap K V) {struct fifo}
  : result unit * (list K * gmap K V) :=
  if bool_decide (n < Z.of_nat (length fifo)) then
    match fifo with
    | [] => (Raise IndexError, (fifo, m))
    | k :: rest =>
        match m !! k with
        | None => (Raise KeyError, (rest, m))
        | Some _ => evict n rest (delete k m)
        end
    end
  else (Ok tt, (fifo, m)).

(** [__setitem__] *)
Definition setitem (name : K) (value : V) : M t unit := λ d,
  if negb (bool_decide (len d = length (key_fifo d))) then
    (Raise AssertionError, d)
  else
    let fifo1 := if contains d name then key_fifo d
                 else key_fifo d ++ [name] in
    let data1 := <[name := value]> (data d) in
    match evict (max_size d) fifo1 data1 with
    | (Raise e, (fifo2, data2)) => (Raise e, mk data2 fifo2 (max_size d))
    | (Ok _, (fifo2, data2)) =>
        let d2 := mk data2 fifo2 (max_size d) in
        if negb (bool_decide (len d2 = length fifo2)) then
          (Raise AssertionError, d2)
        else (Ok tt, d2)
    end.

(** [self[name]] and [self.get(name)] *)
Definition getitem (d : t) (name : K) : result V :=
  match data d !! name with
  | Some v => Ok v
  | None => Raise KeyError
  end.

(** The states a [SizedDict] goes through: made by [__init__], changed
    by [__setitem__] only (the methods of [dict] that would bypass the
    deque are not used by the module). *)
Inductive reachable : t → Prop :=
  | reach_init n : reachable (init n)
  | reach_set d name value d' :
      reachable d → setitem name value d = (Ok tt, d') → reachable d'.

(** The invariant asserted by [__setitem__], made precise: the deque
    lists the keys of the dict, each once, and fits the bound. *)
Definition tracks (fifo : list K) (m : gmap K V) : Prop :=
  NoDup fifo ∧ ∀ k, k ∈ fifo ↔ is_Some (m !! k).

Definition inv (d : t) : Prop :=
  tracks (key_fifo d) (data d) ∧
  (key_fifo d ≠ [] → Z.of_nat (length (key_fifo d)) ≤ max_size d).

End sized_dict.
Arguments t : clear implicits.
Arguments t K V {_ _}.
End SizedDict.

(** ** Byte strings

    The string methods the module uses, on [string].  Slices never raise:
    [s[:n]] is [str_take n s]. *)

Fixpoint str_take (n : nat) (s : string) : string :=
  match n, s with
  | S n', String c s' => String c (str_take n' s')
  | _, _ => ""
  end.

Fixpoint str_drop (n : nat) (s : string) : string :=
  match n, s with
  | S n', String _ s' => str_drop n' s'
  | _, _ => s
  end.

(** [s.startswith(p)] and [s.endswith(p)] *)
Fixpoint startswith (s p : string) : bool :=
  match p, s with
  | "", _ => true
  | String a p', String b s' => bool_decide (a = b) && startswith s' p'
  | String _ _, "" => false
  end.

Definition endswith (s p : string) : bool :=
  startswith (String.rev s) (String.rev p).

Definition str_forallb (f : ascii → bool) (s : string) : bool :=
  forallb f (String.list_ascii_of_string s).

(** [c in s] for a single byte *)
Definition str_mem (c : ascii) (s : string) : bool :=
  existsb (λ x, bool_decide (x = c)) (String.list_ascii_of_string s).

(** [sep.join(l)] *)
Definition join (sep : string) (l : list string) : string :=
  match l with
  | [] => ""
  | x :: l' => fold_left (λ acc y, acc +:+ sep +:+ y) l' x
  end.

Definition LF : ascii := "010"%char.
Definition CR : ascii := "013"%char.

(** [s.splitlines()]: a line ends at LF, CR or CR LF (and, for text, at
    the other one-byte separators, which [extra] lists); no empty last
    line. *)
Fixpoint splitlines_go (extra : ascii → bool) (cur s : string)
  : list string :=
  match s with
  | "" => match cur with "" => [] | _ => [String.rev cur] end
  | String c s' =>
      if bool_decide (c = CR) then
        match s' with
        | String c' s'' =>
            if bool_decide (c' = LF)
            then String.rev cur :: splitlines_go extra "" s''
            else String.rev cur :: splitlines_go extra "" s'
        | "" => [String.rev cur]
        end
      else if bool_decide (c = LF) || extra c then
        String.rev cur :: splitlines_go extra "" s'
      else splitlines_go extra (String c cur) s'
  end.

Definition splitlines (s : string) : list string :=
  splitlines_go (λ _, false) "" s.

(** [unicode.splitlines] also breaks at VT, FF, FS, GS, RS and NEL
    (U+0085); the commit text is taken to be in the one-byte range. *)
Definition text_splitlines (s : string) : list string :=
  splitlines_go
    (λ c, bool_decide
            (c ∈ ["011"; "012"; "028"; "029"; "030"; "133"]%char)) "" s.

(** [s.split()]: the maximal runs of non-blank bytes. *)
Definition split (s : string) : list string := String.words s.

(** [s.lstrip()], [s.rstrip()], [s.strip()] *)
Fixpoint lstrip (s : string) : string :=
  match s with
  | String c s' => if Ascii.is_space c then lstrip s' else s
  | "" => ""
  end.
Definition rstrip (s : string) : string := String.rev (lstrip (String.rev s)).
Definition strip (s : string) : string := rstrip (lstrip s).

(** [s.split(b' ', 1)] for an [s] that holds a blank: what is before the
    first blank and what is after it. *)
Fixpoint split_at (sep : ascii) (s : string) : option (string * string) :=
  match s with
  | "" => None
  | String c s' =>
      if bool_decide (c = sep) then Some ("", s')
      else match split_at sep s' with
           | Some (a, b) => Some (String c a, b)
           | None => None
           end
  end.

(** On text the blanks are those of [unicode.isspace]: besides the six
    of byte strings, FS, GS, RS, US, NEL (U+0085) and the no-break space
    (U+00A0). *)
Definition is_text_space (c : ascii) : bool :=
  Ascii.is_space c ||
  bool_decide (c ∈ ["028"; "029"; "030"; "031"; "133"; "160"]%char).

Fixpoint text_lstrip (s : string) : string :=
  match s with
  | String c s' => if is_text_space c then text_lstrip s' else s
  | "" => ""
  end.
Definition text_rstrip (s : string) : string :=
  String.rev (text_lstrip (String.rev s)).
Definition text_strip (s : string) : string := text_rstrip (text_lstrip s).

Fixpoint text_break_word (s : string) : string * string :=
  match s with
  | "" => ("", "")
  | String c s' =>
      if is_text_space c then ("", s)
      else let '(w, r) := text_break_word s' in (String c w, r)
  end.

(** [s.split(None, 1)] on text: the first word and the rest of the
    line from the next word on; fewer than two parts when the line has
    no second word. *)
Definition text_split1 (s : string) : list string :=
  let '(w, r) := text_break_word (text_lstrip s) in
  match w, text_lstrip r with
  | "", _ => []
  | _, "" => [w]
  | _, r' => [w; r']
  end.

(** *** Numbers in text *)

Definition hex_val (c : ascii) : option Z :=
  let n := Z.of_N (N_of_ascii c) in
  if bool_decide (48 ≤ n ≤ 57) then Some (n - 48)
  else if bool_decide (97 ≤ n ≤ 102) then Some (n - 87)
  else if bool_decide (65 ≤ n ≤ 70) then Some (n - 55)
  else None.

Definition is_hex (c : ascii) : bool := bool_decide (is_Some (hex_val c)).

Definition dec_val (c : ascii) : option Z :=
  let n := Z.of_N (N_of_ascii c) in
  if bool_decide (48 ≤ n ≤ 57) then Some (n - 48) else None.

Fixpoint digits (val : ascii → option Z) (base acc : Z) (s : string)
  : option Z :=
  match s with
  | "" => Some acc
  | String c s' =>
      match val c with
      | Some d => digits val base (base * acc + d) s'
      | None => None
      end
  end.

(** [int(s, base)]: blanks around the number are dropped, a sign and (for
    base 16) a [0x] prefix are read, then at least one digit; anything
    else is a [ValueError].  (Python 3.6 also reads [_] between digits.) *)
Definition unsigned_int (val : ascii → option Z) (base : Z) (s : string)
  : result Z :=
  match s with
  | "" => Raise ValueError
  | _ => match digits val base 0 s with
         | Some n => Ok n
         | None => Raise ValueError
         end
  end.

Definition signed_int (body : string → result Z) (s : string) : result Z :=
  match strip s with
  | String "-" s' => let? n := body s' in Ok (- n)
  | String "+" s' => body s'
  | s' => body s'
  end.

Definition int16 (s : string) : result Z :=
  signed_int (λ s', match s' with
                    | String "0" (String "x" d) | String "0" (String "X" d) =>
                        unsigned_int hex_val 16 d
                    | _ => unsigned_int hex_val 16 s'
                    end) s.

Definition int10 (s : string) : result Z :=
  signed_int (unsigned_int dec_val 10) s.

(** [GitCore.is_sha]: between 4 and 40 bytes matching [[0-9A-Fa-f]*$]
    (in Python [$] also matches before a final line feed). *)
Definition is_sha (sha : string) : bool :=
  let n := String.length sha in
  bool_decide (4 ≤ n ≤ 40)%nat &&
  (str_forallb is_hex sha ||
   (endswith sha (String LF "") &&
    str_forallb is_hex (str_take (n - 1) sha))).

(** ** The revision cache *)

(** An entry of [rev_dict], the tuple
    [(children, parents, ordinal_id, rheads)].  While an entry has only
    been made for a parent its sets are mutable ([set], [list]) and its
    ordinal is the dummy 0; a final entry holds a [frozenset], a [tuple],
    the ordinal and a [frozenset].  [c_frozen] tells the two apart. *)
Record commit : Type := Commit {
  c_children : gset string;
  c_parents : list string;
  c_ord : Z;
  c_rheads : gset string;
  c_frozen : bool
}.

Global Instance commit_eq_dec : EqDecision commit.
Proof. solve_decision. Defined.

(** [srev_dict] is a [dict] or, for more than 5000 buckets, a [list]
    indexed by the key. *)
Inductive srev_table : Type :=
  | SrevDict (m : gmap Z (list string))
  | SrevList (a : list (list string)).

Global Instance srev_table_eq_dec : EqDecision srev_table.
Proof. solve_decision. Defined.

(** [srev_dict[k]] for a key [0 ≤ k] *)
Definition srev_lookup (t : srev_table) (k : Z) : result (list string) :=
  match t with
  | SrevDict m =>
      match m !! k with Some v => Ok v | None => Raise KeyError end
  | SrevList a =>
      match a !! Z.to_nat k with Some v => Ok v | None => Raise IndexError end
  end.

(** Truth value of [srev_dict] *)
Definition srev_nonempty (t : srev_table) : bool :=
  match t with
  | SrevDict m => negb (bool_decide (m = ∅))
  | SrevList a => negb (bool_decide (a = []))
  end.

Record RevCache : Type := mkRevCache {
  youngest_rev : option string;
  oldest_rev : option string;
  rev_dict : gmap string commit;
  refs_dict : gmap string string;
  srev_dict : srev_table
}.

Global Instance RevCache_eq_dec : EqDecision RevCache.
Proof. solve_decision. Defined.

(** Truth value of [youngest_rev] and [oldest_rev] ([None] or a string) *)
Definition truthy (r : option string) : bool :=
  match r with
  | None | Some "" => false
  | Some _ => true
  end.

(** [RevCache.__init__]: either all fields are set or all are empty. *)
Definition RevCache_init (youngest oldest : option string)
    (rd : gmap string commit) (refs : gmap string string) (sd : srev_table)
  : result RevCache :=
  let rc := mkRevCache youngest oldest rd refs sd in
  if bool_decide (is_Some youngest) && bool_decide (is_Some oldest) &&
     negb (bool_decide (rd = ∅)) && negb (bool_decide (refs = ∅)) &&
     srev_nonempty sd
  then Ok rc
  else if negb (truthy youngest) && negb (truthy oldest) &&
          bool_decide (rd = ∅) && bool_decide (refs = ∅) &&
          negb (srev_nonempty sd)
  then Ok rc
  else Raise ValueError.

(** [RevCache.empty()] *)
Definition RevCache_empty : RevCache := mkRevCache None None ∅ ∅ (SrevDict ∅).

(** [Storage.__rev_key] *)
Definition __rev_key (rev : string) : result Z :=
  let? _ := assert (bool_decide (4 ≤ String.length rev)%nat) in
  let? srev_key := int16 (str_take 4 rev) in
  let? _ := assert (bool_decide (0 ≤ srev_key ≤ 65535)) in
  Ok srev_key.

(** *** [Storage._build_rev_cache] *)

(** The revisions of the local branches *)
Definition head_revs_of (refs : gmap string string) : gset string :=
  map_img (filter (λ kv, startswith kv.1 "refs/heads/" = true) refs).

(** The entry [new_db.setdefault(parent, (set(), [], 0, set()))] makes *)
Definition provisional : commit := Commit ∅ [] 0 ∅ false.

(** One round of the loop over [parents]: [_children.add(rev)] and
    [_rheads2.update(_rheads)] on the parent's entry.  A final entry has
    a [frozenset], which has no [add]. *)
Definition add_child (rev : string) (rheads : gset string)
    (new_db : gmap string commit) (parent : string)
  : result (gmap string commit) :=
  let c := default provisional (new_db !! parent) in
  if c_frozen c then Raise AttributeError
  else Ok (<[parent := Commit ({[rev]} ∪ c_children c) (c_parents c)
                              (c_ord c) (c_rheads c ∪ rheads) false]> new_db).

Fixpoint add_children (rev : string) (rheads : gset string)
    (new_db : gmap string commit) (parents : list string)
  : result (gmap string commit) :=
  match parents with
  | [] => Ok new_db
  | parent :: rest =>
      let? new_db' := add_child rev rheads new_db parent in
      add_children rev rheads new_db' rest
  end.

(** The body of [for ord_rev, revs in enumerate(rev_list)] *)
Definition build_step (head_revs : gset string)
    (st : gmap string commit * gmap Z (list string))
    (ord_rev : nat) (revs : list string)
  : result (gmap string commit * gmap Z (list string)) :=
  let '(new_db, new_sdb) := st in
  match revs with
  | [] => Raise IndexError
  | rev :: parents =>
      let? key := __rev_key rev in
      let new_sdb' := <[key := default [] (new_sdb !! key) ++ [rev]]> new_sdb in
      let? (_children, _rheads, frozen) :=
        match new_db !! rev with
        | Some c =>
            let? _ := assert (negb (bool_decide (c_children c = ∅))) in
            let? _ := assert (bool_decide (c_parents c = [])) in
            let? _ := assert (bool_decide (c_ord c = 0)) in
            Ok (c_children c, c_rheads c, c_frozen c)
        | None => Ok (∅, ∅, false)
        end in
      let? _rheads :=
        if bool_decide (rev ∈ head_revs) then
          if frozen : bool then Raise AttributeError
          else Ok ({[rev]} ∪ _rheads)
        else Ok _rheads in
      let new_db' :=
        <[rev := Commit _children parents (Z.of_nat ord_rev + 1) _rheads true]>
          new_db in
      let? new_db'' := add_children rev _rheads new_db' parents in
      Ok (new_db'', new_sdb')
  end.

Fixpoint build_loop (head_revs : gset string) (ord_rev : nat)
    (rev_list : list (list string))
    (st : gmap string commit * gmap Z (list string))
  : result (gmap string commit * gmap Z (list string)) :=
  match rev_list with
  | [] => Ok st
  | revs :: rest =>
      let? st' := build_step head_revs st ord_rev revs in
      build_loop head_revs (S ord_rev) rest st'
  end.

(** [max(new_sdb)] for keys that are not negative *)
Definition max_key (new_sdb : gmap Z (list string)) : Z :=
  foldr Z.max 0 (map_to_list new_sdb).*1.

(** The conversion of [new_sdb] to a dict or an array of tuples *)
Definition freeze_sdb (new_sdb : gmap Z (list string)) : srev_table :=
  if bool_decide (5000 < size new_sdb)%nat then
    SrevList ((λ k, default [] (new_sdb !! k)) <$> seqZ 0 (max_key new_sdb + 1))
  else SrevDict new_sdb.

(** The lines of [git rev-list --parents --topo-order --all], each split
    into the revision and its parents *)
Definition parse_rev_list (rev_list_out : string) : list (list string) :=
  split <$> splitlines rev_list_out.

(** [l[0]] *)
Definition first_item {A} (l : list A) : result A :=
  match l with
  | x :: _ => Ok x
  | [] => Raise IndexError
  end.

(** [_build_rev_cache(refs)], given what [rev-list] printed. *)
Definition _build_rev_cache (refs : gmap string string)
    (rev_list_out : string) : result RevCache :=
  let head_revs := head_revs_of refs in
  let rev_list := parse_rev_list rev_list_out in
  let? (youngest, oldest) :=
    match rev_list with
    | [] => Ok (None, None)
    | first :: _ =>
        let? y := first_item first in
        let? o := first_item (List.last rev_list first) in
        Ok (Some y, Some o)
    end in
  let? (new_db, new_sdb) := build_loop head_revs 0 rev_list (∅, ∅) in
  RevCache_init youngest oldest new_db refs (freeze_sdb new_sdb).

(** ** Queries on a snapshot

    Each method of [Storage] below first reads [self.rev_cache] (or
    [self.get_commits()], its [rev_dict]); the function here is what the
    method then computes from that snapshot. *)

(** Python compares tuples of strings item by item. *)
Definition tuple_le (a b : string * string) : Prop :=
  (a.1 ≠ b.1 ∧ String.le a.1 b.1) ∨ (a.1 = b.1 ∧ String.le a.2 b.2).

Global Instance tuple_le_dec : RelDecision tuple_le.
Proof. intros a b. unfold tuple_le. apply _. Defined.

(** How a run of a generator ends: [StopIteration], an exception, or the
    model giving up ([Diverge], which the code has no counterpart of). *)
Inductive gen_end : Type :=
  | Stop
  | Fail (e : exn)
  | Diverge.

Section queries.
(** The order in which the interpreter enumerates a set and the items
    of a dict. *)
Variable set_iter : gset string → list string.
Variable dict_items : ∀ V : Type, gmap string V → list (string * V).

(** [RevCache.iter_branches] *)
Definition iter_branches (rc : RevCache) : list (string * string * bool) :=
  let head := refs_dict rc !! "HEAD" in
  omap (λ '(refname, rev),
          if startswith refname "refs/heads/"
          then Some (str_drop 11 refname, rev, bool_decide (Some refname = head))
          else None)
       (dict_items _ (refs_dict rc)).

(** [get_branch_contains]: pairs when [resolve], revisions otherwise *)
Definition get_branch_contains (rc : RevCache) (sha : string)
    (resolve : bool) : list (string * string) + list string :=
  match rev_dict rc !! sha with
  | None => if resolve then inl [] else inr []
  | Some commit =>
      let rheads := c_rheads commit in
      if resolve then
        inl (merge_sort tuple_le
               (omap (λ '(name, rev, head),
                        if bool_decide (rev ∈ rheads) then Some (name, rev)
                        else None)
                     (iter_branches rc)))
      else inr (set_iter rheads)
  end.

(** [history_relative_rev] *)
Definition history_relative_rev (db : gmap string commit) (sha : string)
    (rel_pos : Z) : result (option string) :=
  match db !! sha with
  | None => Raise GitErrorSha
  | Some commit =>
      if bool_decide (rel_pos = 0) then Ok (Some sha)
      else
        let lin_rev := c_ord commit + rel_pos in
        if bool_decide (lin_rev < 1 ∨ lin_rev > Z.of_nat (size db))
        then Ok None
        else match list_find (λ kv, c_ord kv.2 = lin_rev) (dict_items _ db) with
             | Some (_, (k, _)) => Ok (Some k)
             | None => Raise GitError
             end
  end.

(** [shortrev]: the loop [for l in xrange(min_len+1, 40)] *)
Fixpoint shortrev_search (rev : string) (crevs : gset string)
    (ls : list Z) : string :=
  match ls with
  | [] => rev
  | l :: ls' =>
      let srev := str_take (Z.to_nat l) rev in
      if bool_decide (srev ∈ str_take (Z.to_nat l) <$> elements crevs)
      then shortrev_search rev crevs ls'
      else srev
  end.

Definition shortrev (rc : RevCache) (rev : string) (min_len : Z)
  : result (option string) :=
  let min_len := if bool_decide (min_len < 4) then 4 else min_len in
  match rev_dict rc !! rev with
  | None => Ok None
  | Some _ =>
      let srev := str_take (Z.to_nat min_len) rev in
      let? key := __rev_key rev in
      let? bucket := srev_lookup (srev_dict rc) key in
      let srevs : gset string := list_to_set bucket in
      if bool_decide (size srevs = 1%nat) then Ok (Some srev)
      else
        let crevs := srevs ∖ {[rev]} in
        Ok (Some (shortrev_search rev crevs
                    (seqZ (min_len + 1) (40 - (min_len + 1)))))
  end.

(** [fullrev] *)
Definition fullrev (rc : RevCache) (srev : string) : result (option string) :=
  if bool_decide (String.length srev = 40%nat) &&
     bool_decide (is_Some (rev_dict rc !! srev))
  then Ok (Some srev)
  else if negb (is_sha srev) then Ok None
  else
    let? key := __rev_key srev in
    match srev_lookup (srev_dict rc) key with
    | Raise KeyError => Ok None
    | Raise e => Raise e
    | Ok srevs =>
        match filter (λ s, startswith s srev = true) srevs with
        | [s] => Ok (Some s)
        | _ => Ok None
        end
    end.

(** [children] and [parents] *)
Definition children (db : gmap string commit) (sha : string) : list string :=
  match db !! sha with
  | None => []
  | Some commit => merge_sort String.le (set_iter (c_children commit))
  end.

Definition parents (db : gmap string commit) (sha : string) : list string :=
  match db !! sha with
  | None => []
  | Some commit => c_parents commit
  end.

(** [children_recursive]: the [while work_list] loop.  A round takes [p]
    from the left of the deque, yields it, and only then reads
    [rev_dict[p]]; the result is what the generator yields and how it
    ends.  [fuel] bounds the number of rounds. *)
Fixpoint bfs (fuel : nat) (rev_dict : gmap string commit)
    (work_list : list string) (seen : gset string)
  : list string * gen_end :=
  match work_list with
  | [] => ([], Stop)
  | p :: work =>
      match fuel with
      | O => ([], Diverge)
      | S fuel' =>
          match rev_dict !! p with
          | None => ([p], Fail KeyError)
          | Some commit =>
              let _children := c_children commit ∖ seen in
              let '(ys, e) := bfs fuel' rev_dict
                                (work ++ set_iter _children)
                                (seen ∪ _children) in
              (p :: ys, e)
          end
      end
  end.

(** No round is run twice for one revision, and a round for a revision
    outside [rev_dict] is the last: one more round than [rev_dict] has
    keys is all the loop can make. *)
Definition children_recursive (rev_dict : gmap string commit)
    (sha : string) : list string * gen_end :=
  match rev_dict !! sha with
  | None => ([], Fail KeyError)
  | Some commit =>
      let _children := c_children commit in
      bfs (S (size rev_dict)) rev_dict (set_iter _children) _children
  end.

(** [rev_is_anchestor_of] *)
Definition rev_is_anchestor_of (rev_dict : gmap string commit)
    (rev1 rev2 : string) : result bool :=
  if bool_decide (is_Some (rev_dict !! rev2)) then
    let '(ys, e) := children_recursive rev_dict rev1 in
    if bool_decide (rev2 ∈ ys) then Ok true
    else match e with
         | Fail x => Raise x
         | _ => Ok false
         end
  else Ok false.

End queries.

(** ** [parse_commit] *)

(** The variables of the loop: [props], [multiline], [multiline_key] and
    [key] (unbound until the first header line is read). *)
Record parse_state : Type := ParseState {
  ps_props : gmap string (list string);
  ps_multiline : option (list string);
  ps_multiline_key : option string;
  ps_key : option string
}.

(** [l[-1]] and [l[-1] = x] *)
Definition last_item {A} (l : list A) : result A :=
  match reverse l with
  | x :: _ => Ok x
  | [] => Raise IndexError
  end.

Definition set_last {A} (l : list A) (x : A) : result (list A) :=
  match reverse l with
  | _ :: l' => Ok (reverse l' ++ [x])
  | [] => Raise IndexError
  end.

(** The first half of the loop body: a continuation line (it starts with
    a blank) or a header line [key value]. *)
Definition parse_line (line : string) (st : parse_state) : result parse_state :=
  match line with
  | String " " rest =>
      let? (mkey, ml) :=
        match ps_multiline st with
        | Some ml => Ok (ps_multiline_key st, ml)
        | None =>
            match ps_key st with
            | None => Raise UnboundLocalError
            | Some key =>
                match ps_props st !! key with
                | None => Raise KeyError
                | Some vs => let? v := last_item vs in Ok (Some key, [v])
                end
            end
        end in
      Ok (ParseState (ps_props st) (Some (ml ++ [rest])) mkey (ps_key st))
  | _ =>
      match text_split1 line with
      | [key; value] =>
          Ok (ParseState
                (<[key := default [] (ps_props st !! key) ++ [text_strip value]]>
                   (ps_props st))
                (ps_multiline st) (ps_multiline_key st) (Some key))
      | _ => Raise ValueError
      end
  end.

(** The second half, once the next line is known: the end of a run of
    continuation lines puts the joined value back. *)
Definition parse_flush (next : string) (st : parse_state) : result parse_state :=
  match ps_multiline st with
  | Some ml =>
      if bool_decide (next = "") ||
         negb (bool_decide (ps_key st = ps_multiline_key st))
      then
        match ps_multiline_key st with
        | None => Raise KeyError
        | Some mkey =>
            match ps_props st !! mkey with
            | None => Raise KeyError
            | Some vs =>
                let? vs' := set_last vs (join (String LF "") ml) in
                Ok (ParseState (<[mkey := vs']> (ps_props st)) None
                               (ps_multiline_key st) (ps_key st))
            end
        end
      else Ok st
  | None => Ok st
  end.

(** [while line: ...; line = lines.pop(0); ...] *)
Fixpoint parse_loop (line : string) (lines : list string) (st : parse_state)
    {struct lines} : result (list string * gmap string (list string)) :=
  match line with
  | "" => Ok (lines, ps_props st)
  | _ =>
      let? st1 := parse_line line st in
      match lines with
      | [] => Raise IndexError
      | next :: rest =>
          let? st2 := parse_flush next st1 in
          parse_loop next rest st2
      end
  end.

Definition parse_commit (raw : string)
  : result (string * gmap string (list string)) :=
  match raw with
  | "" => Raise GitErrorSha
  | _ =>
      match text_splitlines raw with
      | [] => Raise GitErrorSha
      | line :: lines =>
          let? (rest, props) :=
            parse_loop line lines (ParseState ∅ None None None) in
          Ok (join (String LF "") rest, props)
      end
  end.

(** ** Objects shared between the cache and its callers

    [read_commit] hands out a dict whose values are the lists held by the
    cached entry, so dicts and lists live in a store and are named by
    their address. *)

Inductive obj : Type :=
  | ODict (d : gmap string nat)
  | OList (l : list string).

Abbreviation store := (gmap nat obj).

Definition alloc (o : obj) (h : store) : nat * store :=
  let a := fresh (dom h) in (a, <[a := o]> h).

(** Put a parsed [props] into the store: one list object per header, then
    the dict that holds them. *)
Definition alloc_props (props : gmap string (list string)) (h : store)
  : nat * store :=
  let '(d, h') :=
    foldr (λ '(k, vs) '(d, h),
             let '(a, h') := alloc (OList vs) h in (<[k := a]> d, h'))
          (∅, h) (map_to_list props) in
  alloc (ODict d) h'.

(** [dict(d)]: a new dict with the items of [d] *)
Definition copy_dict (d : nat) (h : store) : result (nat * store) :=
  match h !! d with
  | Some (ODict m) => Ok (alloc (ODict m) h)
  | _ => Raise KeyError
  end.

(** What a caller reads in a dict: each key with the items of its list *)
Definition view (h : store) (d : nat) : option (gmap string (list string)) :=
  match h !! d with
  | Some (ODict m) =>
      Some (omap (λ a, match h !! a with
                       | Some (OList l) => Some l
                       | _ => None
                       end) m)
  | _ => None
  end.

(** What a caller can do to the objects it was given: [d[k].append(x)],
    [d[k] = <a new list>], [del d[k]]. *)
Definition list_append (a : nat) (x : string) (h : store) : store :=
  match h !! a with
  | Some (OList l) => <[a := OList (l ++ [x])]> h
  | _ => h
  end.

Definition dict_setitem (d : nat) (k : string) (vs : list string) (h : store)
  : store :=
  match h !! d with
  | Some (ODict m) =>
      let '(a, h') := alloc (OList vs) h in <[d := ODict (<[k := a]> m)]> h'
  | _ => h
  end.

Definition dict_delitem (d : nat) (k : string) (h : store) : store :=
  match h !! d with
  | Some (ODict m) => <[d := ODict (delete k m)]> h
  | _ => h
  end.

(** ** [Storage]: the stateful methods *)

(** What the git commands print for the repository as it is now. *)
Record repo : Type := Repo {
  show_ref_out : string;       (* show-ref --dereference *)
  symbolic_ref_out : string;   (* symbolic-ref -q HEAD *)
  rev_list_out : string;       (* rev-list --parents --topo-order --all *)
  config_out : string;         (* config --get i18n.commitEncoding *)
  batch_reply : string → string (* cat-file --batch: request line to answer *)
}.

(** The git commands that are run, in order. *)
Inductive cmd : Type :=
  | ShowRef
  | SymbolicRef
  | RevList
  | Config
  | CatFileBatch.

Global Instance cmd_eq_dec : EqDecision cmd.
Proof. solve_decision. Defined.

(** A [cat-file --batch] child: its process id and what it has printed
    that nobody has read yet. *)
Record proc : Type := Proc {
  pid : nat;
  stdout_buf : string
}.

(** A [Storage] object, the slot [StorageFactory.__dict_rev_cache] keeps
    for its repository, the store, and the processes and commands so far. *)
Record state : Type := State {
  s_rev_cache : RevCache;
  s_rev_cache_refresh : bool;
  s_commit_msg_cache : SizedDict.t string (string * nat);
  s_cat_file_pipe : option proc;
  s_commit_encoding : option string;
  s_factory_rev_cache : option RevCache;
  s_store : store;
  s_next_pid : nat;
  s_terminated : list nat;
  s_log : list cmd
}.

Definition set_rev_cache (x : RevCache) (s : state) : state :=
  State x (s_rev_cache_refresh s) (s_commit_msg_cache s) (s_cat_file_pipe s)
        (s_commit_encoding s) (s_factory_rev_cache s) (s_store s)
        (s_next_pid s) (s_terminated s) (s_log s).
Definition set_rev_cache_refresh (x : bool) (s : state) : state :=
  State (s_rev_cache s) x (s_commit_msg_cache s) (s_cat_file_pipe s)
        (s_commit_encoding s) (s_factory_rev_cache s) (s_store s)
        (s_next_pid s) (s_terminated s) (s_log s).
Definition set_commit_msg_cache (x : SizedDict.t string (string * nat))
    (s : state) : state :=
  State (s_rev_cache s) (s_rev_cache_refresh s) x (s_cat_file_pipe s)
        (s_commit_encoding s) (s_factory_rev_cache s) (s_store s)
        (s_next_pid s) (s_terminated s) (s_log s).
Definition set_cat_file_pipe (x : option proc) (s : state) : state :=
  State (s_rev_cache s) (s_rev_cache_refresh s) (s_commit_msg_cache s) x
        (s_commit_encoding s) (s_factory_rev_cache s) (s_store s)
        (s_next_pid s) (s_terminated s) (s_log s).
Definition set_commit_encoding (x : option string) (s : state) : state :=
  State (s_rev_cache s) (s_rev_cache_refresh s) (s_commit_msg_cache s)
        (s_cat_file_pipe s) x (s_factory_rev_cache s) (s_store s)
        (s_next_pid s) (s_terminated s) (s_log s).
Definition set_factory_rev_cache (x : option RevCache) (s : state) : state :=
  State (s_rev_cache s) (s_rev_cache_refresh s) (s_commit_msg_cache s)
        (s_cat_file_pipe s) (s_commit_encoding s) x (s_store s)
        (s_next_pid s) (s_terminated s) (s_log s).
Definition set_store (x : store) (s : state) : state :=
  State (s_rev_cache s) (s_rev_cache_refresh s) (s_commit_msg_cache s)
        (s_cat_file_pipe s) (s_commit_encoding s) (s_factory_rev_cache s) x
        (s_next_pid s) (s_terminated s) (s_log s).
Definition set_next_pid (x : nat) (s : state) : state :=
  State (s_rev_cache s) (s_rev_cache_refresh s) (s_commit_msg_cache s)
        (s_cat_file_pipe s) (s_commit_encoding s) (s_factory_rev_cache s)
        (s_store s) x (s_terminated s) (s_log s).
Definition set_terminated (x : list nat) (s : state) : state :=
  State (s_rev_cache s) (s_rev_cache_refresh s) (s_commit_msg_cache s)
        (s_cat_file_pipe s) (s_commit_encoding s) (s_factory_rev_cache s)
        (s_store s) (s_next_pid s) x (s_log s).
Definition set_log (x : list cmd) (s : state) : state :=
  State (s_rev_cache s) (s_rev_cache_refresh s) (s_commit_msg_cache s)
        (s_cat_file_pipe s) (s_commit_encoding s) (s_factory_rev_cache s)
        (s_store s) (s_next_pid s) (s_terminated s) x.

(** How often a command was run *)
Definition count_cmd (c : cmd) (l : list cmd) : nat :=
  length (filter (λ x, x = c) l).

(** [f.readline()]: up to the first line feed, which is included *)
Fixpoint readline (buf : string) : string * string :=
  match buf with
  | "" => ("", "")
  | String c rest =>
      if bool_decide (c = LF) then (String c "", rest)
      else let '(l, r) := readline rest in (String c l, r)
  end.

(** An identifier as a caller passes it: a byte string or text.
    [to_b] leaves bytes as they are and encodes text, which raises
    [UnicodeEncodeError] for text the codec cannot encode. *)
Inductive pystr : Type :=
  | PyBytes (b : string)
  | PyText (u : string).

Definition to_b (encode : string → result string) (value : pystr)
  : result string :=
  match value with
  | PyBytes b => Ok b
  | PyText u => encode u
  end.

Module Storage.
Section storage.
Variable set_iter : gset string → list string.
Variable dict_items : ∀ V : Type, gmap string V → list (string * V).
(** [unicode(raw, encoding, 'replace')], Python's codecs *)
Variable decode : string → string → result string.
(** [u.encode(git_fs_encoding)] *)
Variable encode : string → result string.
(** The repository the object was made for *)
Variable git : repo.

(** [self._fs_from_unicode], that is [partial(to_b, encoding=...)] *)
Definition _fs_from_unicode (value : pystr) : result string :=
  to_b encode value.

(** [GitCore.__execute]: run a command to its end *)
Definition execute (c : cmd) : M state unit :=
  mmodify (λ s, set_log (s_log s ++ [c]) s).

(** [Storage.__init__], as [StorageFactory] calls it with the snapshot
    it kept for the repository: an object that has to refresh. *)
Definition init (kept : option RevCache) : state :=
  State (default RevCache_empty kept) true (SizedDict.init 200) None None
        kept ∅ 0 [] [].

(** [invalidate_rev_cache] *)
Definition invalidate_rev_cache : M state unit :=
  mmodify (set_rev_cache_refresh true).

(** [_get_refs]: one line of [show-ref]'s output *)
Definition get_refs_line (acc : gmap string string * gmap string string)
    (line : string) : gmap string string * gmap string string :=
  let '(refs, tags) := acc in
  if negb (str_mem " " line) then acc
  else match split_at " " line with
       | Some (rev, refname) =>
           if endswith refname "^{}"
           then (refs, <[str_take (String.length refname - 3) refname := rev]> tags)
           else (<[refname := rev]> refs, tags)
       | None => acc
       end.

Definition _get_refs : M state (gmap string string) :=
  let* _ := execute ShowRef in
  let '(refs, tags) :=
    fold_left get_refs_line (splitlines (show_ref_out git)) (∅, ∅) in
  let refs := tags ∪ refs in
  if bool_decide (refs = ∅) then mret refs
  else
    let* _ := execute SymbolicRef in
    let refname := strip (symbolic_ref_out git) in
    if bool_decide (is_Some (refs !! refname))
    then mret (<["HEAD" := refname]> refs)
    else mret refs.

(** [_build_rev_cache]: run [rev-list] and build from what it prints *)
Definition _build_rev_cache (refs : gmap string string) : M state RevCache :=
  let* _ := execute RevList in
  mlift (_build_rev_cache refs (rev_list_out git)).

(** [_refresh_rev_cache] *)
Definition _refresh_rev_cache (force : bool) : M state bool :=
  let* s := mget in
  if force || s_rev_cache_refresh s then
    let* _ := mmodify (set_rev_cache_refresh false) in
    let* refs := _get_refs in
    let* s := mget in
    if negb (bool_decide (refs_dict (s_rev_cache s) = refs)) then
      let* rev_cache := _build_rev_cache refs in
      let* _ := mmodify (set_rev_cache rev_cache) in
      let* _ := mmodify (set_factory_rev_cache (Some rev_cache)) in
      mret true
    else mret false
  else mret false.

(** The property [rev_cache], [get_commits] and [sync] *)
Definition rev_cache : M state RevCache :=
  let* _ := _refresh_rev_cache false in
  let* s := mget in
  mret (s_rev_cache s).

Definition get_commits : M state (gmap string commit) :=
  let* rc := rev_cache in mret (rev_dict rc).

Definition sync : M state bool := _refresh_rev_cache true.

(** The methods that answer from the snapshot *)
Definition children (sha : pystr) : M state (list string) :=
  let* sha := mlift (_fs_from_unicode sha) in
  let* db := get_commits in mret (children set_iter db sha).

Definition parents (sha : pystr) : M state (list string) :=
  let* sha := mlift (_fs_from_unicode sha) in
  let* db := get_commits in mret (parents db sha).

Definition fullrev (srev : string) : M state (option string) :=
  let* rc := rev_cache in mlift (fullrev rc srev).

Definition shortrev (rev : string) (min_len : Z) : M state (option string) :=
  let* rc := rev_cache in mlift (shortrev rc rev min_len).

Definition history_relative_rev (sha : string) (rel_pos : Z)
  : M state (option string) :=
  let* db := get_commits in mlift (history_relative_rev dict_items db sha rel_pos).

Definition get_branch_contains (sha : string) (resolve : bool)
  : M state (list (string * string) + list string) :=
  let* rc := rev_cache in
  mret (get_branch_contains set_iter dict_items rc sha resolve).

(** The lazy property [commit_encoding] *)
Definition commit_encoding : M state string :=
  let* s := mget in
  match s_commit_encoding s with
  | Some enc => mret enc
  | None =>
      let* _ := execute Config in
      let encoding := strip (config_out git) in
      let enc := match encoding with "" => "utf-8" | _ => encoding end in
      let* _ := mmodify (set_commit_encoding (Some enc)) in
      mret enc
  end.

(** *** [cat_file] *)

(** [self.repo.cat_file_batch()]: a new child that has printed nothing *)
Definition cat_file_batch : M state proc := λ s,
  let p := Proc (s_next_pid s) "" in
  (Ok p, set_log (s_log s ++ [CatFileBatch]) (set_next_pid (S (s_next_pid s)) s)).

(** The statements under [try], on the child [self.__cat_file_pipe]
    names.  The child answers a request as soon as it is flushed;
    reading takes what is there, at most the number of bytes asked for
    ([read] refuses a negative number other than -1, which the size
    plus one can only be when the size is below -1). *)
Definition cat_file_try (kind sha : string) (p : proc) : M state string :=
  let buf := stdout_buf p +:+ batch_reply git (sha +:+ String LF "") in
  let '(line, buf) := readline buf in
  let* _ := mmodify (set_cat_file_pipe (Some (Proc (pid p) buf))) in
  match split line with
  | [_sha; _type; _size] =>
      if negb (bool_decide (_type = kind)) then mraise GitError
      else
        let* size := mlift (int10 _size) in
        if bool_decide (size + 1 < 0) then mraise ValueError
        else
          let* _ := mmodify (set_cat_file_pipe
                       (Some (Proc (pid p) (str_drop (Z.to_nat (size + 1)) buf)))) in
          mret (str_take (Z.to_nat size) (str_take (Z.to_nat (size + 1)) buf))
  | _ => mraise GitError
  end.

(** The [except:] clause: close and kill the child, forget the pipe.
    Nothing is raised again. *)
Definition cat_file_except (p : proc) : M state unit :=
  mmodify (λ s, set_cat_file_pipe None
                  (set_terminated (s_terminated s ++ [pid p]) s)).

Definition cat_file (kind sha : string) : M state (option string) :=
  let* s := mget in
  let* p := match s_cat_file_pipe s with
            | Some p => mret p
            | None =>
                let* p := cat_file_batch in
                let* _ := mmodify (set_cat_file_pipe (Some p)) in
                mret p
            end in
  λ s, match cat_file_try kind sha p s with
       | (Ok data, s') => (Ok (Some data), s')
       | (Raise _, s') =>
           match cat_file_except p s' with
           | (_, s'') => (Ok None, s'')
           end
       end.

(** *** [read_commit] *)

(** [return result[0], dict(result[1])] *)
Definition return_copy (result : string * nat) : M state (string * nat) :=
  let* s := mget in
  let* (d', h') := mlift (copy_dict result.2 (s_store s)) in
  let* _ := mmodify (set_store h') in
  mret (result.1, d').

Definition read_commit (commit_id : string) : M state (string * nat) :=
  match commit_id with
  | "" => mraise GitError
  | _ =>
      let* full := fullrev commit_id in
      let* db := get_commits in
      match full with
      | None => mraise GitErrorSha
      | Some commit_id =>
          if negb (bool_decide (is_Some (db !! commit_id)))
          then mraise GitErrorSha
          else
            let* s := mget in
            match SizedDict.data (s_commit_msg_cache s) !! commit_id with
            | Some result => return_copy result
            | None =>
                let* raw := cat_file "commit" commit_id in
                match raw with
                | None | Some "" => mraise GitErrorSha
                | Some raw =>
                    let* enc := commit_encoding in
                    let* raw := mlift (decode enc raw) in
                    let* (msg, props) := mlift (parse_commit raw) in
                    let* s := mget in
                    let '(d, h) := alloc_props props (s_store s) in
                    let* _ := mmodify (set_store h) in
                    let* _ := (λ s,
                      match SizedDict.setitem commit_id (msg, d)
                              (s_commit_msg_cache s) with
                      | (r, c) => (r, set_commit_msg_cache c s)
                      end) in
                    return_copy (msg, d)
                end
            end
      end
  end.

End storage.
End Storage.

(** ** What the builder guarantees *)

Global Instance exn_eq_dec : EqDecision exn.
Proof. solve_decision. Defined.

Global Instance result_eq_dec {A} `{EqDecision A} : EqDecision (result A).
Proof. solve_decision. Defined.

(** The revisions the lines of the ancestry listing are for *)
Definition heads (lines : list (list string)) : list string := omap head lines.

(** Every revision named as a parent has a line of its own. *)
Definition parents_listed (rev_list : list (list string)) : Prop :=
  Forall (λ line, Forall (λ p, p ∈ heads rev_list) (tail line)) rev_list.

Global Instance parents_listed_dec rev_list : Decision (parents_listed rev_list).
Proof. unfold parents_listed. apply _. Defined.

(** The revisions of a listing with a given key, in the order of the
    listing: the bucket of that key *)
Definition bucket_of (key : Z) (lines : list (list string)) : list string :=
  filter (λ r, __rev_key r = Ok key) (heads lines).

(** The invariant of the loop of [_build_rev_cache], after the lines
    [lines] of the listing: the final entries are those of the lines, with
    the ordinal of the line; the others wait for their line with the dummy
    ordinal and at least one child; every child is the revision of a line
    that names the entry as a parent; the parents of every line have an
    entry; a bucket holds the revisions of its key. *)
Record build_inv (lines : list (list string)) (db : gmap string commit)
    (sdb : gmap Z (list string)) : Prop := BuildInv {
  bi_final : ∀ (i : nat) rev ps, lines !! i = Some (rev :: ps) →
    ∃ c, db !! rev = Some c ∧ c_frozen c = true ∧
         c_ord c = Z.of_nat i + 1 ∧ c_parents c = ps;
  bi_frozen : ∀ k c, db !! k = Some c → c_frozen c = true →
    ∃ i : nat, lines !! i = Some (k :: c_parents c) ∧ c_ord c = Z.of_nat i + 1;
  bi_pending : ∀ k c, db !! k = Some c → c_frozen c = false →
    c_ord c = 0 ∧ c_parents c = [] ∧ c_children c ≠ ∅;
  bi_children : ∀ k c x, db !! k = Some c → x ∈ c_children c →
    ∃ (i : nat) ps, lines !! i = Some (x :: ps) ∧ k ∈ ps;
  bi_nodup : NoDup (heads lines);
  bi_nonempty : ∀ line, line ∈ lines → line ≠ [];
  bi_parents : ∀ (i : nat) rev ps p, lines !! i = Some (rev :: ps) → p ∈ ps →
    is_Some (db !! p);
  bi_keyed : ∀ r, r ∈ heads lines → ∃ key, __rev_key r = Ok key;
  bi_sdb : ∀ key, sdb !! key =
    match bucket_of key lines with [] => None | b => Some b end
}.

(** A snapshot built from a listing in which every parent has its line:
    the keys of [rev_dict] are the revisions of the lines, each with the
    ordinal and the parents of its line and with children that are keys,
    and [srev_dict] gives the bucket of every key of a revision. *)
Record built_from (rev_list : list (list string)) (rc : RevCache) : Prop :=
  BuiltFrom {
  bf_nodup : NoDup (heads rev_list);
  bf_keys : ∀ r, is_Some (rev_dict rc !! r) ↔ r ∈ heads rev_list;
  bf_line : ∀ (i : nat) rev ps, rev_list !! i = Some (rev :: ps) →
    ∃ c, rev_dict rc !! rev = Some c ∧
         c_ord c = Z.of_nat i + 1 ∧ c_parents c = ps;
  bf_entry : ∀ r c, rev_dict rc !! r = Some c →
    ∃ i : nat, rev_list !! i = Some (r :: c_parents c) ∧
               c_ord c = Z.of_nat i + 1;
  bf_children : ∀ r c x, rev_dict rc !! r = Some c → x ∈ c_children c →
    is_Some (rev_dict rc !! x);
  bf_parents : ∀ r c x, rev_dict rc !! r = Some c → x ∈ c_parents c →
    is_Some (rev_dict rc !! x);
  bf_size : size (rev_dict rc) = length rev_list;
  bf_nonempty : ∀ line, line ∈ rev_list → line ≠ [];
  bf_srev : ∀ r, r ∈ heads rev_list →
    ∃ key, __rev_key r = Ok key ∧
           srev_lookup (srev_dict rc) key = Ok (bucket_of key rev_list)
}.

(** ** A small repository

    Four commits in a line, [A] the oldest and [D] the youngest, the
    branch [master] at [D] (checked out), the branch [dev] at [C], a tag at
    [A].  [A] and [B] share their first four digits. *)
Module Ex.
Definition nl : string := String LF "".
Definition sha (c : string) : string :=
  c +:+ "00000000000000000000000000000000000".
Definition A : string := sha "a1b2c".
Definition B : string := sha "a1b2d".
Definition C : string := sha "c3c3c".
Definition D : string := sha "d4d4d".

Definition commit_A : string :=
  "tree " +:+ sha "eeeee" +:+ nl +:+ "author me" +:+ nl +:+ nl +:+
  "first" +:+ nl.

Definition git : repo := Repo
  (D +:+ " refs/heads/master" +:+ nl +:+ C +:+ " refs/heads/dev" +:+ nl +:+
   B +:+ " refs/tags/v1" +:+ nl +:+ A +:+ " refs/tags/v1^{}" +:+ nl)
  ("refs/heads/master" +:+ nl)
  (D +:+ " " +:+ C +:+ nl +:+ C +:+ " " +:+ B +:+ nl +:+
   B +:+ " " +:+ A +:+ nl +:+ A +:+ nl)
  ""
  (λ req, if bool_decide (req = A +:+ nl)
          then A +:+ " commit 63" +:+ nl +:+ commit_A +:+ nl
          else if bool_decide (req = B +:+ nl)
          then B +:+ " blob 3" +:+ nl +:+ "xyz" +:+ nl
          else strip req +:+ " missing" +:+ nl).

Definition refs : gmap string string :=
  {[ "refs/heads/master" := D; "refs/heads/dev" := C;
     "refs/tags/v1" := A; "HEAD" := "refs/heads/master" ]}.

Definition rc : RevCache :=
  match _build_rev_cache refs (rev_list_out git) with
  | Ok rc => rc
  | Raise _ => RevCache_empty
  end.

(** An interpreter that enumerates sets and dicts the way [gset] and
    [gmap] do, and a codec that leaves the bytes as they are *)
Definition items (V : Type) (m : gmap string V) : list (string * V) :=
  map_to_list m.
Definition decode (enc raw : string) : result string := Ok raw.

(** The codec [ascii] as [git_fs_encoding]: text of bytes below 128 is
    left as it is, other text is refused. *)
Definition encode (u : string) : result string :=
  if str_forallb (λ c, bool_decide (N_of_ascii c < 128)%N) u
  then Ok u else Raise UnicodeEncodeError.

(** The object after its first look at the repository, and a name
    that is no revision of it *)
Definition s1 : state := (Storage.rev_cache git (Storage.init None)).2.

(** Text with a letter outside ASCII (u umlaut, U+00FC) *)
Definition umlaut : string := String (ascii_of_N 252) "ber".

(** A [SizedDict] of capacity 2 after [d["k"] = 0] *)
Definition dk : SizedDict.t string Z := SizedDict.mk {[ "k" := 0 ]} ["k"] 2.

(** The object after it has read the commit [A] once *)
Definition s_read : state :=
  (Storage.read_commit decode git A (Storage.init None)).2.
End Ex.

(** A full revision identifier as git prints it: 40 hexadecimal digits *)
Definition is_full_sha (r : string) : bool :=
  bool_decide (String.length r = 40%nat) && str_forallb is_hex r.

(** ** The child graph *)

(** Every child named by an entry of [rev_dict] is a key of it. *)
Definition child_closed (db : gmap string commit) : Prop :=
  map_Forall (λ _ c, set_Forall (λ x, is_Some (db !! x)) (c_children c)) db.

Global Instance child_closed_dec db : Decision (child_closed db).
Proof. unfold child_closed. apply _. Defined.

(** [x] is reached from [r] along one or more child edges. *)
Inductive descendant (db : gmap string commit) (r : string) : string → Prop :=
  | desc_child c x :
      db !! r = Some c → x ∈ c_children c → descendant db r x
  | desc_step y c x :
      descendant db r y → db !! y = Some c → x ∈ c_children c →
      descendant db r x.

(** The [rev_dict] of a history [a], [b], [c], [d] in a line, [a] the
    oldest (ordinals count from the youngest). *)
Definition chain_db (a b c d : string) : gmap string commit :=
  {[ a := Commit {[b]} [] 4 ∅ true;
     b := Commit {[c]} [a] 3 ∅ true;
     c := Commit {[d]} [b] 2 ∅ true;
     d := Commit ∅ [c] 1 ∅ true ]}.

(** ** The order of branch listings *)

(** The checked-out branch, when the list has it, is the first item. *)
Definition head_branch_first (rc : RevCache) (l : list (string * string))
  : Prop :=
  ∀ name rev, refs_dict rc !! "HEAD" = Some ("refs/heads/" +:+ name) →
              (name, rev) ∈ l → head l = Some (name, rev).

Global Instance tuple_le_total : Total tuple_le.
Proof.
  intros [a1 a2] [b1 b2]. unfold tuple_le. simpl.
  destruct (decide (a1 = b1)) as [->|Hne].
  - destruct (total String.le a2 b2); [left|right]; right; done.
  - destruct (total String.le a1 b1); [left|right]; left; done.
Qed.

Global Instance tuple_le_trans : Transitive tuple_le.
Proof.
  intros [a1 a2] [b1 b2] [c1 c2]. unfold tuple_le. simpl.
  intros [[Hab Hle1]|[-> Hle1]] [[Hbc Hle2]|[-> Hle2]].
  - left. split; [|by etrans]. intros ->.
    apply Hab. by apply (anti_symm String.le).
  - left. done.
  - left. done.
  - right. split; [done|by etrans].
Qed.

(** ** The batch pipe and the store *)

(** What the child the object holds has printed and nobody has read *)
Definition pending (s : state) : string :=
  match s_cat_file_pipe s with
  | Some p => stdout_buf p
  | None => ""
  end.

(** The process the next request goes to: the child the object holds,
    or else the one that is started for the request *)
Definition next_child (s : state) : nat :=
  match s_cat_file_pipe s with
  | Some p => pid p
  | None => s_next_pid s
  end.

(** Process ids are handed out in ascending order. *)
Definition pipe_ok (s : state) : Prop :=
  match s_cat_file_pipe s with
  | Some p => (pid p < s_next_pid s)%nat
  | None => True
  end.

Global Instance pipe_ok_dec s : Decision (pipe_ok s).
Proof. unfold pipe_ok. destruct (s_cat_file_pipe s); apply _. Defined.

(** The address holds a list. *)
Definition is_list (h : store) (a : nat) : bool :=
  match h !! a with
  | Some (OList _) => true
  | _ => false
  end.

(** ** More on what the builder guarantees *)

(** The line of a parent comes after the lines of its children. *)
Definition parents_later (lines : list (list string)) : Prop :=
  ∀ (i j : nat) rev ps p ps',
    lines !! i = Some (rev :: ps) → p ∈ ps → lines !! j = Some (p :: ps') →
    (i < j)%nat.

(** The reachable heads of an entry, while the cache is built: the
    revision itself once its line has been read and if it is the head of a
    branch, and the reachable heads of its children. *)
Definition rheads_inv (hr : gset string) (db : gmap string commit) : Prop :=
  ∀ k c h, db !! k = Some c →
    h ∈ c_rheads c ↔
      (c_frozen c = true ∧ k ∈ hr ∧ h = k) ∨
      ∃ x cx, x ∈ c_children c ∧ db !! x = Some cx ∧ h ∈ c_rheads cx.

(** [hist_next_revision] and [hist_prev_revision], on the snapshot *)
Definition hist_next_revision
    (dict_items : ∀ V : Type, gmap string V → list (string * V))
    (db : gmap string commit) (sha : string) : result (option string) :=
  history_relative_rev dict_items db sha (-1).

Definition hist_prev_revision
    (dict_items : ∀ V : Type, gmap string V → list (string * V))
    (db : gmap string commit) (sha : string) : result (option string) :=
  history_relative_rev dict_items db sha 1.

(** ** A repository with long identifiers

    One commit whose name has 64 hexadecimal digits, as in a repository
    of the object format [sha256]. *)
Module Long.
Definition r : string :=
  "c3c3c00000000000000000000000000000000000000000000000000000000000".
Definition out : string := r +:+ String LF "".
Definition refs : gmap string string :=
  {[ "refs/heads/master" := r; "HEAD" := "refs/heads/master" ]}.
Definition rc : RevCache :=
  match _build_rev_cache refs out with
  | Ok rc => rc
  | Raise _ => RevCache_empty
  end.
End Long.

(** ** A repository with many revisions

    5001 commits without parents, whose names begin with the 5001
    different keys [0000] to [1388]: [srev_dict] becomes an array. *)
Module Big.
Definition hex_digit (n : Z) : ascii :=
  ascii_of_N (Z.to_N (if bool_decide (n < 10) then 48 + n else 87 + n)).
Definition hex4 (n : Z) : string :=
  String (hex_digit ((n / 4096) `mod` 16))
    (String (hex_digit ((n / 256) `mod` 16))
       (String (hex_digit ((n / 16) `mod` 16))
          (String (hex_digit (n `mod` 16)) ""))).
Definition rev (n : Z) : string :=
  hex4 n +:+ "000000000000000000000000000000000000".
Definition out : string :=
  foldr (λ n acc, rev n +:+ String LF acc) "" (seqZ 0 5001).
Definition refs : gmap string string :=
  {[ "refs/heads/master" := rev 0; "HEAD" := "refs/heads/master" ]}.
Definition built (r : result RevCache) : RevCache :=
  match r with
  | Ok rc => rc
  | Raise _ => RevCache_empty
  end.
Definition rc : RevCache := built (_build_rev_cache refs out).
Definition array (t : srev_table) : list (list string) :=
  match t with
  | SrevList a => a
  | SrevDict _ => []
  end.
Definition table : list (list string) := array (srev_dict rc).
End Big.

(** * Properties *)

(** ** The bounded FIFO dictionary *)

Section sized_dict_props.
Context {K V : Type} `{Countable K}.
Implicit Types (d : SizedDict.t K V) (m : gmap K V) (fifo : list K).

Notation tracks := SizedDict.tracks.

Lemma tracks_size fifo m : tracks fifo m → size m = length fifo.
Proof.
  intros [Hnd Hin].
  rewrite <-size_dom, <-(size_list_to_set (C:=gset K) fifo) by done.
  f_equal. apply set_eq. intros k.
  rewrite elem_of_dom, elem_of_list_to_set. symmetry. apply Hin.
Qed.

Lemma tracks_insert_present fifo m k v :
  tracks fifo m → is_Some (m !! k) → tracks fifo (<[k := v]> m).
Proof.
  intros [Hnd Hin] Hk. split; [done|]. intros k'.
  rewrite Hin, lookup_insert. case_decide; subst; naive_solver.
Qed.

Lemma tracks_insert_absent fifo m k v :
  tracks fifo m → m !! k = None → tracks (fifo ++ [k]) (<[k := v]> m).
Proof.
  intros [Hnd Hin] Hk. split.
  - apply NoDup_app. split_and!; [done| |apply NoDup_singleton].
    intros x Hx ->%list_elem_of_singleton.
    apply Hin in Hx. rewrite Hk in Hx. by destruct Hx.
  - intros k'. rewrite elem_of_app, list_elem_of_singleton, Hin, lookup_insert.
    case_decide; subst; [naive_solver|]. split; [intros [?|?]|]; naive_solver.
Qed.

Lemma tracks_pop k fifo m :
  tracks (k :: fifo) m → tracks fifo (delete k m).
Proof.
  intros [[Hk Hnd]%NoDup_cons Hin]. split; [done|]. intros k'.
  rewrite lookup_delete. case_decide; subst.
  - split; [done|]. intros []; done.
  - rewrite <-Hin, elem_of_cons. naive_solver.
Qed.

(** The loop evicts from the left until the deque fits. *)
Lemma evict_fits n fifo m :
  (Z.of_nat (length fifo) ≤ n) → SizedDict.evict n fifo m = (Ok tt, (fifo, m)).
Proof.
  intros Hn. destruct fifo; simpl in *;
    rewrite bool_decide_eq_false_2 by lia; done.
Qed.

Lemma evict_tracks n fifo m fifo' m' :
  tracks fifo m →
  SizedDict.evict n fifo m = (Ok tt, (fifo', m')) →
  tracks fifo' m' ∧ Z.of_nat (length fifo') ≤ n.
Proof.
  revert m. induction fifo as [|k fifo IH]; intros m Ht; simpl.
  - case_bool_decide; [done|]. intros [= <- <-]. split; [done|simpl; lia].
  - case_bool_decide as Hlen.
    + destruct (m !! k) eqn:Hk; [|done]. intros He.
      eapply IH; [|done]. by apply tracks_pop.
    + intros [= <- <-]. split; [done|simpl in *; lia].
Qed.

Lemma inv_tracks d : SizedDict.inv d → tracks (SizedDict.key_fifo d) (SizedDict.data d).
Proof. by intros [? ?]. Qed.

(** [__setitem__] keeps the invariant. *)
Lemma setitem_inv d k v d' :
  SizedDict.inv d → SizedDict.setitem k v d = (Ok tt, d') → SizedDict.inv d'.
Proof.
  intros Hinv. pose proof (inv_tracks _ Hinv) as Ht.
  unfold SizedDict.setitem. case_bool_decide; simpl; [|done].
  set (fifo1 := if SizedDict.contains d k then _ else _).
  assert (tracks fifo1 (<[k := v]> (SizedDict.data d))) as Ht1.
  { unfold fifo1, SizedDict.contains. case_bool_decide as Hk.
    - by apply tracks_insert_present.
    - apply tracks_insert_absent; [done|].
      by apply eq_None_not_Some. }
  destruct (SizedDict.evict _ _ _) as [[[]|e] [fifo2 m2]] eqn:He; [|done].
  case_bool_decide; simpl; [|done]. intros [= <-].
  apply evict_tracks in He as [Ht2 Hle]; [|done].
  split; simpl; done.
Qed.

Lemma reachable_inv d : SizedDict.reachable d → SizedDict.inv d.
Proof.
  induction 1 as [n|d k v d' _ IH Hset].
  - split; [split|]; simpl; [apply NoDup_nil_2| |done].
    intros k. rewrite lookup_empty, elem_of_nil. split; [done|].
    intros []; done.
  - by eapply setitem_inv.
Qed.

(** Setting a key that is there: the value changes, the deque does not. *)
Lemma setitem_present d k v :
  SizedDict.inv d → is_Some (SizedDict.data d !! k) →
  SizedDict.setitem k v d =
    (Ok tt, SizedDict.mk (<[k := v]> (SizedDict.data d))
                         (SizedDict.key_fifo d) (SizedDict.max_size d)).
Proof.
  intros Hinv Hk. pose proof (inv_tracks _ Hinv) as Ht.
  destruct Hinv as [[_ Hin] Hmax].
  unfold SizedDict.setitem, SizedDict.len.
  rewrite (tracks_size _ _ Ht), bool_decide_eq_true_2 by done. simpl.
  unfold SizedDict.contains. rewrite bool_decide_eq_true_2 by done.
  rewrite evict_fits.
  - simpl. unfold SizedDict.len. simpl.
    rewrite (tracks_size (SizedDict.key_fifo d)), bool_decide_eq_true_2;
      [done..|].
    by apply tracks_insert_present.
  - apply Hmax. apply Hin in Hk. intros Hnil. rewrite Hnil in Hk.
    by apply elem_of_nil in Hk.
Qed.

(** Setting a new key while there is room: it goes to the right end. *)
Lemma setitem_room d k v :
  SizedDict.inv d → SizedDict.data d !! k = None →
  Z.of_nat (length (SizedDict.key_fifo d)) < SizedDict.max_size d →
  SizedDict.setitem k v d =
    (Ok tt, SizedDict.mk (<[k := v]> (SizedDict.data d))
                         (SizedDict.key_fifo d ++ [k]) (SizedDict.max_size d)).
Proof.
  intros Hinv Hk Hlen. pose proof (inv_tracks _ Hinv) as Ht.
  unfold SizedDict.setitem, SizedDict.len.
  rewrite (tracks_size _ _ Ht), bool_decide_eq_true_2 by done. simpl.
  unfold SizedDict.contains.
  rewrite bool_decide_eq_false_2 by (rewrite Hk; by intros []).
  rewrite evict_fits by (rewrite length_app; simpl; lia).
  simpl. unfold SizedDict.len. simpl.
  rewrite (tracks_size (SizedDict.key_fifo d ++ [k])), bool_decide_eq_true_2;
    [done..|].
  by apply tracks_insert_absent.
Qed.

(** Setting a new key in a full dict: the oldest key leaves. *)
Lemma setitem_full d k v k0 rest :
  SizedDict.inv d → SizedDict.data d !! k = None →
  SizedDict.key_fifo d = k0 :: rest →
  Z.of_nat (length (SizedDict.key_fifo d)) = SizedDict.max_size d →
  SizedDict.setitem k v d =
    (Ok tt, SizedDict.mk (delete k0 (<[k := v]> (SizedDict.data d)))
                         (rest ++ [k]) (SizedDict.max_size d)).
Proof.
  intros Hinv Hk Hfifo Hlen. pose proof (inv_tracks _ Hinv) as Ht.
  assert (tracks ((k0 :: rest) ++ [k]) (<[k := v]> (SizedDict.data d))) as Ht1.
  { rewrite <-Hfifo. by apply tracks_insert_absent. }
  unfold SizedDict.setitem, SizedDict.len.
  rewrite (tracks_size _ _ Ht), bool_decide_eq_true_2 by done. simpl.
  unfold SizedDict.contains.
  rewrite bool_decide_eq_false_2 by (rewrite Hk; by intros []).
  rewrite Hfifo in *. simpl in *.
  rewrite bool_decide_eq_true_2 by (rewrite length_app; simpl; lia).
  destruct Ht1 as [Hnd1 Hin1].
  destruct (Hin1 k0) as [[x ->] _]; [left|].
  rewrite evict_fits by (rewrite length_app; simpl; lia).
  simpl. unfold SizedDict.len. simpl.
  rewrite (tracks_size (rest ++ [k])), bool_decide_eq_true_2; [done..|].
  by apply (tracks_pop k0).
Qed.

(** C8. In a [SizedDict] of capacity 2, setting [a], [b], [c] in that
    order leaves exactly the keys [b] and [c], and setting [b] again
    keeps [c]; in every state the dictionary can be in, setting a key
    that is present changes its value and leaves the deque of keys (the
    FIFO order) as it was. *)
Theorem sized_dict_fifo (a b c : K) (va vb vc vb' : V)
    (d : SizedDict.t K V) (k : K) (v : V) :
  a ≠ b → a ≠ c → b ≠ c →
  SizedDict.reachable d → is_Some (SizedDict.data d !! k) →
  (∃ d1 d2 d3 d4,
     SizedDict.setitem a va (SizedDict.init 2) = (Ok tt, d1) ∧
     SizedDict.setitem b vb d1 = (Ok tt, d2) ∧
     SizedDict.setitem c vc d2 = (Ok tt, d3) ∧
     dom (SizedDict.data d3) = {[b; c]} ∧
     SizedDict.key_fifo d3 = [b; c] ∧
     SizedDict.setitem b vb' d3 = (Ok tt, d4) ∧
     dom (SizedDict.data d4) = {[b; c]} ∧
     SizedDict.data d4 !! c = Some vc ∧
     SizedDict.data d4 !! b = Some vb' ∧
     SizedDict.key_fifo d4 = [b; c]) ∧
  (∃ d', SizedDict.setitem k v d = (Ok tt, d') ∧
         SizedDict.key_fifo d' = SizedDict.key_fifo d ∧
         SizedDict.data d' = <[k := v]> (SizedDict.data d) ∧
         SizedDict.max_size d' = SizedDict.max_size d).
Proof.
  intros Hab Hac Hbc Hreach Hk. split.
  - set (d0 := SizedDict.init (K:=K) (V:=V) 2).
    assert (SizedDict.inv d0) as I0
      by (apply reachable_inv; constructor).
    pose proof (setitem_room d0 a va I0 (lookup_empty a)) as S1.
    specialize (S1 ltac:(simpl; lia)). simpl in S1.
    pose proof (setitem_inv _ _ _ _ I0 S1) as I1.
    pose proof (setitem_room _ b vb I1) as S2. simpl in S2.
    rewrite lookup_insert_ne, lookup_empty in S2 by done.
    specialize (S2 eq_refl ltac:(lia)).
    pose proof (setitem_inv _ _ _ _ I1 S2) as I2.
    pose proof (setitem_full _ c vc a [b] I2) as S3. simpl in S3.
    rewrite !lookup_insert_ne, lookup_empty in S3 by done.
    specialize (S3 eq_refl eq_refl eq_refl).
    pose proof (setitem_inv _ _ _ _ I2 S3) as I3.
    pose proof (setitem_present _ b vb' I3) as S4. simpl in S4.
    rewrite lookup_delete_ne, lookup_insert_ne, lookup_insert_eq in S4
      by done.
    specialize (S4 (mk_is_Some _ _ eq_refl)).
    do 4 eexists. split_and!; [exact S1|exact S2|exact S3| |done|exact S4|..];
      simpl.
    + rewrite dom_delete_L, !dom_insert_L, dom_empty_L. set_solver.
    + rewrite !dom_insert_L, dom_delete_L, !dom_insert_L, dom_empty_L.
      set_solver.
    + rewrite lookup_insert_ne, lookup_delete_ne, lookup_insert_eq; done.
    + by rewrite lookup_insert_eq.
    + done.
  - eexists. split; [apply setitem_present; [by apply reachable_inv|done]|].
    done.
Qed.
End sized_dict_props.

Lemma sized_dict_fifo_witness :
  (∃ d1 d2 d3 d4 : SizedDict.t string Z,
     SizedDict.setitem "a" 1 (SizedDict.init 2) = (Ok tt, d1) ∧
     SizedDict.setitem "b" 2 d1 = (Ok tt, d2) ∧
     SizedDict.setitem "c" 3 d2 = (Ok tt, d3) ∧
     dom (SizedDict.data d3) = {["b"; "c"]} ∧
     SizedDict.key_fifo d3 = ["b"; "c"] ∧
     SizedDict.setitem "b" 4 d3 = (Ok tt, d4) ∧
     dom (SizedDict.data d4) = {["b"; "c"]} ∧
     SizedDict.data d4 !! "c" = Some 3 ∧
     SizedDict.data d4 !! "b" = Some 4 ∧
     SizedDict.key_fifo d4 = ["b"; "c"]) ∧
  (∃ d', SizedDict.setitem "k" 7 Ex.dk = (Ok tt, d') ∧
         SizedDict.key_fifo d' = SizedDict.key_fifo Ex.dk ∧
         SizedDict.data d' = <["k" := 7]> (SizedDict.data Ex.dk) ∧
         SizedDict.max_size d' = SizedDict.max_size Ex.dk).
Proof.
  apply (sized_dict_fifo "a" "b" "c" 1 2 3 4 Ex.dk "k" 7).
  - discriminate.
  - discriminate.
  - discriminate.
  - apply (SizedDict.reach_set (SizedDict.init 2) "k" 0);
      [apply SizedDict.reach_init|vm_compute; reflexivity].
  - apply (bool_decide_unpack _); vm_compute; exact I.
Defined.


(** ** The builder of the revision cache *)

Section builder_props.
Implicit Types (db : gmap string commit) (sdb : gmap Z (list string)).
Implicit Types (lines : list (list string)) (ps : list string).

Lemma heads_app lines1 lines2 :
  heads (lines1 ++ lines2) = heads lines1 ++ heads lines2.
Proof. apply omap_app. Qed.

Lemma elem_of_heads lines r :
  r ∈ heads lines ↔ ∃ (i : nat) ps, lines !! i = Some (r :: ps).
Proof.
  unfold heads. rewrite list_elem_of_omap. split.
  - intros ([|r' ps] & Hin & Hhd); simplify_eq/=.
    apply list_elem_of_lookup in Hin as [i Hi]. eauto.
  - intros (i & ps & Hi). exists (r :: ps). split; [|done].
    apply list_elem_of_lookup. eauto.
Qed.

Lemma length_heads lines :
  (∀ line, line ∈ lines → line ≠ []) → length (heads lines) = length lines.
Proof.
  induction lines as [|[|r ps] lines IH]; intros Hne; simpl; [done| |].
  - exfalso. by apply (Hne []); [left|].
  - f_equal. apply IH. intros line Hl. apply Hne. by right.
Qed.

(** The loop over the parents of a line *)
Lemma add_children_spec rev rheads db ps db' :
  add_children rev rheads db ps = Ok db' →
  (∀ k, k ∉ ps → db' !! k = db !! k) ∧
  (∀ k, k ∈ ps →
     let c0 := default provisional (db !! k) in
     c_frozen c0 = false ∧
     db' !! k = Some (Commit ({[rev]} ∪ c_children c0) (c_parents c0)
                             (c_ord c0) (c_rheads c0 ∪ rheads) false)).
Proof.
  revert db. induction ps as [|p ps IH]; intros db; simpl.
  - intros [= <-]. split; [done|]. intros k Hk. by apply elem_of_nil in Hk.
  - unfold add_child.
    destruct (c_frozen (default provisional (db !! p))) eqn:Hfr; [done|].
    simpl. intros [IH1 IH2]%IH. split.
    + intros k [Hkp Hk]%not_elem_of_cons.
      by rewrite IH1, lookup_insert_ne.
    + intros k Hk. destruct (decide (k ∈ ps)) as [Hin|Hnin].
      * destruct (IH2 k Hin) as [Hf ->]. revert Hf.
        rewrite lookup_insert. case_decide as Hkp; simpl.
        -- subst k. intros _. split; [done|]. do 2 f_equal; set_solver.
        -- done.
      * apply elem_of_cons in Hk as [->|]; [|done].
        split; [done|]. by rewrite IH1, lookup_insert_eq.
Qed.

Lemma bucket_of_snoc key lines rev ps :
  bucket_of key (lines ++ [rev :: ps]) =
  bucket_of key lines ++ (if decide (__rev_key rev = Ok key) then [rev] else []).
Proof.
  unfold bucket_of. by rewrite heads_app, filter_app.
Qed.

(** A round of the loop, once the entry of the revision of the line has
    been read. *)
Lemma build_step_core lines db sdb rev ps key ch rh db' :
  build_inv lines db sdb →
  __rev_key rev = Ok key →
  rev ∉ heads lines →
  (∀ x, x ∈ ch → ∃ (i : nat) ps', lines !! i = Some (x :: ps') ∧ rev ∈ ps') →
  add_children rev rh
    (<[rev := Commit ch ps (Z.of_nat (length lines) + 1) rh true]> db) ps
    = Ok db' →
  build_inv (lines ++ [rev :: ps]) db'
            (<[key := default [] (sdb !! key) ++ [rev]]> sdb).
Proof.
  intros [Hfin Hfro Hpen Hchi Hnd Hne Hpar Hkeyed Hsdb] Hkey Hrev Hch
         [Hout Hin]%add_children_spec.
  set (db1 := <[rev := _]> db) in *.
  assert (∀ p, p ∈ ps → p ≠ rev ∧ p ∉ heads lines) as Hps.
  { intros p Hp. destruct (Hin p Hp) as [Hf _]. split.
    - intros ->. unfold db1 in Hf. by rewrite lookup_insert_eq in Hf.
    - intros (i & ps' & Hi)%elem_of_heads.
      destruct (Hfin _ _ _ Hi) as (c & Hc & Hcf & _).
      destruct (decide (p = rev)) as [->|Hne'].
      + unfold db1 in Hf. by rewrite lookup_insert_eq in Hf.
      + unfold db1 in Hf. rewrite lookup_insert_ne, Hc in Hf by done.
        simpl in Hf. congruence. }
  assert (rev ∉ ps) as Hrevps by (intros Hp; by destruct (Hps _ Hp)).
  split.
  - (* bi_final *)
    intros i r ps' [[Hlt Hi]|[-> [= -> ->]]]%lookup_snoc_Some.
    + destruct (Hfin _ _ _ Hi) as (c & Hc & Hcf & Ho & Hp).
      assert (r ∈ heads lines) as Hr by (apply elem_of_heads; eauto).
      exists c. split_and!; [|done..].
      rewrite Hout; [unfold db1; rewrite lookup_insert_ne; [done|]|].
      * intros <-. done.
      * intros Hp'. by destruct (Hps _ Hp').
    + eexists. split_and!; [rewrite Hout by done; apply lookup_insert_eq|..];
        done.
  - (* bi_frozen *)
    intros k c Hk Hcf. destruct (decide (k ∈ ps)) as [Hkp|Hkp].
    { destruct (Hin k Hkp) as [_ Hk']. rewrite Hk in Hk'.
      simplify_eq/=. }
    rewrite Hout in Hk by done. unfold db1 in Hk.
    rewrite lookup_insert in Hk. case_decide; simplify_eq/=.
    + exists (length lines). split; [|done].
      apply lookup_snoc_Some. by right.
    + destruct (Hfro _ _ Hk Hcf) as (i & Hi & Ho). exists i. split; [|done].
      apply lookup_snoc_Some. left. split; [|done].
      by eapply lookup_lt_Some.
  - (* bi_pending *)
    intros k c Hk Hcf. destruct (decide (k ∈ ps)) as [Hkp|Hkp].
    + destruct (Hin k Hkp) as [Hf Hk']. rewrite Hk in Hk'.
      destruct (Hps _ Hkp) as [Hkrev _].
      unfold db1 in Hk', Hf. rewrite lookup_insert_ne in Hk', Hf by done.
      simplify_eq/=. destruct (db !! k) as [c0|] eqn:Hc0; simpl in *.
      * destruct (Hpen _ _ Hc0 Hf) as (-> & -> & _).
        split_and!; [done..|set_solver].
      * split_and!; [done..|set_solver].
    + rewrite Hout in Hk by done. unfold db1 in Hk.
      rewrite lookup_insert in Hk. case_decide; simplify_eq/=. eauto.
  - (* bi_children *)
    intros k c x Hk Hx.
    assert (∀ (i : nat) ps', lines !! i = Some (x :: ps') →
              (lines ++ [rev :: ps]) !! i = Some (x :: ps')) as Hlift.
    { intros i ps' Hi. apply lookup_snoc_Some. left. split; [|done].
      by eapply lookup_lt_Some. }
    destruct (decide (k ∈ ps)) as [Hkp|Hkp].
    + destruct (Hin k Hkp) as [Hf Hk']. rewrite Hk in Hk'.
      destruct (Hps _ Hkp) as [Hkrev _].
      unfold db1 in Hk', Hf. rewrite lookup_insert_ne in Hk', Hf by done.
      simplify_eq/=. apply elem_of_union in Hx as [->%elem_of_singleton|Hx].
      * exists (length lines), ps. split; [|done].
        apply lookup_snoc_Some. by right.
      * destruct (db !! k) as [c0|] eqn:Hc0; simpl in *; [|set_solver].
        destruct (Hchi _ _ _ Hc0 Hx) as (i & ps' & Hi & Hkin). eauto.
    + rewrite Hout in Hk by done. unfold db1 in Hk.
      rewrite lookup_insert in Hk. case_decide; simplify_eq/=.
      * destruct (Hch _ Hx) as (i & ps' & Hi & Hkin). eauto.
      * destruct (Hchi _ _ _ Hk Hx) as (i & ps' & Hi & Hkin). eauto.
  - (* bi_nodup *)
    rewrite heads_app. simpl. apply NoDup_app. split_and!; [done| |].
    + intros x Hx Hx'%list_elem_of_singleton. by subst.
    + apply NoDup_singleton.
  - (* bi_nonempty *)
    intros line [Hl|Hl%list_elem_of_singleton]%elem_of_app;
      [by apply Hne|by subst].
  - (* bi_parents *)
    assert (∀ p, is_Some (db !! p) → is_Some (db' !! p)) as Hmono.
    { intros p Hp. destruct (decide (p ∈ ps)) as [Hpp|Hpp].
      - destruct (Hin p Hpp) as [_ ->]. done.
      - rewrite Hout by done. unfold db1. rewrite lookup_insert.
        by case_decide. }
    intros i r ps' p [[Hlt Hi]|[-> [= -> ->]]]%lookup_snoc_Some Hp.
    + apply Hmono. eauto.
    + destruct (Hin p Hp) as [_ ->]. done.
  - (* bi_keyed *)
    intros r. rewrite heads_app. simpl.
    intros [Hr|Hr%list_elem_of_singleton]%elem_of_app; subst; eauto.
  - (* bi_sdb *)
    intros key'. rewrite bucket_of_snoc, lookup_insert.
    case_decide as Hkk.
    + subst key'. rewrite decide_True by done. rewrite Hsdb.
      destruct (bucket_of key lines); simpl; done.
    + rewrite decide_False by congruence. rewrite app_nil_r. apply Hsdb.
Qed.

Lemma build_step_inv hr lines db sdb revs db' sdb' :
  build_inv lines db sdb →
  build_step hr (db, sdb) (length lines) revs = Ok (db', sdb') →
  build_inv (lines ++ [revs]) db' sdb'.
Proof.
  intros Hinv. unfold build_step. destruct revs as [|rev ps]; [done|].
  destruct (__rev_key rev) as [key|] eqn:Hkey; simpl; [|done].
  destruct (db !! rev) as [c|] eqn:Hc; simpl.
  - unfold assert. case_bool_decide as Hch; simpl; [done|].
    case_bool_decide as Hps; simpl; [|done].
    case_bool_decide as Hord; simpl; [|done].
    assert (c_frozen c = false) as Hfr.
    { destruct (c_frozen c) eqn:Hfr; [|done].
      destruct (bi_frozen _ _ _ Hinv _ _ Hc Hfr) as (i & _ & Ho). lia. }
    assert (rev ∉ heads lines) as Hrev.
    { intros (i & ps' & Hi)%elem_of_heads.
      destruct (bi_final _ _ _ Hinv _ _ _ Hi) as (c' & Hc' & Hf' & _).
      congruence. }
    rewrite Hfr.
    destruct (bool_decide (rev ∈ hr)); simpl;
      (destruct (add_children _ _ _ _) as [db''|] eqn:Hadd; simpl; [|done]);
      intros [= <- <-];
      (eapply build_step_core; [done..| |done]);
      intros x Hx; by eapply (bi_children _ _ _ Hinv).
  - assert (rev ∉ heads lines) as Hrev.
    { intros (i & ps' & Hi)%elem_of_heads.
      destruct (bi_final _ _ _ Hinv _ _ _ Hi) as (c' & Hc' & _).
      congruence. }
    destruct (bool_decide (rev ∈ hr)); simpl;
      (destruct (add_children _ _ _ _) as [db''|] eqn:Hadd; simpl; [|done]);
      intros [= <- <-];
      (eapply build_step_core; [done..| |done]);
      intros x Hx; set_solver.
Qed.

Lemma build_loop_inv hr rest lines db sdb db' sdb' :
  build_inv lines db sdb →
  build_loop hr (length lines) rest (db, sdb) = Ok (db', sdb') →
  build_inv (lines ++ rest) db' sdb'.
Proof.
  revert lines db sdb. induction rest as [|revs rest IH];
    intros lines db sdb Hinv; cbn [build_loop].
  - intros [= <- <-]. by rewrite app_nil_r.
  - destruct (build_step _ _ _ _) as [[db1 sdb1]|] eqn:Hstep;
      cbn [rbind]; [|done].
    intros Hloop. rewrite cons_middle, app_assoc. eapply IH.
    + by eapply build_step_inv.
    + by rewrite length_app, Nat.add_1_r.
Qed.

Lemma build_inv_nil : build_inv [] ∅ ∅.
Proof.
  split; try done.
  - apply NoDup_nil_2.
  - intros line Hl. by apply elem_of_nil in Hl.
  - intros r Hr. by apply elem_of_nil in Hr.
Qed.

(** Without a line that waits for its revision every entry is final. *)
Lemma build_inv_final lines db sdb k c :
  build_inv lines db sdb → parents_listed lines →
  db !! k = Some c → c_frozen c = true.
Proof.
  intros Hinv Hwf Hk. destruct (c_frozen c) eqn:Hfr; [done|]. exfalso.
  destruct (bi_pending _ _ _ Hinv _ _ Hk Hfr) as (_ & _ & Hne).
  apply set_choose_L in Hne as [x Hx].
  destruct (bi_children _ _ _ Hinv _ _ _ Hk Hx) as (i & ps & Hi & Hkin).
  assert (k ∈ heads lines) as (j & ps' & Hj)%elem_of_heads.
  { unfold parents_listed in Hwf. rewrite Forall_forall in Hwf.
    specialize (Hwf (x :: ps)). rewrite Forall_forall in Hwf.
    apply Hwf; [|done]. apply list_elem_of_lookup. eauto. }
  destruct (bi_final _ _ _ Hinv _ _ _ Hj) as (c' & Hc' & Hf' & _).
  congruence.
Qed.

Lemma rev_key_range r key : __rev_key r = Ok key → 0 ≤ key ≤ 65535.
Proof.
  unfold __rev_key, assert. case_bool_decide; simpl; [|done].
  destruct (int16 _); simpl; [|done].
  case_bool_decide; simpl; [|done]. by intros [= <-].
Qed.

Lemma max_key_ge sdb key : is_Some (sdb !! key) → key ≤ max_key sdb.
Proof.
  intros [b Hb]. unfold max_key.
  assert (key ∈ (map_to_list sdb).*1) as Hin.
  { apply list_elem_of_fmap. exists (key, b).
    split; [done|]. by apply elem_of_map_to_list. }
  induction (map_to_list sdb).*1 as [|x l IH]; simpl.
  - by apply elem_of_nil in Hin.
  - apply elem_of_cons in Hin as [->|Hin]; [lia|]. specialize (IH Hin). lia.
Qed.

(** The array and the dict give the same bucket. *)
Lemma freeze_sdb_lookup sdb key b :
  sdb !! key = Some b → 0 ≤ key →
  srev_lookup (freeze_sdb sdb) key = Ok b.
Proof.
  intros Hb Hkey. unfold freeze_sdb. case_bool_decide; simpl.
  - rewrite list_lookup_fmap, lookup_seqZ_lt.
    + simpl. rewrite Z.add_0_l, Z2Nat.id, Hb by done. done.
    + pose proof (max_key_ge sdb key (mk_is_Some _ _ Hb)). lia.
  - by rewrite Hb.
Qed.

Lemma RevCache_init_Ok y o rd refs sd rc :
  RevCache_init y o rd refs sd = Ok rc → rc = mkRevCache y o rd refs sd.
Proof.
  unfold RevCache_init. repeat (case_match; try done); by intros [= <-].
Qed.

Lemma build_loop_of refs out rc :
  _build_rev_cache refs out = Ok rc →
  ∃ sdb, build_inv (parse_rev_list out) (rev_dict rc) sdb ∧
         srev_dict rc = freeze_sdb sdb ∧ refs_dict rc = refs.
Proof.
  unfold _build_rev_cache.
  destruct (match parse_rev_list out with [] => _ | _ => _ end)
    as [[y o]|]; simpl; [|done].
  destruct (build_loop _ _ _ _) as [[db sdb]|] eqn:Hloop; simpl; [|done].
  intros ->%RevCache_init_Ok. simpl. exists sdb. split; [|done].
  apply (build_loop_inv _ _ [] ∅ ∅) in Hloop; [done|]. apply build_inv_nil.
Qed.

(** What [_build_rev_cache] returns for a listing in which every parent
    has its line. *)
Lemma build_sound refs out rc :
  parents_listed (parse_rev_list out) →
  _build_rev_cache refs out = Ok rc →
  built_from (parse_rev_list out) rc.
Proof.
  intros Hwf (sdb & Hinv & Hsrev & _)%build_loop_of.
  set (lines := parse_rev_list out) in *.
  assert (∀ r, is_Some (rev_dict rc !! r) ↔ r ∈ heads lines) as Hkeys.
  { intros r. split.
    - intros [c Hc].
      pose proof (build_inv_final _ _ _ _ _ Hinv Hwf Hc) as Hfr.
      destruct (bi_frozen _ _ _ Hinv _ _ Hc Hfr) as (i & Hi & _).
      apply elem_of_heads. eauto.
    - intros (i & ps & Hi)%elem_of_heads.
      destruct (bi_final _ _ _ Hinv _ _ _ Hi) as (c & Hc & _). eauto. }
  split.
  - apply (bi_nodup _ _ _ Hinv).
  - done.
  - intros i rev ps Hi.
    destruct (bi_final _ _ _ Hinv _ _ _ Hi) as (c & Hc & _ & Ho & Hp). eauto.
  - intros r c Hc. eapply (bi_frozen _ _ _ Hinv); [done|].
    by eapply build_inv_final.
  - intros r c x Hc Hx.
    destruct (bi_children _ _ _ Hinv _ _ _ Hc Hx) as (i & ps & Hi & _).
    apply Hkeys, elem_of_heads. eauto.
  - intros r c x Hc Hx.
    pose proof (build_inv_final _ _ _ _ _ Hinv Hwf Hc) as Hfr.
    destruct (bi_frozen _ _ _ Hinv _ _ Hc Hfr) as (i & Hi & _).
    by eapply (bi_parents _ _ _ Hinv).
  - rewrite <-(length_heads lines) by apply (bi_nonempty _ _ _ Hinv).
    rewrite <-size_dom,
      <-(size_list_to_set (C:=gset string) (heads lines))
      by apply (bi_nodup _ _ _ Hinv).
    f_equal. apply set_eq. intros r.
    by rewrite elem_of_dom, elem_of_list_to_set.
  - apply (bi_nonempty _ _ _ Hinv).
  - intros r Hr. destruct (bi_keyed _ _ _ Hinv r Hr) as [key Hkey].
    exists key. split; [done|]. rewrite Hsrev.
    apply freeze_sdb_lookup; [|by eapply rev_key_range].
    rewrite (bi_sdb _ _ _ Hinv).
    destruct (bucket_of key lines) as [|x b] eqn:Hb; [|done].
    exfalso. eapply (filter_nil_not_elem_of _ _ r); [exact Hb| |done]. done.
Qed.

(** The ordinals of a snapshot number its revisions from 1 to their
    count, each number once. *)
Lemma built_ord_range rev_list rc r c :
  built_from rev_list rc → rev_dict rc !! r = Some c →
  1 ≤ c_ord c ≤ Z.of_nat (size (rev_dict rc)).
Proof.
  intros Hb Hc. destruct (bf_entry _ _ Hb _ _ Hc) as (i & Hi & ->).
  apply lookup_lt_Some in Hi. rewrite (bf_size _ _ Hb). lia.
Qed.

Lemma built_ord_inj rev_list rc r1 c1 r2 c2 :
  built_from rev_list rc →
  rev_dict rc !! r1 = Some c1 → rev_dict rc !! r2 = Some c2 →
  c_ord c1 = c_ord c2 → r1 = r2.
Proof.
  intros Hb H1 H2 Ho.
  destruct (bf_entry _ _ Hb _ _ H1) as (i & Hi & Hoi).
  destruct (bf_entry _ _ Hb _ _ H2) as (j & Hj & Hoj).
  assert (i = j) as -> by lia. congruence.
Qed.

Lemma built_ord_surj rev_list rc n :
  built_from rev_list rc → 1 ≤ n ≤ Z.of_nat (size (rev_dict rc)) →
  ∃ r c, rev_dict rc !! r = Some c ∧ c_ord c = n.
Proof.
  intros Hb Hn. rewrite (bf_size _ _ Hb) in Hn.
  destruct (lookup_lt_is_Some_2 rev_list (Z.to_nat (n - 1))) as [line Hl];
    [lia|].
  destruct line as [|r ps].
  { exfalso. eapply (bf_nonempty _ _ Hb []); [|done].
    apply list_elem_of_lookup. eauto. }
  destruct (bf_line _ _ Hb _ _ _ Hl) as (c & Hc & Ho & _).
  exists r, c. split; [done|]. lia.
Qed.

(** C1. For a reference map and an ancestry listing in which every
    revision named as a parent has a line of its own, the snapshot
    [_build_rev_cache] returns has as keys of [rev_dict] all parents and
    all children of its entries; [rev_dict] has one entry per line of
    the listing; the revision of line [i] (counted from 0) has ordinal
    [i + 1], so the first line gets 1; and the ordinals are the numbers
    from 1 to the number of entries, each on exactly one entry. *)
Theorem build_rev_cache_graph_ordinals refs out rc :
  parents_listed (parse_rev_list out) →
  _build_rev_cache refs out = Ok rc →
  (∀ r c x, rev_dict rc !! r = Some c →
     x ∈ c_parents c ∨ x ∈ c_children c → is_Some (rev_dict rc !! x)) ∧
  size (rev_dict rc) = length (parse_rev_list out) ∧
  (∀ (i : nat) rev ps, parse_rev_list out !! i = Some (rev :: ps) →
     ∃ c, rev_dict rc !! rev = Some c ∧ c_ord c = Z.of_nat i + 1) ∧
  (∀ r c, rev_dict rc !! r = Some c →
     1 ≤ c_ord c ≤ Z.of_nat (size (rev_dict rc))) ∧
  (∀ r1 c1 r2 c2, rev_dict rc !! r1 = Some c1 → rev_dict rc !! r2 = Some c2 →
     c_ord c1 = c_ord c2 → r1 = r2) ∧
  (∀ n, 1 ≤ n ≤ Z.of_nat (size (rev_dict rc)) →
     ∃ r c, rev_dict rc !! r = Some c ∧ c_ord c = n).
Proof.
  intros Hwf Hbuild. pose proof (build_sound _ _ _ Hwf Hbuild) as Hb.
  split_and!.
  - intros r c x Hc [Hx|Hx].
    + by eapply (bf_parents _ _ Hb).
    + by eapply (bf_children _ _ Hb).
  - apply (bf_size _ _ Hb).
  - intros i rev ps Hi.
    destruct (bf_line _ _ Hb _ _ _ Hi) as (c & Hc & Ho & _). eauto.
  - intros r c. by eapply built_ord_range.
  - intros r1 c1 r2 c2. by eapply built_ord_inj.
  - intros n. by eapply built_ord_surj.
Qed.
End builder_props.

Lemma build_rev_cache_graph_ordinals_witness :
  _build_rev_cache Ex.refs (rev_list_out Ex.git) = Ok Ex.rc ∧
  size (rev_dict Ex.rc) = 4%nat ∧
  ∃ c, rev_dict Ex.rc !! Ex.D = Some c ∧ c_ord c = 1.
Proof.
  assert (_build_rev_cache Ex.refs (rev_list_out Ex.git) = Ok Ex.rc) as Hb
    by (vm_compute; reflexivity).
  split; [exact Hb|].
  destruct (build_rev_cache_graph_ordinals Ex.refs (rev_list_out Ex.git) Ex.rc)
    as (_ & Hsize & Hline & _);
    [apply (bool_decide_unpack _); vm_compute; exact I|exact Hb|].
  split; [exact Hsize|].
  apply (Hline 0%nat Ex.D [Ex.C]). reflexivity.
Defined.

(** ** Queries on a snapshot *)

Section history_props.
Variable dict_items : ∀ V : Type, gmap string V → list (string * V).
Hypothesis dict_items_perm :
  ∀ V (m : gmap string V), dict_items V m ≡ₚ map_to_list m.

Lemma elem_of_dict_items {V} (m : gmap string V) k v :
  (k, v) ∈ dict_items V m ↔ m !! k = Some v.
Proof using dict_items_perm.
  by rewrite dict_items_perm, elem_of_map_to_list.
Qed.

(** A step that stays within the ordinals leads to the revision with
    the target ordinal. *)
Lemma history_relative_rev_in_range rev_list rc r c off :
  built_from rev_list rc → rev_dict rc !! r = Some c → off ≠ 0 →
  1 ≤ c_ord c + off ≤ Z.of_nat (size (rev_dict rc)) →
  ∃ r' c', history_relative_rev dict_items (rev_dict rc) r off = Ok (Some r') ∧
           rev_dict rc !! r' = Some c' ∧ c_ord c' = c_ord c + off.
Proof using dict_items_perm.
  intros Hb Hc Hoff Hrange. unfold history_relative_rev. rewrite Hc.
  rewrite bool_decide_eq_false_2 by done.
  rewrite bool_decide_eq_false_2 by lia.
  destruct (built_ord_surj _ _ _ Hb Hrange) as (r1 & c1 & Hc1 & Ho1).
  destruct (list_find_elem_of (λ kv : string * commit, c_ord kv.2 = c_ord c + off)
              (dict_items _ (rev_dict rc)) (r1, c1)) as [[i [k v]] Hfind].
  { by apply elem_of_dict_items. }
  { done. }
  rewrite Hfind. apply list_find_Some in Hfind as (Hi & Hv & _).
  exists k, v. split_and!; [done| |done].
  apply elem_of_dict_items, list_elem_of_lookup. eauto.
Qed.

End history_props.


(** ** Short and full revision identifiers *)

Section shortrev_props.
Implicit Types (s r p : string) (n m : nat).

Lemma length_str_take n s :
  String.length (str_take n s) = (n `min` String.length s)%nat.
Proof.
  revert s. induction n as [|n IH]; intros [|c s]; simpl; [done..|].
  by rewrite IH.
Qed.

Lemma str_take_all n s : (String.length s ≤ n)%nat → str_take n s = s.
Proof.
  revert s. induction n as [|n IH]; intros [|c s]; simpl; try done; [lia|].
  intros Hn. rewrite IH; [done|lia].
Qed.

Lemma str_take_take n m s :
  (n ≤ m)%nat → str_take n (str_take m s) = str_take n s.
Proof.
  revert m s. induction n as [|n IH]; intros [|m] [|c s] Hnm; simpl;
    try done; [lia|].
  rewrite IH; [done|lia].
Qed.

Lemma startswith_take n s : startswith s (str_take n s) = true.
Proof.
  revert s. induction n as [|n IH]; intros [|c s]; simpl; [done..|].
  by rewrite bool_decide_eq_true_2, IH.
Qed.

Lemma startswith_spec s p :
  startswith s p = true ↔ str_take (String.length p) s = p.
Proof.
  revert s. induction p as [|a p IH]; intros [|b s]; simpl; try done.
  rewrite andb_true_iff, bool_decide_eq_true, IH. split.
  - by intros [-> ->].
  - by intros [= -> ->].
Qed.

Lemma str_forallb_take f n s :
  str_forallb f s = true → str_forallb f (str_take n s) = true.
Proof.
  unfold str_forallb. revert s.
  induction n as [|n IH]; intros [|c s]; simpl; try done.
  rewrite !andb_true_iff. intros [-> ?]. auto.
Qed.

(** A prefix of at least four digits has the key of the revision. *)
Lemma rev_key_take n r :
  (4 ≤ n)%nat → (4 ≤ String.length r)%nat →
  __rev_key (str_take n r) = __rev_key r.
Proof.
  intros Hn Hr. unfold __rev_key.
  rewrite length_str_take, str_take_take by done.
  rewrite !bool_decide_eq_true_2 by lia. done.
Qed.

Lemma is_sha_take n r :
  (4 ≤ n)%nat → is_full_sha r = true → is_sha (str_take n r) = true.
Proof.
  unfold is_full_sha, is_sha. rewrite andb_true_iff, bool_decide_eq_true.
  intros Hn [Hlen Hhex]. rewrite length_str_take, Hlen.
  rewrite bool_decide_eq_true_2 by lia.
  by rewrite str_forallb_take.
Qed.

Lemma NoDup_all_eq {A} (l : list A) x :
  NoDup l → x ∈ l → (∀ y, y ∈ l → y = x) → l = [x].
Proof.
  intros Hnd Hx Hall. destruct l as [|y l]; [by apply elem_of_nil in Hx|].
  assert (y = x) as -> by (apply Hall; left).
  apply NoDup_cons in Hnd as [Hnin _]. destruct l as [|z l]; [done|].
  exfalso. apply Hnin. assert (z = x) as -> by (apply Hall; right; left).
  left.
Qed.

(** The only member of a bucket without duplicates that a test accepts *)
Lemma filter_unique {A} (P : A → Prop) `{∀ x, Decision (P x)} (l : list A) x :
  NoDup l → x ∈ l → P x → (∀ y, y ∈ l → P y → y = x) → filter P l = [x].
Proof.
  intros Hnd Hx HP Hall. apply NoDup_all_eq.
  - by apply NoDup_filter.
  - by apply list_elem_of_filter.
  - intros y [? ?]%list_elem_of_filter. by apply Hall.
Qed.

Lemma size_list_to_set_one r : size (list_to_set [r] : gset string) = 1%nat.
Proof. rewrite list_to_set_singleton. apply size_singleton. Qed.

(** The loop of [shortrev] ends with the revision itself or with a
    prefix that no other member of the bucket starts with. *)
Lemma shortrev_search_spec r crevs ls :
  shortrev_search r crevs ls = r ∨
  ∃ l, l ∈ ls ∧ shortrev_search r crevs ls = str_take (Z.to_nat l) r ∧
       ∀ x, x ∈ crevs → str_take (Z.to_nat l) x ≠ str_take (Z.to_nat l) r.
Proof.
  induction ls as [|l ls IH]; simpl; [by left|].
  case_bool_decide as Hin.
  - destruct IH as [IH|(l' & Hl' & IH)]; [by left|right].
    exists l'. split; [by right|done].
  - right. exists l. split_and!; [left|done|].
    intros x Hx Heq. apply Hin. apply list_elem_of_fmap.
    exists x. split; [done|]. by apply elem_of_elements.
Qed.

(** The loop of [shortrev] tries the lengths in turn: it ends at the
    first one at which no other revision shares the prefix, and with the
    revision itself when there is none. *)
Lemma shortrev_search_least r crevs ls :
  (shortrev_search r crevs ls = r ∧
   ∀ l, l ∈ ls →
     ∃ x, x ∈ crevs ∧ str_take (Z.to_nat l) x = str_take (Z.to_nat l) r) ∨
  (∃ pre l post, ls = pre ++ l :: post ∧
     shortrev_search r crevs ls = str_take (Z.to_nat l) r ∧
     (∀ x, x ∈ crevs → str_take (Z.to_nat l) x ≠ str_take (Z.to_nat l) r) ∧
     ∀ l', l' ∈ pre →
       ∃ x, x ∈ crevs ∧
            str_take (Z.to_nat l') x = str_take (Z.to_nat l') r).
Proof.
  induction ls as [|l ls IH]; simpl.
  - left. split; [done|]. intros l Hl. by apply elem_of_nil in Hl.
  - case_bool_decide as Hin.
    + apply list_elem_of_fmap in Hin as (x & Heq & Hx).
      apply elem_of_elements in Hx.
      destruct IH as [[Hr Hall]|(pre & l' & post & -> & Hres & Huniq & Hpre)].
      * left. split; [done|].
        intros l0 [->|Hl0]%elem_of_cons; [by eauto|by apply Hall].
      * right. exists (l :: pre), l', post. split_and!; [done..|].
        intros l0 [->|Hl0]%elem_of_cons; [by eauto|by apply Hpre].
    + right. exists [], l, ls. split_and!; [done..| |].
      * intros x Hx Heq. apply Hin. apply list_elem_of_fmap.
        exists x. split; [done|]. by apply elem_of_elements.
      * intros l' Hl'. by apply elem_of_nil in Hl'.
Qed.

Lemma seqZ_split (a len : Z) (pre : list Z) (l : Z) (post : list Z) :
  seqZ a len = pre ++ l :: post →
  l = a + Z.of_nat (length pre) ∧ ∀ l', a ≤ l' < l → l' ∈ pre.
Proof.
  intros Heq.
  assert (l = a + Z.of_nat (length pre)) as Hl.
  { pose proof (list_lookup_middle pre post l (length pre) eq_refl) as Hmid.
    rewrite <-Heq in Hmid. by apply lookup_seqZ in Hmid as [? _]. }
  split; [done|]. intros l' Hl'.
  destruct (lookup_lt_is_Some_2 pre (Z.to_nat (l' - a))) as [y Hy]; [lia|].
  assert (seqZ a len !! Z.to_nat (l' - a) = Some y) as Hseq
    by (rewrite Heq, lookup_app_l by lia; done).
  apply lookup_seqZ in Hseq as [-> _].
  replace (a + Z.of_nat (Z.to_nat (l' - a))) with l' in Hy by lia.
  by eapply list_elem_of_lookup_2.
Qed.

(** [fullrev] of a prefix of a revision that no other member of its
    bucket starts with *)
Lemma fullrev_prefix rev_list rc r n key :
  built_from rev_list rc →
  Forall (λ x, is_full_sha x = true) (heads rev_list) →
  r ∈ heads rev_list → __rev_key r = Ok key →
  (4 ≤ n)%nat →
  (∀ x, x ∈ bucket_of key rev_list → x ≠ r →
        str_take n x ≠ str_take n r) →
  fullrev rc (str_take n r) = Ok (Some r).
Proof.
  intros Hb Hsha Hr Hkey Hn Huniq. rewrite Forall_forall in Hsha.
  pose proof (Hsha r Hr) as Hfull.
  assert (String.length r = 40%nat) as Hlen.
  { unfold is_full_sha in Hfull.
    by apply andb_true_iff in Hfull as [?%bool_decide_eq_true _]. }
  unfold fullrev.
  destruct (decide (40 ≤ n)%nat) as [Hbig|Hsmall].
  { rewrite str_take_all by lia. rewrite Hlen.
    rewrite !bool_decide_eq_true_2; [done| |done].
    by apply (bf_keys _ _ Hb). }
  rewrite length_str_take, Hlen.
  rewrite (bool_decide_eq_false_2 (_ = 40%nat)) by lia. simpl.
  rewrite is_sha_take by done. simpl.
  rewrite rev_key_take, Hkey by lia. simpl.
  destruct (bf_srev _ _ Hb r Hr) as (key' & Hkey' & Hlook).
  assert (key' = key) as -> by congruence.
  rewrite Hlook. erewrite filter_unique; [done| | | |].
  - unfold bucket_of. apply NoDup_filter, (bf_nodup _ _ Hb).
  - unfold bucket_of. by apply list_elem_of_filter.
  - apply startswith_take.
  - intros x Hx Hstart. destruct (decide (x = r)) as [|Hne]; [done|].
    exfalso. apply (Huniq x Hx Hne).
    apply startswith_spec in Hstart.
    rewrite length_str_take, Hlen in Hstart.
    by replace (n `min` 40)%nat with n in Hstart by lia.
Qed.

(** C2, as amended.  For a revision [r] of a snapshot built from a
    listing of identifiers of 40 hexadecimal digits in which every parent
    has its line, and any requested length [k], [fullrev] maps what
    [shortrev] returns back to [r].  What [shortrev] returns is: the
    prefix of [max 4 k] digits when [r] is alone in the bucket of its
    first four digits; otherwise the prefix of the least length above
    [max 4 k] and below 40 at which no other member of the bucket agrees
    with [r], every shorter length above [max 4 k] having a member that
    does; and [r] itself when every such length has one. *)
Theorem shortrev_fullrev_round_trip refs out rc r k :
  parents_listed (parse_rev_list out) →
  _build_rev_cache refs out = Ok rc →
  Forall (λ x, is_full_sha x = true) (heads (parse_rev_list out)) →
  is_Some (rev_dict rc !! r) →
  ∃ s key, shortrev rc r k = Ok (Some s) ∧
    fullrev rc s = Ok (Some r) ∧
    (∃ n, (Z.to_nat (Z.max 4 k) ≤ n)%nat ∧ s = str_take n r) ∧
    __rev_key r = Ok key ∧
    (bucket_of key (parse_rev_list out) = [r] →
       s = str_take (Z.to_nat (Z.max 4 k)) r) ∧
    (bucket_of key (parse_rev_list out) ≠ [r] →
       (∃ l, Z.max 4 k < l < 40 ∧ s = str_take (Z.to_nat l) r ∧
          (∀ x, x ∈ bucket_of key (parse_rev_list out) → x ≠ r →
                str_take (Z.to_nat l) x ≠ str_take (Z.to_nat l) r) ∧
          ∀ l', Z.max 4 k < l' < l →
            ∃ x, x ∈ bucket_of key (parse_rev_list out) ∧ x ≠ r ∧
                 str_take (Z.to_nat l') x = str_take (Z.to_nat l') r) ∨
       (s = r ∧
        ∀ l, Z.max 4 k < l < 40 →
          ∃ x, x ∈ bucket_of key (parse_rev_list out) ∧ x ≠ r ∧
               str_take (Z.to_nat l) x = str_take (Z.to_nat l) r)).
Proof.
  intros Hwf Hbuild Hsha [c Hc].
  pose proof (build_sound _ _ _ Hwf Hbuild) as Hb.
  set (lines := parse_rev_list out) in *.
  assert (r ∈ heads lines) as Hr by (apply (bf_keys _ _ Hb); eauto).
  destruct (bf_srev _ _ Hb r Hr) as (key & Hkey & Hbucket).
  assert (String.length r = 40%nat) as Hlen.
  { rewrite Forall_forall in Hsha. specialize (Hsha r Hr).
    unfold is_full_sha in Hsha.
    by apply andb_true_iff in Hsha as [?%bool_decide_eq_true _]. }
  assert (r ∈ bucket_of key lines) as Hrb
    by (unfold bucket_of; by apply list_elem_of_filter).
  set (m := if bool_decide (k < 4) then 4 else k).
  assert (m = Z.max 4 k) as Hm by (unfold m; case_bool_decide; lia).
  unfold shortrev. fold m. rewrite Hc, Hkey. simpl. rewrite Hbucket. simpl.
  rewrite Hm. case_bool_decide as Hsize.
  - (* alone in the bucket *)
    assert (bucket_of key lines = [r]) as Hone.
    { apply NoDup_all_eq; [|done|].
      - unfold bucket_of. apply NoDup_filter, (bf_nodup _ _ Hb).
      - intros x Hx. apply size_1_elem_of in Hsize as [y Hy].
        assert (x ∈ ({[y]} : gset string)) as Hxy
          by (rewrite <-Hy; by apply elem_of_list_to_set).
        assert (r ∈ ({[y]} : gset string)) as Hry
          by (rewrite <-Hy; by apply elem_of_list_to_set).
        set_solver. }
    exists (str_take (Z.to_nat (Z.max 4 k)) r), key.
    split_and!; [done| |eauto|done|done|done].
    eapply fullrev_prefix; [done..|lia|].
    intros x Hx Hne. exfalso. apply Hne.
    rewrite Hone in Hx. by apply list_elem_of_singleton in Hx.
  - (* other revisions in the bucket *)
    assert (bucket_of key lines ≠ [r]) as Hmany.
    { intros Hone. apply Hsize. rewrite Hone. apply size_list_to_set_one. }
    set (crevs := list_to_set (bucket_of key lines) ∖ {[r]} : gset string).
    assert (∀ x, x ∈ crevs ↔ x ∈ bucket_of key lines ∧ x ≠ r) as Hcrevs.
    { intros x. unfold crevs.
      rewrite elem_of_difference, elem_of_list_to_set, elem_of_singleton.
      done. }
    set (ls := seqZ (Z.max 4 k + 1) (40 - (Z.max 4 k + 1))).
    destruct (shortrev_search_least r crevs ls)
      as [[-> Hall]|(pre & l & post & Hls & -> & Huniq & Hpre)].
    + exists r, key. split_and!; [done| | |done|done|].
      * rewrite <-(str_take_all 40 r) at 1 by lia.
        eapply fullrev_prefix; [done..|lia|].
        intros x Hx Hne. rewrite !str_take_all; [done|lia|].
        rewrite Forall_forall in Hsha.
        assert (x ∈ heads lines) as Hxh
          by (unfold bucket_of in Hx; by apply list_elem_of_filter in Hx as [_ ?]).
        specialize (Hsha x Hxh). unfold is_full_sha in Hsha.
        apply andb_true_iff in Hsha as [->%bool_decide_eq_true _]. done.
      * exists (Z.to_nat (Z.max 4 k) `max` 40)%nat. split; [lia|].
        rewrite str_take_all; [done|lia].
      * intros _. right. split; [done|]. intros l Hl.
        destruct (Hall l) as (x & Hx & Heq).
        { apply elem_of_seqZ. lia. }
        apply Hcrevs in Hx as [Hx Hne]. eauto.
    + assert (l ∈ ls) as Hl
        by (rewrite Hls; apply elem_of_app; right; left).
      apply elem_of_seqZ in Hl.
      apply seqZ_split in Hls as [_ Hbelow].
      exists (str_take (Z.to_nat l) r), key.
      split_and!; [done| | |done| |].
      * eapply fullrev_prefix; [done..|lia|].
        intros x Hx Hne. apply Huniq. by apply Hcrevs.
      * exists (Z.to_nat l). split; [lia|done].
      * intros Hone. by destruct Hmany.
      * intros _. left. exists l. split_and!; [lia|lia|done| |].
        -- intros x Hx Hne. apply Huniq. by apply Hcrevs.
        -- intros l' Hl'. destruct (Hpre l') as (x & Hx & Heq).
           { apply Hbelow. lia. }
           apply Hcrevs in Hx as [Hx Hne]. eauto.
Qed.
End shortrev_props.

Lemma shortrev_fullrev_round_trip_witness :
  ∃ s, shortrev Ex.rc Ex.A 2 = Ok (Some s) ∧ fullrev Ex.rc s = Ok (Some Ex.A) ∧
       s = str_take 5 Ex.A.
Proof.
  destruct (shortrev_fullrev_round_trip Ex.refs (rev_list_out Ex.git)
              Ex.rc Ex.A 2) as (s & key & Hs & Hf & _).
  - apply (bool_decide_unpack _); vm_compute; exact I.
  - vm_compute; reflexivity.
  - apply (bool_decide_unpack _); vm_compute; exact I.
  - apply (bool_decide_unpack _); vm_compute; exact I.
  - exists s. split; [exact Hs|]. split; [exact Hf|].
    assert (shortrev Ex.rc Ex.A 2 = Ok (Some (str_take 5 Ex.A))) as Hs'
      by (vm_compute; reflexivity).
    rewrite Hs in Hs'. injection Hs' as ->. reflexivity.
Defined.

(** C2 as stated fails for identifiers of more than 40 digits: asked
    for 41 digits of the one revision of a repository with identifiers
    of 64 digits, [shortrev] returns the prefix of 41 digits, which
    [fullrev] refuses. *)
Lemma shortrev_fullrev_long_identifier :
  parents_listed (parse_rev_list Long.out) ∧
  _build_rev_cache Long.refs Long.out = Ok Long.rc ∧
  is_Some (rev_dict Long.rc !! Long.r) ∧
  shortrev Long.rc Long.r 41 = Ok (Some (str_take 41 Long.r)) ∧
  fullrev Long.rc (str_take 41 Long.r) = Ok None.
Proof.
  split_and!.
  - apply (bool_decide_unpack _); vm_compute; exact I.
  - vm_compute; reflexivity.
  - apply (bool_decide_unpack _); vm_compute; exact I.
  - vm_compute; reflexivity.
  - vm_compute; reflexivity.
Qed.

(** ** The traversal of the descendants *)

Section children_recursive_props.
Variable set_iter : gset string → list string.
Hypothesis set_iter_perm : ∀ X, set_iter X ≡ₚ elements X.
Implicit Types (db : gmap string commit) (work ys : list string).
Implicit Types (seen past : gset string).

Lemma elem_of_set_iter X x : x ∈ set_iter X ↔ x ∈ X.
Proof using set_iter_perm. by rewrite set_iter_perm, elem_of_elements. Qed.

Lemma NoDup_set_iter X : NoDup (set_iter X).
Proof using set_iter_perm. rewrite set_iter_perm. apply NoDup_elements. Qed.

Lemma set_iter_empty : set_iter ∅ = [].
Proof using set_iter_perm.
  apply Permutation_nil_r. by rewrite set_iter_perm, elements_empty.
Qed.

Lemma set_iter_singleton x : set_iter {[x]} = [x].
Proof using set_iter_perm.
  apply Permutation_singleton_r. by rewrite set_iter_perm, elements_singleton.
Qed.

(** One round of the loop for a revision that has an entry *)
Lemma bfs_round fuel db p work seen c :
  db !! p = Some c →
  bfs set_iter (S fuel) db (p :: work) seen =
    let '(ys, e) := bfs set_iter fuel db
                      (work ++ set_iter (c_children c ∖ seen))
                      (seen ∪ c_children c ∖ seen) in
    (p :: ys, e).
Proof. intros Hp. simpl. by rewrite Hp. Qed.

(** The loop with the revisions [past] behind it: it ends, yields no
    revision twice and none it has finished with, yields descendants
    when all it has seen are descendants, and does not fail when the
    children it finds have entries. *)
Lemma bfs_spec sha fuel db work seen past :
  NoDup work →
  (∀ x, x ∈ work → x ∈ seen ∧ x ∉ past) →
  past ⊆ dom db → past ⊆ seen →
  (size (dom db) < size past + fuel)%nat →
  ∃ ys e, bfs set_iter fuel db work seen = (ys, e) ∧
    e ≠ Diverge ∧ NoDup ys ∧
    (∀ y, y ∈ ys → y ∈ work ∨ y ∉ seen) ∧
    ((∀ x, x ∈ seen → descendant db sha x) →
       ∀ y, y ∈ ys → descendant db sha y) ∧
    (child_closed db → (∀ x, x ∈ work → is_Some (db !! x)) → e = Stop).
Proof using set_iter_perm.
  revert work seen past.
  induction fuel as [|fuel IH]; intros work seen past Hnd Hwork Hdom Hseen Hfuel.
  { exfalso. apply subseteq_size in Hdom. lia. }
  destruct work as [|p work].
  { exists [], Stop. split_and!; [done..|apply NoDup_nil_2| | |done].
    - by intros ? ?%elem_of_nil.
    - by intros _ ? ?%elem_of_nil. }
  apply NoDup_cons in Hnd as [Hp Hnd].
  destruct (Hwork p) as [Hpseen Hppast]; [left|].
  destruct (db !! p) as [c|] eqn:Hc.
  2:{ exists [p], (Fail KeyError). simpl. rewrite Hc.
      split_and!; [done..|apply NoDup_singleton| | |].
      - intros y ->%list_elem_of_singleton. left. left.
      - intros Hdesc y ->%list_elem_of_singleton. by apply Hdesc.
      - intros _ Hkeys. destruct (Hkeys p) as [? ?]; [left|congruence]. }
  rewrite (bfs_round _ _ _ _ _ _ Hc).
  set (new := c_children c ∖ seen).
  destruct (IH (work ++ set_iter new) (seen ∪ new) ({[p]} ∪ past))
    as (ys & e & -> & He & Hys & Hfresh & Hdesc & Hstop).
  - apply NoDup_app. split_and!; [done| |apply NoDup_set_iter].
    intros x Hx Hx'%elem_of_set_iter.
    destruct (Hwork x) as [? _]; [by right|]. set_solver.
  - intros x [Hx|Hx%elem_of_set_iter]%elem_of_app.
    + destruct (Hwork x) as [? ?]; [by right|].
      split; [set_solver|]. intros [->%elem_of_singleton|?]%elem_of_union;
        done.
    + split; [set_solver|]. set_solver.
  - apply union_subseteq. split; [|done].
    apply singleton_subseteq_l, elem_of_dom. eauto.
  - set_solver.
  - rewrite size_union, size_singleton by set_solver. lia.
  - exists (p :: ys), e. split_and!; [done|done| | | |].
    + apply NoDup_cons. split; [|done]. intros Hin.
      destruct (Hfresh p Hin) as [[?|?%elem_of_set_iter]%elem_of_app|?];
        set_solver.
    + intros y [->|Hy]%elem_of_cons; [left; left|].
      destruct (Hfresh y Hy) as [[?|?%elem_of_set_iter]%elem_of_app|?].
      * left. by right.
      * right. set_solver.
      * right. set_solver.
    + intros Hseen_desc y [->|Hy]%elem_of_cons; [by apply Hseen_desc|].
      apply Hdesc; [|done].
      intros x [?|Hx]%elem_of_union; [by apply Hseen_desc|].
      eapply desc_step; [by apply Hseen_desc|done|set_solver].
    + intros Hclosed Hkeys. apply Hstop; [done|].
      intros x [?|Hx%elem_of_set_iter]%elem_of_app.
      * apply Hkeys. by right.
      * apply (Hclosed p c Hc). set_solver.
Qed.

(** A run of [children_recursive] ends, whatever [rev_dict] is given. *)
Lemma children_recursive_ends db sha :
  (children_recursive set_iter db sha).2 ≠ Diverge.
Proof using set_iter_perm.
  unfold children_recursive. destruct (db !! sha) as [c|]; [|done].
  destruct (bfs_spec sha (S (size db)) db (set_iter (c_children c))
              (c_children c) ∅) as (ys & e & -> & He & _).
  - apply NoDup_set_iter.
  - intros x ?%elem_of_set_iter. set_solver.
  - set_solver.
  - set_solver.
  - rewrite size_dom, size_empty. lia.
  - done.
Qed.

Lemma chain_db_size a b c d :
  NoDup [a; b; c; d] → size (chain_db a b c d) = 4%nat.
Proof.
  rewrite !NoDup_cons, !not_elem_of_cons.
  intros ((Hab & Hac & Had & _) & (Hbc & Hbd & _) & (Hcd & _) & _).
  unfold chain_db.
  rewrite map_size_insert_None
    by (rewrite !lookup_insert_ne by done; by apply lookup_singleton_ne).
  rewrite map_size_insert_None
    by (rewrite !lookup_insert_ne by done; by apply lookup_singleton_ne).
  rewrite map_size_insert_None by (by apply lookup_singleton_ne).
  by rewrite map_size_singleton.
Qed.

(** C4. For a [rev_dict] in which every child has an entry and a
    revision [sha] of it, the run of [children_recursive] ends with
    [StopIteration], yields no revision twice, and yields only revisions
    reached from [sha] along child edges; on the chain of [a], [b], [c],
    [d] it yields [b], [c], [d] from [a], in that order. *)
Theorem children_recursive_descendants db sha a b c d :
  child_closed db → is_Some (db !! sha) → NoDup [a; b; c; d] →
  (∃ ys, children_recursive set_iter db sha = (ys, Stop) ∧
         NoDup ys ∧ ∀ y, y ∈ ys → descendant db sha y) ∧
  children_recursive set_iter (chain_db a b c d) a = ([b; c; d], Stop).
Proof using set_iter_perm.
  intros Hclosed [e Hsha] Hchain. split.
  - unfold children_recursive. rewrite Hsha.
    destruct (bfs_spec sha (S (size db)) db (set_iter (c_children e))
                (c_children e) ∅)
      as (ys & r & Hrun & _ & Hnd & _ & Hdesc & Hstop).
    + apply NoDup_set_iter.
    + intros x ?%elem_of_set_iter. set_solver.
    + set_solver.
    + set_solver.
    + rewrite size_dom, size_empty. lia.
    + exists ys. rewrite Hrun, Hstop; [| done |].
      * split_and!; [done..|]. apply Hdesc.
        intros x Hx. by eapply desc_child.
      * intros x Hx%elem_of_set_iter. by apply (Hclosed sha e Hsha).
  - unfold children_recursive. rewrite (chain_db_size _ _ _ _ Hchain).
    revert Hchain. rewrite !NoDup_cons, !not_elem_of_cons.
    intros ((Hab & Hac & Had & _) & (Hbc & Hbd & _) & (Hcd & _) & _).
    assert (chain_db a b c d !! a = Some (Commit {[b]} [] 4 ∅ true)) as ->
      by apply lookup_insert_eq.
    assert (chain_db a b c d !! b = Some (Commit {[c]} [a] 3 ∅ true)) as Hb.
    { unfold chain_db. rewrite lookup_insert_ne by done.
      apply lookup_insert_eq. }
    assert (chain_db a b c d !! c = Some (Commit {[d]} [b] 2 ∅ true)) as Hc.
    { unfold chain_db. rewrite !lookup_insert_ne by done.
      apply lookup_insert_eq. }
    assert (chain_db a b c d !! d = Some (Commit ∅ [c] 1 ∅ true)) as Hd.
    { unfold chain_db. rewrite !lookup_insert_ne by done.
      apply lookup_singleton_eq. }
    simpl c_children. rewrite set_iter_singleton.
    rewrite (bfs_round _ _ _ _ _ _ Hb). simpl c_children.
    replace ({[c]} ∖ {[b]} : gset string) with ({[c]} : gset string)
      by set_solver.
    rewrite set_iter_singleton. simpl app.
    rewrite (bfs_round _ _ _ _ _ _ Hc). simpl c_children.
    replace ({[d]} ∖ ({[b]} ∪ {[c]}) : gset string) with ({[d]} : gset string)
      by set_solver.
    rewrite set_iter_singleton. simpl app.
    rewrite (bfs_round _ _ _ _ _ _ Hd). simpl c_children.
    replace (∅ ∖ ({[b]} ∪ {[c]} ∪ {[d]}) : gset string) with (∅ : gset string)
      by set_solver.
    rewrite set_iter_empty. done.
Qed.
End children_recursive_props.

Lemma children_recursive_descendants_witness :
  (∃ ys, children_recursive elements (rev_dict Ex.rc) Ex.A = (ys, Stop) ∧
         NoDup ys ∧ ∀ y, y ∈ ys → descendant (rev_dict Ex.rc) Ex.A y) ∧
  children_recursive elements (chain_db Ex.A Ex.B Ex.C Ex.D) Ex.A =
    ([Ex.B; Ex.C; Ex.D], Stop).
Proof.
  apply (children_recursive_descendants elements (λ X, reflexivity _)).
  - apply (bool_decide_unpack _); vm_compute; exact I.
  - apply (bool_decide_unpack _); vm_compute; exact I.
  - apply (bool_decide_unpack _); vm_compute; exact I.
Defined.

(** ** The branches that contain a revision *)

Section branch_props.
Variable set_iter : gset string → list string.
Variable dict_items : ∀ V : Type, gmap string V → list (string * V).
Hypothesis dict_items_perm :
  ∀ V (m : gmap string V), dict_items V m ≡ₚ map_to_list m.

Lemma startswith_app s p :
  startswith s p = true → s = p +:+ str_drop (String.length p) s.
Proof.
  revert s. induction p as [|a p IH]; intros [|b s]; simpl; try done.
  rewrite andb_true_iff, bool_decide_eq_true. intros [-> Hs].
  transitivity (String b (p +:+ str_drop (String.length p) s)); [|done].
  f_equal. by apply IH.
Qed.

Lemma startswith_app_l p s : startswith (p +:+ s) p = true.
Proof.
  induction p as [|a p IH]; [by destruct s|].
  change (String a p +:+ s) with (String a (p +:+ s)). simpl.
  by rewrite bool_decide_eq_true_2, IH.
Qed.

Lemma str_drop_app p s : str_drop (String.length p) (p +:+ s) = s.
Proof.
  induction p as [|a p IH]; [by destruct s|].
  change (String a p +:+ s) with (String a (p +:+ s)). done.
Qed.

(** The branches [iter_branches] yields *)
Lemma elem_of_iter_branches rc name rev hd :
  (name, rev, hd) ∈ iter_branches dict_items rc ↔
  refs_dict rc !! ("refs/heads/" +:+ name) = Some rev ∧
  hd = bool_decide (Some ("refs/heads/" +:+ name) = refs_dict rc !! "HEAD").
Proof using dict_items_perm.
  unfold iter_branches. rewrite list_elem_of_omap. split.
  - intros ([refname rev'] & Hin & Hsome).
    rewrite dict_items_perm, elem_of_map_to_list in Hin.
    destruct (startswith refname "refs/heads/") eqn:Hst; [|done].
    apply startswith_app in Hst. simpl String.length in Hst.
    simplify_eq. rewrite <-Hst. done.
  - intros [Hrev ->]. exists ("refs/heads/" +:+ name, rev). split.
    + by rewrite dict_items_perm, elem_of_map_to_list.
    + rewrite startswith_app_l.
      change 11%nat with (String.length "refs/heads/").
      by rewrite str_drop_app.
Qed.

(** C9, as amended.  For a revision [sha] of a snapshot,
    [get_branch_contains] with [resolve] returns the pairs of a branch
    name and its head revision for exactly the local branches whose
    head is in the reachable heads of [sha], in ascending order of the
    pairs. *)
Theorem get_branch_contains_sorted rc sha c :
  rev_dict rc !! sha = Some c →
  ∃ l, get_branch_contains set_iter dict_items rc sha true = inl l ∧
       StronglySorted tuple_le l ∧
       ∀ name rev, (name, rev) ∈ l ↔
         refs_dict rc !! ("refs/heads/" +:+ name) = Some rev ∧
         rev ∈ c_rheads c.
Proof using dict_items_perm.
  intros Hc. unfold get_branch_contains. rewrite Hc.
  eexists. split; [done|]. split.
  - apply StronglySorted_merge_sort; apply _.
  - intros name rev. rewrite merge_sort_Permutation, list_elem_of_omap.
    split.
    + intros ([[name' rev'] hd] & Hin & Hsome).
      case_bool_decide; [|done]. simplify_eq.
      apply elem_of_iter_branches in Hin as [? _]. done.
    + intros [Href Hrh]. eexists (name, rev, _). split.
      * apply elem_of_iter_branches. done.
      * simpl. by rewrite bool_decide_eq_true_2.
Qed.
End branch_props.

Lemma get_branch_contains_sorted_witness :
  ∃ l, get_branch_contains elements Ex.items Ex.rc Ex.A true = inl l ∧
       StronglySorted tuple_le l ∧ ("master", Ex.D) ∈ l.
Proof.
  destruct (get_branch_contains_sorted elements Ex.items
              (λ V m, reflexivity _) Ex.rc Ex.A
              (Commit {[Ex.B]} [] 4 {[Ex.C; Ex.D]} true))
    as (l & Hl & Hsorted & Hin).
  - vm_compute; reflexivity.
  - exists l. split; [exact Hl|]. split; [exact Hsorted|].
    apply Hin. split; [vm_compute; reflexivity|].
    apply (bool_decide_unpack _); vm_compute; exact I.
Defined.

(** C9 as stated fails: [master] is checked out and contains [A], yet
    the list for [A] starts with [dev]. *)
Lemma get_branch_contains_head_not_first :
  ∃ l, get_branch_contains elements Ex.items Ex.rc Ex.A true = inl l ∧
       ¬ head_branch_first Ex.rc l.
Proof.
  exists [("dev", Ex.C); ("master", Ex.D)]. split; [vm_compute; reflexivity|].
  intros Hfirst. specialize (Hfirst "master" Ex.D).
  assert (head [("dev", Ex.C); ("master", Ex.D)] = Some ("master", Ex.D))
    as Hhead; [|discriminate Hhead].
  apply Hfirst; [vm_compute; reflexivity|]. right. left.
Qed.

(** ** Refreshing the snapshot *)

Ltac munfold :=
  unfold mbind, mret, mget, mmodify, mlift, mraise in *; simpl in *.

Section refresh_props.
Variable git : repo.

Lemma set_refresh_id s :
  s_rev_cache_refresh s = false → set_rev_cache_refresh false s = s.
Proof. destruct s; simpl. by intros ->. Qed.

(** [_get_refs] runs [show-ref] once, [rev-list] never, and what it
    returns depends on the repository only. *)
Lemma get_refs_run :
  ∃ refs cmds,
    count_cmd ShowRef cmds = 0%nat ∧ count_cmd RevList cmds = 0%nat ∧
    ∀ s, Storage._get_refs git s =
           (Ok refs, set_log (s_log s ++ ShowRef :: cmds) s).
Proof.
  unfold Storage._get_refs, Storage.execute. munfold.
  destruct (fold_left _ _ _) as [refs tags].
  case_bool_decide as Hempty.
  - exists (tags ∪ refs), []. split_and!; [done..|]. by intros [].
  - case_bool_decide.
    + eexists _, [SymbolicRef]. split_and!; [done..|].
      intros []; simpl. by rewrite <-app_assoc.
    + eexists _, [SymbolicRef]. split_and!; [done..|].
      intros []; simpl. by rewrite <-app_assoc.
Qed.

(** A call that has nothing to refresh runs no command. *)
Lemma rev_cache_fresh s :
  s_rev_cache_refresh s = false →
  Storage.rev_cache git s = (Ok (s_rev_cache s), s).
Proof.
  intros Hfl. unfold Storage.rev_cache, Storage._refresh_rev_cache.
  munfold. by rewrite Hfl.
Qed.

(** After a call of [rev_cache] nothing is left to refresh. *)
Lemma rev_cache_clears s r s' :
  Storage.rev_cache git s = (r, s') → s_rev_cache_refresh s' = false.
Proof.
  destruct get_refs_run as (refs & cmds & _ & _ & Hrefs).
  unfold Storage.rev_cache, Storage._refresh_rev_cache,
    Storage._build_rev_cache, Storage.execute.
  munfold. destruct (s_rev_cache_refresh s) eqn:Hfl; simpl.
  - rewrite Hrefs. simpl. case_bool_decide; simpl.
    + by intros [= <- <-].
    + destruct (_build_rev_cache _ _); simpl; by intros [= <- <-].
  - by intros [= <- <-].
Qed.

(** A call that refreshes and returns leaves a snapshot whose
    reference map is the one of the repository. *)
Lemma rev_cache_refreshed s rc s' :
  s_rev_cache_refresh s = true →
  Storage.rev_cache git s = (Ok rc, s') →
  s_rev_cache s' = rc ∧
  ∀ t, (Storage._get_refs git t).1 = Ok (refs_dict rc).
Proof.
  destruct get_refs_run as (refs & cmds & _ & _ & Hrefs).
  unfold Storage.rev_cache, Storage._refresh_rev_cache,
    Storage._build_rev_cache, Storage.execute.
  munfold. intros ->. simpl. rewrite Hrefs. simpl.
  case_bool_decide as Heq; simpl.
  - intros [= <- <-]. simpl. split; [done|]. intros t.
    by rewrite Hrefs, Heq.
  - destruct (_build_rev_cache _ _) as [rc'|] eqn:Hbuild; simpl; [|done].
    intros [= <- <-]. simpl. split; [done|]. intros t.
    rewrite Hrefs. simpl.
    by apply build_loop_of in Hbuild as (_ & _ & _ & ->).
Qed.


(** C6, as amended.  After a call of the query layer that refreshed the
    snapshot, a second call with the repository unchanged runs no git
    command at all: the first call cleared the flag that asks for a
    refresh.  Once [invalidate_rev_cache] has set the flag, the next
    call fetches the reference listing exactly once, finds it equal to
    the reference map of the snapshot, fetches no ancestry listing and
    keeps the snapshot.  [sync] does that fetch itself, whatever the
    flag: it fetches the reference listing once and no ancestry listing,
    keeps the snapshot and returns [False], and the call after it runs
    no git command. *)
Theorem second_call_fetches s rc s' :
  s_rev_cache_refresh s = true →
  Storage.rev_cache git s = (Ok rc, s') →
  Storage.rev_cache git s' = (Ok rc, s') ∧
  (∃ s'', Storage.rev_cache git (Storage.invalidate_rev_cache s').2
            = (Ok rc, s'') ∧
     count_cmd ShowRef (s_log s'') = S (count_cmd ShowRef (s_log s')) ∧
     count_cmd RevList (s_log s'') = count_cmd RevList (s_log s') ∧
     s_rev_cache s'' = s_rev_cache s') ∧
  (∃ s3, Storage.sync git s' = (Ok false, s3) ∧
     count_cmd ShowRef (s_log s3) = S (count_cmd ShowRef (s_log s')) ∧
     count_cmd RevList (s_log s3) = count_cmd RevList (s_log s') ∧
     s_rev_cache s3 = s_rev_cache s' ∧
     Storage.rev_cache git s3 = (Ok rc, s3)).
Proof.
  intros Hfl Hcall.
  pose proof (rev_cache_clears _ _ _ Hcall) as Hclear.
  destruct (rev_cache_refreshed _ _ _ Hfl Hcall) as [Hrc Hsame].
  destruct get_refs_run as (refs & cmds & Hshow & Hlist & Hrefs).
  assert (refs = refs_dict rc) as ->.
  { specialize (Hsame s). rewrite Hrefs in Hsame. by simplify_eq/=. }
  split_and!.
  - rewrite rev_cache_fresh by done. by rewrite Hrc.
  - unfold Storage.rev_cache, Storage._refresh_rev_cache,
      Storage.invalidate_rev_cache.
    munfold. rewrite Hrefs. simpl. rewrite Hrc.
    rewrite bool_decide_eq_true_2 by done. simpl. rewrite Hrc.
    eexists. split; [done|]. simpl. unfold count_cmd in *.
    rewrite !filter_app, !length_app, !filter_cons. simpl.
    split_and!; [lia|lia|done].
  - set (s3 := set_log (s_log s' ++ ShowRef :: cmds)
                 (set_rev_cache_refresh false s')).
    assert (Storage.sync git s' = (Ok false, s3)) as Hsync.
    { unfold Storage.sync, Storage._refresh_rev_cache. munfold.
      rewrite Hrefs. simpl. rewrite Hrc.
      by rewrite bool_decide_eq_true_2 by done. }
    exists s3. split; [done|]. split_and!.
    + unfold s3, count_cmd in *. simpl.
      rewrite !filter_app, !length_app, !filter_cons. simpl. lia.
    + unfold s3, count_cmd in *. simpl.
      rewrite !filter_app, !length_app, !filter_cons. simpl. lia.
    + done.
    + rewrite rev_cache_fresh by done. unfold s3. simpl. by rewrite Hrc.
Qed.
End refresh_props.

Lemma second_call_fetches_witness :
  Storage.rev_cache Ex.git Ex.s1 = (Ok Ex.rc, Ex.s1) ∧
  (∃ s'', Storage.rev_cache Ex.git (Storage.invalidate_rev_cache Ex.s1).2
            = (Ok Ex.rc, s'') ∧
     count_cmd ShowRef (s_log s'') = S (count_cmd ShowRef (s_log Ex.s1)) ∧
     count_cmd RevList (s_log s'') = count_cmd RevList (s_log Ex.s1) ∧
     s_rev_cache s'' = s_rev_cache Ex.s1) ∧
  (∃ s3, Storage.sync Ex.git Ex.s1 = (Ok false, s3) ∧
     count_cmd ShowRef (s_log s3) = S (count_cmd ShowRef (s_log Ex.s1)) ∧
     count_cmd RevList (s_log s3) = count_cmd RevList (s_log Ex.s1) ∧
     s_rev_cache s3 = s_rev_cache Ex.s1 ∧
     Storage.rev_cache Ex.git s3 = (Ok Ex.rc, s3)).
Proof.
  apply (second_call_fetches Ex.git (Storage.init None)).
  - reflexivity.
  - vm_compute; reflexivity.
Defined.

(** C6 as stated fails: the second of two calls in a row fetches no
    reference listing, not one. *)
Lemma second_call_runs_no_show_ref :
  ∃ s2, Storage.rev_cache Ex.git Ex.s1 = (Ok Ex.rc, s2) ∧
        count_cmd ShowRef (s_log s2) ≠ S (count_cmd ShowRef (s_log Ex.s1)).
Proof.
  exists Ex.s1. split; [vm_compute; reflexivity|]. vm_compute. lia.
Qed.

(** ** Revisions the snapshot does not have *)

Section unknown_props.
Variable set_iter : gset string → list string.
Variable encode : string → result string.
Variable git : repo.


(** X2.  Text the file-system encoding cannot encode is refused before
    the snapshot is read: [children] and [parents] raise the error of the
    codec and leave the object as it was, a refresh pending or not. *)
Theorem children_parents_unencodable s sha e :
  Storage._fs_from_unicode encode sha = Raise e →
  Storage.children set_iter encode git sha s = (Raise e, s) ∧
  Storage.parents encode git sha s = (Raise e, s).
Proof.
  intros Henc. unfold Storage.children, Storage.parents, mbind, mlift.
  by rewrite Henc.
Qed.
End unknown_props.


Lemma children_parents_unencodable_witness :
  Storage.children elements Ex.encode Ex.git (PyText Ex.umlaut)
    (Storage.init None) = (Raise UnicodeEncodeError, Storage.init None) ∧
  Storage.parents Ex.encode Ex.git (PyText Ex.umlaut)
    (Storage.init None) = (Raise UnicodeEncodeError, Storage.init None).
Proof.
  apply (children_parents_unencodable elements Ex.encode Ex.git).
  vm_compute; reflexivity.
Defined.


(** ** The batch pipe *)

Section cat_file_props.
Variable git : repo.

(** A request whose answer names another type than the one asked for:
    nothing is raised, the child is killed and the pipe forgotten. *)
Lemma cat_file_mismatch s kind sha line rest _sha _type _size :
  readline (pending s +:+ batch_reply git (sha +:+ String LF "")) = (line, rest) →
  split line = [_sha; _type; _size] →
  _type ≠ kind →
  ∃ s', Storage.cat_file git kind sha s = (Ok None, s') ∧
        s_cat_file_pipe s' = None ∧
        s_terminated s' = s_terminated s ++ [next_child s] ∧
        s_next_pid s' = match s_cat_file_pipe s with
                        | Some _ => s_next_pid s
                        | None => S (s_next_pid s)
                        end.
Proof.
  intros Hline Hsplit Hne.
  unfold Storage.cat_file, Storage.cat_file_try, Storage.cat_file_except,
    Storage.cat_file_batch, pending, next_child in *.
  munfold. destruct (s_cat_file_pipe s) as [p|] eqn:Hpipe; simpl in *.
  - rewrite Hline. simpl. rewrite Hsplit.
    rewrite bool_decide_eq_false_2 by done. simpl.
    eexists. split; [done|]. done.
  - rewrite Hline. simpl. rewrite Hsplit.
    rewrite bool_decide_eq_false_2 by done. simpl.
    eexists. split; [done|]. done.
Qed.

(** A well-formed answer on an object without a pipe: a child is
    started and the payload is returned. *)
Lemma cat_file_fresh s kind sha line rest _sha _size n :
  s_cat_file_pipe s = None →
  readline (batch_reply git (sha +:+ String LF "")) = (line, rest) →
  split line = [_sha; kind; _size] →
  int10 _size = Ok n → 0 ≤ n →
  ∃ s', Storage.cat_file git kind sha s
          = (Ok (Some (str_take (Z.to_nat n) rest)), s') ∧
        s_cat_file_pipe s' =
          Some (Proc (s_next_pid s) (str_drop (Z.to_nat (n + 1)) rest)) ∧
        s_terminated s' = s_terminated s ∧
        s_log s' = s_log s ++ [CatFileBatch].
Proof.
  intros Hpipe Hline Hsplit Hsize Hn.
  change (batch_reply git (sha +:+ String LF ""))
    with ("" +:+ batch_reply git (sha +:+ String LF "")) in Hline.
  unfold Storage.cat_file, Storage.cat_file_try, Storage.cat_file_except,
    Storage.cat_file_batch in *.
  munfold. rewrite Hpipe. simpl. rewrite Hline. simpl. rewrite Hsplit.
  rewrite bool_decide_eq_true_2 by done. simpl. rewrite Hsize. simpl.
  rewrite bool_decide_eq_false_2 by lia. simpl.
  rewrite str_take_take by lia.
  eexists. split; [done|]. done.
Qed.

(** C5, as amended.  A request for an object whose answer declares
    another type than the requested kind raises nothing: the error is
    caught in [cat_file], which kills the child, forgets the pipe and
    returns [None].  The next request, for an object whose answer is well
    formed and of the requested kind, starts a new child (not the killed
    one) and returns the payload. *)
Theorem cat_file_wrong_type s kind sha line rest _sha _type _size
    kind2 sha2 line2 rest2 _sha2 _size2 n :
  pipe_ok s →
  readline (pending s +:+ batch_reply git (sha +:+ String LF "")) = (line, rest) →
  split line = [_sha; _type; _size] →
  _type ≠ kind →
  readline (batch_reply git (sha2 +:+ String LF "")) = (line2, rest2) →
  split line2 = [_sha2; kind2; _size2] →
  int10 _size2 = Ok n → 0 ≤ n →
  ∃ s' s'' p,
    Storage.cat_file git kind sha s = (Ok None, s') ∧
    s_cat_file_pipe s' = None ∧
    next_child s ∈ s_terminated s' ∧
    Storage.cat_file git kind2 sha2 s'
      = (Ok (Some (str_take (Z.to_nat n) rest2)), s'') ∧
    s_cat_file_pipe s'' = Some p ∧
    pid p ≠ next_child s ∧
    stdout_buf p = str_drop (Z.to_nat (n + 1)) rest2 ∧
    count_cmd CatFileBatch (s_log s'') = S (count_cmd CatFileBatch (s_log s')).
Proof.
  intros Hok Hline Hsplit Hne Hline2 Hsplit2 Hsize Hn.
  destruct (cat_file_mismatch _ _ _ _ _ _ _ _ Hline Hsplit Hne)
    as (s' & Hcall & Hpipe & Hterm & Hnext).
  destruct (cat_file_fresh s' _ _ _ _ _ _ _ Hpipe Hline2 Hsplit2 Hsize Hn)
    as (s'' & Hcall2 & Hpipe2 & _ & Hlog).
  exists s', s'', (Proc (s_next_pid s') (str_drop (Z.to_nat (n + 1)) rest2)).
  split_and!; [done|done| |done|done| |done|].
  - rewrite Hterm. apply elem_of_app. right. left.
  - simpl. rewrite Hnext. unfold next_child, pipe_ok in *.
    destruct (s_cat_file_pipe s); lia.
  - rewrite Hlog. unfold count_cmd.
    rewrite filter_app, length_app. simpl. lia.
Qed.
End cat_file_props.

Lemma cat_file_wrong_type_witness :
  ∃ s' s'' p,
    Storage.cat_file Ex.git "commit" Ex.B (Storage.init None) = (Ok None, s') ∧
    s_cat_file_pipe s' = None ∧
    0%nat ∈ s_terminated s' ∧
    Storage.cat_file Ex.git "commit" Ex.A s' = (Ok (Some Ex.commit_A), s'') ∧
    s_cat_file_pipe s'' = Some p ∧ pid p ≠ 0%nat.
Proof.
  destruct (cat_file_wrong_type Ex.git (Storage.init None) "commit" Ex.B
              (Ex.B +:+ " blob 3" +:+ Ex.nl) ("xyz" +:+ Ex.nl)
              Ex.B "blob" "3"
              "commit" Ex.A (Ex.A +:+ " commit 63" +:+ Ex.nl)
              (Ex.commit_A +:+ Ex.nl) Ex.A "63" 63)
    as (s' & s'' & p & H1 & H2 & H3 & H4 & H5 & H6 & _).
  - exact I.
  - vm_compute; reflexivity.
  - vm_compute; reflexivity.
  - discriminate.
  - vm_compute; reflexivity.
  - vm_compute; reflexivity.
  - vm_compute; reflexivity.
  - lia.
  - exists s', s'', p. split_and!; [exact H1|exact H2|exact H3| |exact H5|exact H6].
    rewrite H4. reflexivity.
Defined.

(** C5 as stated fails: the call for a blob as a commit raises nothing. *)
Lemma cat_file_raises_nothing :
  ¬ ∃ e, (Storage.cat_file Ex.git "commit" Ex.B (Storage.init None)).1 = Raise e.
Proof. intros [e He]. vm_compute in He. discriminate He. Qed.

(** ** The commit message cache *)

Section read_commit_props.
Variable decode : string → string → result string.
Variable git : repo.

Lemma fresh_store_None (h : store) : h !! fresh (dom h) = None.
Proof. apply not_elem_of_dom, is_fresh. Qed.

(** The lists a dict holds are read the same in two stores that agree
    on them. *)
Lemma view_agree (h1 h2 : store) d1 d2 m :
  h1 !! d1 = Some (ODict m) → h2 !! d2 = Some (ODict m) →
  (∀ k a, m !! k = Some a → is_list h1 a = true ∧ h2 !! a = h1 !! a) →
  view h2 d2 = view h1 d1.
Proof.
  intros H1 H2 Hm. unfold view. rewrite H1, H2. f_equal.
  apply map_eq. intros k. rewrite !lookup_omap.
  destruct (m !! k) as [a|] eqn:Hk; [|done]. simpl.
  destruct (Hm k a Hk) as [_ ->]. done.
Qed.

Lemma mbind_ok {S A B} (m : M S A) (k : A → M S B) s a s' :
  m s = (Ok a, s') → mbind m k s = k a s'.
Proof. unfold mbind. by intros ->. Qed.

Lemma mbind_raise {S A B} (m : M S A) (k : A → M S B) s e s' :
  m s = (Raise e, s') → mbind m k s = (Raise e, s').
Proof. unfold mbind. by intros ->. Qed.

Lemma fullrev_fresh s srev :
  s_rev_cache_refresh s = false →
  Storage.fullrev git srev s = (fullrev (s_rev_cache s) srev, s).
Proof.
  intros Hfl. unfold Storage.fullrev.
  erewrite mbind_ok by (by apply rev_cache_fresh). done.
Qed.

Lemma get_commits_fresh s :
  s_rev_cache_refresh s = false →
  Storage.get_commits git s = (Ok (rev_dict (s_rev_cache s)), s).
Proof.
  intros Hfl. unfold Storage.get_commits.
  erewrite mbind_ok by (by apply rev_cache_fresh). done.
Qed.

(** [read_commit] of a commit that is in the cache *)
Lemma read_commit_hit s commit_id full msg d0 m :
  commit_id ≠ "" →
  s_rev_cache_refresh s = false →
  fullrev (s_rev_cache s) commit_id = Ok (Some full) →
  is_Some (rev_dict (s_rev_cache s) !! full) →
  SizedDict.data (s_commit_msg_cache s) !! full = Some (msg, d0) →
  s_store s !! d0 = Some (ODict m) →
  Storage.read_commit decode git commit_id s =
    (Ok (msg, fresh (dom (s_store s))),
     set_store (<[fresh (dom (s_store s)) := ODict m]> (s_store s)) s).
Proof.
  intros Hid Hfl Hfull Hdb Hhit Hd0.
  unfold Storage.read_commit. destruct commit_id as [|ch rest]; [done|].
  erewrite mbind_ok by (rewrite fullrev_fresh by done; by rewrite Hfull).
  erewrite mbind_ok by (by apply get_commits_fresh).
  rewrite bool_decide_eq_true_2 by done. unfold negb.
  erewrite mbind_ok by reflexivity.
  rewrite Hhit. unfold Storage.return_copy.
  erewrite mbind_ok by reflexivity.
  unfold copy_dict. simpl snd. rewrite Hd0.
  erewrite mbind_ok by reflexivity. done.
Qed.

(** What a caller does to a dict it was given leaves the objects that
    were there before as they are, the dict apart. *)
Lemma dict_setitem_frame d k vs (h : store) l :
  l ≠ d → is_Some (h !! l) → dict_setitem d k vs h !! l = h !! l.
Proof.
  intros Hl Hsome. unfold dict_setitem, alloc.
  destruct (h !! d) as [[md|?]|]; [|done..].
  rewrite lookup_insert_ne by done. apply lookup_insert_ne.
  intros <-. rewrite fresh_store_None in Hsome. by destruct Hsome.
Qed.

Lemma dict_delitem_frame d k (h : store) l :
  l ≠ d → dict_delitem d k h !! l = h !! l.
Proof.
  intros Hl. unfold dict_delitem.
  destruct (h !! d) as [[md|?]|]; [|done..]. by apply lookup_insert_ne.
Qed.

(** C7, as amended.  For a commit in the cache, [read_commit] returns
    the cached message and a new dict that holds the items of the cached
    dict, the very lists of values included.  Whatever a caller then
    does to that dict itself (setting, rebinding or deleting keys, with
    new objects of its own), the entry in the cache stays as it was and
    a later [read_commit] of the same revision returns the values of
    the first. *)
Theorem read_commit_copies_dict s commit_id full msg d0 m :
  commit_id ≠ "" →
  s_rev_cache_refresh s = false →
  fullrev (s_rev_cache s) commit_id = Ok (Some full) →
  is_Some (rev_dict (s_rev_cache s) !! full) →
  SizedDict.data (s_commit_msg_cache s) !! full = Some (msg, d0) →
  s_store s !! d0 = Some (ODict m) →
  map_Forall (λ _ a, is_list (s_store s) a = true) m →
  ∃ d s1,
    Storage.read_commit decode git commit_id s = (Ok (msg, d), s1) ∧
    d ≠ d0 ∧ s_store s !! d = None ∧
    s_store s1 !! d0 = Some (ODict m) ∧
    s_store s1 !! d = Some (ODict m) ∧
    view (s_store s1) d = view (s_store s) d0 ∧
    ∀ h' : store,
      (∀ l, l ≠ d → is_Some (s_store s1 !! l) → h' !! l = s_store s1 !! l) →
      ∃ d' s2,
        Storage.read_commit decode git commit_id (set_store h' s1)
          = (Ok (msg, d'), s2) ∧
        view (s_store s2) d' = view (s_store s1) d.
Proof.
  intros Hid Hfl Hfull Hdb Hhit Hd0 Hlists.
  set (d := fresh (dom (s_store s))).
  set (h1 := <[d := ODict m]> (s_store s)).
  assert (s_store s !! d = None) as Hd by apply fresh_store_None.
  assert (d ≠ d0) as Hne by (intros ->; congruence).
  assert (∀ k a, m !! k = Some a → a ≠ d ∧ is_list (s_store s) a = true)
    as Hm.
  { intros k a Hk. pose proof (Hlists k a Hk) as Hl. split; [|done].
    intros ->. unfold is_list in Hl. by rewrite Hd in Hl. }
  exists d, (set_store h1 s). split_and!.
  - by apply (read_commit_hit _ _ full _ d0).
  - done.
  - done.
  - destruct s; simpl in *. unfold h1. by rewrite lookup_insert_ne.
  - destruct s; simpl in *. unfold h1. apply lookup_insert_eq.
  - destruct s; simpl in *. eapply view_agree; [done| |].
    + unfold h1. apply lookup_insert_eq.
    + intros k a Hk. destruct (Hm k a Hk) as [Hak Hl]. split; [done|].
      unfold h1. by rewrite lookup_insert_ne.
  - intros h' Hh'.
    assert (s_store (set_store h1 s) = h1) as Hs1 by (by destruct s).
    rewrite Hs1 in *.
    assert (h1 !! d0 = Some (ODict m)) as Hd01
      by (unfold h1; by rewrite lookup_insert_ne).
    assert (h' !! d0 = Some (ODict m)) as Hd0'
      by (rewrite Hh'; [done|done|by rewrite Hd01]).
    do 2 eexists. split.
    + apply (read_commit_hit _ _ full _ d0); destruct s; simpl in *; done.
    + destruct s; simpl in *. eapply view_agree.
      * unfold h1. apply lookup_insert_eq.
      * apply lookup_insert_eq.
      * intros k a Hk. destruct (Hm k a Hk) as [Hak Hl].
        assert (h1 !! a = s_store0 !! a) as Ha1
          by (unfold h1; by rewrite lookup_insert_ne).
        assert (is_list h1 a = true) as Hl1
          by (unfold is_list in *; by rewrite Ha1).
        assert (h' !! a = h1 !! a) as Ha'.
        { apply Hh'; [done|]. unfold is_list in Hl1.
          destruct (h1 !! a); [by eauto|done]. }
        split; [done|]. rewrite lookup_insert_ne; [done|].
        intros <-. rewrite fresh_store_None in Ha'.
        unfold is_list in Hl1. by rewrite <-Ha' in Hl1.
Qed.

(** X1.  The lists of the returned dict are the lists of the cached entry: an
    item a caller appends to the list of a header is in what the next
    [read_commit] of the revision returns for that header. *)
Theorem read_commit_shares_lists s commit_id full msg d0 m k a l x :
  commit_id ≠ "" →
  s_rev_cache_refresh s = false →
  fullrev (s_rev_cache s) commit_id = Ok (Some full) →
  is_Some (rev_dict (s_rev_cache s) !! full) →
  SizedDict.data (s_commit_msg_cache s) !! full = Some (msg, d0) →
  s_store s !! d0 = Some (ODict m) →
  m !! k = Some a →
  s_store s !! a = Some (OList l) →
  ∃ d s1 d' s2 v,
    Storage.read_commit decode git commit_id s = (Ok (msg, d), s1) ∧
    s_store s1 !! d = Some (ODict m) ∧
    Storage.read_commit decode git commit_id
        (set_store (list_append a x (s_store s1)) s1)
      = (Ok (msg, d'), s2) ∧
    view (s_store s2) d' = Some v ∧
    v !! k = Some (l ++ [x]).
Proof.
  intros Hid Hfl Hfull Hdb Hhit Hd0 Hk Ha.
  set (d := fresh (dom (s_store s))).
  set (h1 := <[d := ODict m]> (s_store s)).
  assert (s_store s !! d = None) as Hd by apply fresh_store_None.
  assert (a ≠ d) as Had by (intros ->; congruence).
  assert (d0 ≠ d) as Hd0d by (intros ->; congruence).
  assert (d0 ≠ a) as Hd0a by (intros ->; congruence).
  assert (h1 !! a = Some (OList l)) as Ha1
    by (unfold h1; by rewrite lookup_insert_ne).
  set (h' := <[a := OList (l ++ [x])]> h1).
  assert (list_append a x h1 = h') as Happ
    by (unfold list_append; by rewrite Ha1).
  assert (s_store (set_store h1 s) = h1) as Hs1 by (by destruct s).
  assert (h' !! d0 = Some (ODict m)) as Hd0'.
  { unfold h', h1. by rewrite !lookup_insert_ne. }
  set (d' := fresh (dom h')).
  assert (h' !! d' = None) as Hd' by apply fresh_store_None.
  exists d, (set_store h1 s), d', (set_store (<[d' := ODict m]> h')
                                    (set_store h' (set_store h1 s))).
  eexists. split_and!.
  - by apply (read_commit_hit _ _ full _ d0).
  - rewrite Hs1. apply lookup_insert_eq.
  - rewrite Hs1, Happ.
    rewrite (read_commit_hit _ _ full msg d0 m);
      destruct s; simpl in *; done.
  - unfold view. destruct s; simpl. rewrite lookup_insert_eq. done.
  - rewrite lookup_omap, Hk. simpl.
    assert (a ≠ d') as Had'.
    { intros Heq. rewrite <-Heq in Hd'. unfold h' in Hd'.
      by rewrite lookup_insert_eq in Hd'. }
    destruct s; simpl. rewrite lookup_insert_ne by done.
    unfold h'. by rewrite lookup_insert_eq.
Qed.
End read_commit_props.

Lemma read_commit_copies_dict_witness :
  ∃ d s1,
    Storage.read_commit Ex.decode Ex.git Ex.A Ex.s_read = (Ok ("first", d), s1) ∧
    (∃ d' s2,
       Storage.read_commit Ex.decode Ex.git Ex.A
           (set_store (dict_setitem d "author" ["you"] (s_store s1)) s1)
         = (Ok ("first", d'), s2) ∧
       view (s_store s2) d' = view (s_store s1) d) ∧
    ∃ d' s2,
      Storage.read_commit Ex.decode Ex.git Ex.A
          (set_store (dict_delitem d "author" (s_store s1)) s1)
        = (Ok ("first", d'), s2) ∧
      view (s_store s2) d' = view (s_store s1) d.
Proof.
  destruct (read_commit_copies_dict Ex.decode Ex.git Ex.s_read Ex.A Ex.A
              "first" 2%nat {[ "author" := 1%nat; "tree" := 0%nat ]})
    as (d & s1 & Hread & _ & Hfresh & Hd0 & _ & _ & Hagain).
  - discriminate.
  - vm_compute; reflexivity.
  - vm_compute; reflexivity.
  - apply (bool_decide_unpack _); vm_compute; exact I.
  - vm_compute; reflexivity.
  - vm_compute; reflexivity.
  - apply (bool_decide_unpack _); vm_compute; exact I.
  - exists d, s1. split; [exact Hread|]. split.
    + apply Hagain. intros l Hl Hsome. apply dict_setitem_frame.
      * exact Hl.
      * exact Hsome.
    + apply Hagain. intros l Hl _. apply dict_delitem_frame. exact Hl.
Defined.

(** C7 as stated fails for the lists of values: a caller that appends
    to the list of a header of the dict it was given changes what the
    next [read_commit] of the revision returns for that header. *)
Lemma read_commit_append_shows :
  let r1 := Storage.read_commit Ex.decode Ex.git Ex.A Ex.s_read in
  let s1 := r1.2 in
  let r2 := Storage.read_commit Ex.decode Ex.git Ex.A
              (set_store (list_append 1%nat "x" (s_store s1)) s1) in
  r1.1 = Ok ("first", 4%nat) ∧
  s_store s1 !! 4%nat = Some (ODict {[ "author" := 1%nat; "tree" := 0%nat ]}) ∧
  view (s_store s1) 4%nat =
    Some {[ "author" := ["me"]; "tree" := [Ex.sha "eeeee"] ]} ∧
  r2.1 = Ok ("first", 5%nat) ∧
  view (s_store r2.2) 5%nat =
    Some {[ "author" := ["me"; "x"]; "tree" := [Ex.sha "eeeee"] ]}.
Proof. vm_compute. split_and!; reflexivity. Qed.

Lemma read_commit_shares_lists_witness :
  ∃ d s1 d' s2 v,
    Storage.read_commit Ex.decode Ex.git Ex.A Ex.s_read = (Ok ("first", d), s1) ∧
    s_store s1 !! d = Some (ODict {[ "author" := 1%nat; "tree" := 0%nat ]}) ∧
    Storage.read_commit Ex.decode Ex.git Ex.A
        (set_store (list_append 1%nat "x" (s_store s1)) s1)
      = (Ok ("first", d'), s2) ∧
    view (s_store s2) d' = Some v ∧
    v !! "author" = Some (["me"] ++ ["x"]).
Proof.
  apply (read_commit_shares_lists Ex.decode Ex.git Ex.s_read Ex.A Ex.A
           "first" 2%nat {[ "author" := 1%nat; "tree" := 0%nat ]}
           "author" 1%nat ["me"] "x").
  - discriminate.
  - vm_compute; reflexivity.
  - vm_compute; reflexivity.
  - apply (bool_decide_unpack _); vm_compute; exact I.
  - vm_compute; reflexivity.
  - vm_compute; reflexivity.
  - vm_compute; reflexivity.
  - vm_compute; reflexivity.
Defined.

(** ** More on the bounded FIFO dictionary *)

Section sized_dict_more.
Context {K V : Type} `{Countable K}.
Implicit Types (d : SizedDict.t K V) (m : gmap K V) (fifo : list K).

(** What the eviction loop does when it ends: it has removed a front
    part of the deque, and if it removed anything the rest is exactly as
    long as the bound. *)
Lemma evict_spec n fifo m fifo' m' :
  SizedDict.evict n fifo m = (Ok tt, (fifo', m')) →
  ∃ gone, fifo = gone ++ fifo' ∧
          m' = foldl (λ acc k, delete k acc) m gone ∧
          Z.of_nat (length fifo') ≤ n ∧
          (gone ≠ [] → Z.of_nat (length fifo') = n).
Proof.
  revert m. induction fifo as [|k fifo IH]; intros m; simpl.
  - case_bool_decide; [done|]. intros [= <- <-]. exists [].
    split_and!; [done..|simpl; lia|done].
  - case_bool_decide as Hlen.
    + destruct (m !! k); [|done].
      intros (gone & -> & -> & Hle & Hfull)%IH.
      exists (k :: gone). split_and!; [done..|]. intros _.
      destruct gone as [|g gone]; [|by apply Hfull].
      simpl in *. lia.
    + intros [= <- <-]. exists []. split_and!; [done..|simpl in *; lia|done].
Qed.

Lemma lookup_foldl_delete m (gone : list K) k :
  foldl (λ acc k, delete k acc) m gone !! k =
    if decide (k ∈ gone) then None else m !! k.
Proof.
  revert m. induction gone as [|g gone IH]; intros m; cbn [foldl].
  - destruct (decide (k ∈ [])) as [Hin|]; [by apply elem_of_nil in Hin|done].
  - rewrite IH. destruct (decide (k ∈ gone)) as [Hin|Hnin].
    + destruct (decide (k ∈ g :: gone)) as [|Hin']; [done|].
      exfalso. apply Hin'. by right.
    + rewrite lookup_delete. destruct (decide (g = k)) as [->|Hne].
      * destruct (decide (k ∈ k :: gone)) as [|Hin']; [done|].
        exfalso. apply Hin'. left.
      * destruct (decide (k ∈ g :: gone)) as [Hin'|]; [|done].
        apply elem_of_cons in Hin' as [?|?]; congruence.
Qed.

(** X3.  A [SizedDict] never holds more items than its bound: after an
    assignment that returns, the number of items is at most [max_size],
    the key that was set is there with its value when the bound is at
    least 1, and every other item is one the dictionary had before,
    unchanged. *)
Theorem sized_dict_bounded d k v d' :
  SizedDict.reachable d →
  SizedDict.setitem k v d = (Ok tt, d') →
  Z.of_nat (size (SizedDict.data d')) ≤ SizedDict.max_size d' ∧
  SizedDict.max_size d' = SizedDict.max_size d ∧
  (1 ≤ SizedDict.max_size d → SizedDict.data d' !! k = Some v) ∧
  (∀ k' x, k' ≠ k → SizedDict.data d' !! k' = Some x →
           SizedDict.data d !! k' = Some x).
Proof.
  intros Hreach Hset.
  pose proof (reachable_inv _ Hreach) as Hinv.
  pose proof (inv_tracks _ Hinv) as Ht.
  revert Hset. unfold SizedDict.setitem. case_bool_decide; simpl; [|done].
  set (fifo1 := if SizedDict.contains d k then _ else _).
  assert (SizedDict.tracks fifo1 (<[k := v]> (SizedDict.data d))) as Ht1.
  { unfold fifo1, SizedDict.contains. case_bool_decide as Hk.
    - by apply tracks_insert_present.
    - apply tracks_insert_absent; [done|]. by apply eq_None_not_Some. }
  assert ((∃ front, fifo1 = front ++ [k]) ∨
          Z.of_nat (length fifo1) ≤ SizedDict.max_size d) as Hshape.
  { unfold fifo1, SizedDict.contains. case_bool_decide as Hk.
    - right. destruct Hinv as [[_ Hin] Hmax]. apply Hmax.
      apply Hin in Hk. intros Hnil. rewrite Hnil in Hk.
      by apply elem_of_nil in Hk.
    - left. by exists (SizedDict.key_fifo d). }
  destruct (SizedDict.evict _ _ _) as [[[]|e] [fifo2 m2]] eqn:He; [|done].
  case_bool_decide; simpl; [|done]. intros [= <-]. simpl.
  pose proof (evict_tracks _ _ _ _ _ Ht1 He) as [Ht2 Hle].
  apply evict_spec in He as (gone & Hfifo & -> & _ & Hfull).
  split_and!.
  - by rewrite (tracks_size _ _ Ht2).
  - done.
  - intros Hmax. rewrite lookup_foldl_delete.
    assert (k ∈ fifo2) as Hk2.
    { destruct (decide (gone = [])) as [->|Hgone].
      - simpl in Hfifo. subst fifo2. destruct Ht1 as [_ Hin].
        apply Hin. rewrite lookup_insert_eq. eauto.
      - specialize (Hfull Hgone).
        destruct Hshape as [[front Hsnoc]|Hfit].
        + destruct fifo2 as [|x fifo2 _] using rev_ind;
            [simpl in Hfull; lia|].
          rewrite Hsnoc, app_assoc in Hfifo.
          apply app_inj_tail in Hfifo as [_ <-].
          apply elem_of_app. right. left.
        + exfalso. rewrite Hfifo, length_app in Hfit.
          destruct gone; [done|]. simpl in Hfit. lia. }
    assert (k ∉ gone) as Hk.
    { intros Hin. destruct Ht1 as [Hnd _]. rewrite Hfifo in Hnd.
      apply NoDup_app in Hnd as (_ & Hdisj & _). by apply (Hdisj k). }
    destruct (decide (k ∈ gone)); [done|]. apply lookup_insert_eq.
  - intros k' x Hne. rewrite lookup_foldl_delete.
    destruct (decide (k' ∈ gone)); [done|]. by rewrite lookup_insert_ne.
Qed.

(** X4.  A [SizedDict] made with a negative bound cannot be assigned
    to: the loop that makes room empties the deque and then takes from the
    empty deque, so every assignment raises [IndexError]. *)
Theorem sized_dict_negative_bound (n : Z) (k : K) (v : V) :
  n < 0 →
  ∃ d', SizedDict.setitem k v (SizedDict.init n) = (Raise IndexError, d') ∧
        SizedDict.data d' = ∅ ∧ SizedDict.key_fifo d' = [].
Proof.
  intros Hn. unfold SizedDict.setitem, SizedDict.init, SizedDict.len,
    SizedDict.contains. simpl.
  rewrite map_size_empty. simpl.
  rewrite bool_decide_eq_false_2 by (rewrite lookup_empty; by intros []).
  simpl. rewrite bool_decide_eq_true_2 by lia.
  rewrite lookup_insert_eq. rewrite bool_decide_eq_true_2 by lia.
  eexists. split; [done|]. simpl. split; [|done].
  by rewrite delete_insert_eq, delete_empty.
Qed.

(** X5.  First in, first out: when a new key is set in a dictionary
    that is full, the key that leaves is the one that was set first among
    those it holds; all other items stay. *)
Theorem sized_dict_evicts_oldest d k v k0 rest :
  SizedDict.reachable d →
  SizedDict.data d !! k = None →
  SizedDict.key_fifo d = k0 :: rest →
  Z.of_nat (length (SizedDict.key_fifo d)) = SizedDict.max_size d →
  ∃ d', SizedDict.setitem k v d = (Ok tt, d') ∧
        SizedDict.key_fifo d' = rest ++ [k] ∧
        SizedDict.data d' !! k0 = None ∧
        SizedDict.data d' !! k = Some v ∧
        ∀ k', k' ≠ k0 → k' ≠ k →
              SizedDict.data d' !! k' = SizedDict.data d !! k'.
Proof.
  intros Hreach Hk Hfifo Hfull.
  pose proof (reachable_inv _ Hreach) as Hinv.
  assert (k0 ≠ k) as Hne.
  { intros ->. destruct Hinv as [[_ Hin] _].
    destruct (Hin k) as [[x Hx] _]; [rewrite Hfifo; left|]. congruence. }
  eexists. split; [by apply setitem_full|]. simpl. split_and!.
  - done.
  - apply lookup_delete_eq.
  - rewrite lookup_delete_ne by done. apply lookup_insert_eq.
  - intros k' Hk0 Hk'. by rewrite lookup_delete_ne, lookup_insert_ne.
Qed.
End sized_dict_more.

Lemma sized_dict_bounded_witness :
  ∃ d' : SizedDict.t string Z,
    SizedDict.setitem "j" 5 Ex.dk = (Ok tt, d') ∧
    Z.of_nat (size (SizedDict.data d')) ≤ 2 ∧
    SizedDict.data d' !! "j" = Some 5.
Proof.
  exists (SizedDict.mk {[ "k" := 0; "j" := 5 ]} ["k"; "j"] 2).
  assert (SizedDict.setitem "j" 5 Ex.dk
          = (Ok tt, SizedDict.mk {[ "k" := 0; "j" := 5 ]} ["k"; "j"] 2)) as Hset
    by (vm_compute; reflexivity).
  assert (SizedDict.reachable Ex.dk) as Hreach.
  { apply (SizedDict.reach_set (SizedDict.init 2) "k" 0);
      [apply SizedDict.reach_init|vm_compute; reflexivity]. }
  destruct (sized_dict_bounded Ex.dk "j" 5 _ Hreach Hset)
    as (Hsize & _ & Hget & _).
  split; [exact Hset|]. split; [exact Hsize|]. apply Hget. simpl. lia.
Defined.

Lemma sized_dict_negative_bound_witness :
  ∃ d' : SizedDict.t string Z,
    SizedDict.setitem "k" 0 (SizedDict.init (-1)) = (Raise IndexError, d') ∧
    SizedDict.data d' = ∅ ∧ SizedDict.key_fifo d' = [].
Proof. apply (sized_dict_negative_bound (-1) "k" 0). lia. Defined.

Lemma sized_dict_evicts_oldest_witness :
  ∃ d' : SizedDict.t string Z,
    SizedDict.setitem "c" 3 (SizedDict.mk {[ "a" := 1; "b" := 2 ]} ["a"; "b"] 2)
      = (Ok tt, d') ∧
    SizedDict.key_fifo d' = ["b"] ++ ["c"] ∧
    SizedDict.data d' !! "a" = None ∧
    SizedDict.data d' !! "c" = Some 3 ∧
    ∀ k', k' ≠ "a" → k' ≠ "c" →
      SizedDict.data d' !! k' =
      SizedDict.data (SizedDict.mk {[ "a" := 1; "b" := 2 ]} ["a"; "b"] 2) !! k'.
Proof.
  apply (sized_dict_evicts_oldest
           (SizedDict.mk {[ "a" := 1 ; "b" := 2 ]} ["a"; "b"] 2) "c" 3 "a" ["b"]).
  - apply (SizedDict.reach_set (SizedDict.mk {[ "a" := 1 ]} ["a"] 2) "b" 2);
      [|vm_compute; reflexivity].
    apply (SizedDict.reach_set (SizedDict.init 2) "a" 1);
      [apply SizedDict.reach_init|vm_compute; reflexivity].
  - vm_compute; reflexivity.
  - reflexivity.
  - reflexivity.
Defined.

(** ** More on the builder *)

Section builder_more.
Implicit Types (db : gmap string commit) (sdb : gmap Z (list string)).
Implicit Types (lines : list (list string)) (ps : list string).

(** What a round of the loop that returns says about the line: its
    revision has had no line yet, and no parent is that revision or a
    revision whose line has been read. *)
Lemma build_step_line hr lines db sdb rev ps db' sdb' :
  build_inv lines db sdb →
  build_step hr (db, sdb) (length lines) (rev :: ps) = Ok (db', sdb') →
  rev ∉ heads lines ∧
  (∀ p, p ∈ ps → p ≠ rev ∧ p ∉ heads lines) ∧
  ∃ ch rh,
    (∀ x, x ∈ ch ↔ ∃ c, db !! rev = Some c ∧ x ∈ c_children c) ∧
    (∀ h, h ∈ rh ↔ (rev ∈ hr ∧ h = rev) ∨
                   ∃ c, db !! rev = Some c ∧ h ∈ c_rheads c) ∧
    add_children rev rh
      (<[rev := Commit ch ps (Z.of_nat (length lines) + 1) rh true]> db) ps
      = Ok db'.
Proof.
  intros Hinv. unfold build_step.
  destruct (__rev_key rev) as [key|] eqn:Hkey; simpl; [|done].
  assert (∀ ch rh db1,
    db1 = <[rev := Commit ch ps (Z.of_nat (length lines) + 1) rh true]> db →
    add_children rev rh db1 ps = Ok db' →
    ∀ p, p ∈ ps → p ≠ rev ∧ p ∉ heads lines) as Hparents.
  { intros ch rh db1 -> [_ Hin]%add_children_spec p Hp.
    destruct (Hin p Hp) as [Hf _]. split.
    - intros ->. by rewrite lookup_insert_eq in Hf.
    - intros (i & ps' & Hi)%elem_of_heads.
      destruct (bi_final _ _ _ Hinv _ _ _ Hi) as (c & Hc & Hcf & _).
      destruct (decide (p = rev)) as [->|Hne'].
      + by rewrite lookup_insert_eq in Hf.
      + rewrite lookup_insert_ne, Hc in Hf by done. simpl in Hf. congruence. }
  destruct (db !! rev) as [c|] eqn:Hc; simpl.
  - unfold assert. case_bool_decide as Hch; simpl; [done|].
    case_bool_decide as Hps; simpl; [|done].
    case_bool_decide as Hord; simpl; [|done].
    assert (c_frozen c = false) as Hfr.
    { destruct (c_frozen c) eqn:Hfr; [|done].
      destruct (bi_frozen _ _ _ Hinv _ _ Hc Hfr) as (i & _ & Ho). lia. }
    assert (rev ∉ heads lines) as Hrev.
    { intros (i & ps' & Hi)%elem_of_heads.
      destruct (bi_final _ _ _ Hinv _ _ _ Hi) as (c' & Hc' & Hf' & _).
      congruence. }
    rewrite Hfr.
    case_bool_decide as Hhead; simpl;
      (destruct (add_children _ _ _ _) as [db''|] eqn:Hadd; simpl; [|done]);
      intros [= <- <-]; (split; [done|]);
      (split; [by eapply Hparents|]);
      eexists _, _; (split_and!; [| |exact Hadd]).
    + intros x. naive_solver.
    + intros h. rewrite elem_of_union, elem_of_singleton. naive_solver.
    + intros x. naive_solver.
    + intros h. naive_solver.
  - assert (rev ∉ heads lines) as Hrev.
    { intros (i & ps' & Hi)%elem_of_heads.
      destruct (bi_final _ _ _ Hinv _ _ _ Hi) as (c' & Hc' & _).
      congruence. }
    case_bool_decide as Hhead; simpl;
      (destruct (add_children _ _ _ _) as [db''|] eqn:Hadd; simpl; [|done]);
      intros [= <- <-]; (split; [done|]);
      (split; [by eapply Hparents|]);
      eexists _, _; (split_and!; [| |exact Hadd]).
    + intros x. set_solver.
    + intros h. set_solver.
    + intros x. set_solver.
    + intros h. set_solver.
Qed.

Lemma build_loop_later hr rest lines db sdb db' sdb' :
  build_inv lines db sdb → parents_later lines →
  build_loop hr (length lines) rest (db, sdb) = Ok (db', sdb') →
  parents_later (lines ++ rest).
Proof.
  revert lines db sdb. induction rest as [|revs rest IH];
    intros lines db sdb Hinv Hlater; cbn [build_loop].
  - intros _. by rewrite app_nil_r.
  - destruct (build_step _ _ _ _) as [[db1 sdb1]|] eqn:Hstep;
      cbn [rbind]; [|done].
    intros Hloop. rewrite cons_middle, app_assoc.
    pose proof (build_step_inv _ _ _ _ _ _ _ Hinv Hstep) as Hinv1.
    eapply IH; [exact Hinv1| |by rewrite length_app, Nat.add_1_r].
    destruct revs as [|rev ps]; [done|].
    destruct (build_step_line _ _ _ _ _ _ _ _ Hinv Hstep)
      as (Hrev & Hps & _).
    intros i j r qs p qs' Hi Hp Hj.
    apply lookup_snoc_Some in Hi as [[Hilt Hi]|[-> [= -> ->]]];
      apply lookup_snoc_Some in Hj as [[Hjlt Hj]|[-> [= -> ->]]].
    + by eapply Hlater.
    + done.
    + exfalso. destruct (Hps p Hp) as [_ Hnh]. apply Hnh.
      apply elem_of_heads. eauto.
    + exfalso. by destruct (Hps p Hp).
Qed.

(** The lines the builder has accepted are in the order of the
    ancestry: parents after their children. *)
Lemma build_parents_later refs out rc :
  _build_rev_cache refs out = Ok rc → parents_later (parse_rev_list out).
Proof.
  unfold _build_rev_cache.
  destruct (match parse_rev_list out with [] => _ | _ => _ end)
    as [[y o]|]; simpl; [|done].
  destruct (build_loop _ _ _ _) as [[db sdb']|] eqn:Hloop; simpl; [|done].
  intros _.
  apply (build_loop_later _ _ [] ∅ ∅) in Hloop; [done|apply build_inv_nil|].
  intros i j r qs p qs' Hi. by rewrite lookup_nil in Hi.
Qed.

(** X6.  [_build_rev_cache] returns a snapshot only for a listing in
    which every line names a revision, no revision has two lines, and the
    line of a parent comes after the lines of its children; the revision of
    every line is then a key of [rev_dict]. *)
Theorem build_rev_cache_accepts refs out rc :
  _build_rev_cache refs out = Ok rc →
  (∀ line, line ∈ parse_rev_list out → line ≠ []) ∧
  NoDup (heads (parse_rev_list out)) ∧
  parents_later (parse_rev_list out) ∧
  (∀ r, r ∈ heads (parse_rev_list out) → is_Some (rev_dict rc !! r)).
Proof.
  intros Hbuild.
  destruct (build_loop_of _ _ _ Hbuild) as (sdb & Hinv & _).
  split_and!.
  - apply (bi_nonempty _ _ _ Hinv).
  - apply (bi_nodup _ _ _ Hinv).
  - by eapply build_parents_later.
  - intros r (i & ps & Hi)%elem_of_heads.
    destruct (bi_final _ _ _ Hinv _ _ _ Hi) as (c & Hc & _). eauto.
Qed.
End builder_more.

Lemma build_rev_cache_accepts_witness :
  NoDup (heads (parse_rev_list (rev_list_out Ex.git))) ∧
  parents_later (parse_rev_list (rev_list_out Ex.git)).
Proof.
  destruct (build_rev_cache_accepts Ex.refs (rev_list_out Ex.git) Ex.rc)
    as (_ & Hnd & Hlater & _).
  - vm_compute; reflexivity.
  - split; [exact Hnd|exact Hlater].
Defined.

(** ** Reachable heads *)

Section rheads_inv_props.
Implicit Types (db : gmap string commit) (sdb : gmap Z (list string)).
Implicit Types (lines : list (list string)) (ps : list string).

Lemma build_step_rheads hr lines db sdb revs db' sdb' :
  build_inv lines db sdb → rheads_inv hr db →
  build_step hr (db, sdb) (length lines) revs = Ok (db', sdb') →
  rheads_inv hr db'.
Proof.
  intros Hinv Hrh Hstep. destruct revs as [|rev ps]; [done|].
  destruct (build_step_line _ _ _ _ _ _ _ _ Hinv Hstep)
    as (Hrev & Hps & ch & rh & Hch & Hrhc & Hadd).
  apply add_children_spec in Hadd as [Hout Hin].
  set (db1 := <[rev := _]> db) in *.
  assert (rev ∉ ps) as Hrevps by (intros Hp; by destruct (Hps _ Hp)).
  assert (∀ x, x ∈ heads lines → db' !! x = db !! x) as Hold.
  { intros x Hx. rewrite Hout by (intros Hp; by destruct (Hps _ Hp)).
    unfold db1. rewrite lookup_insert_ne; [done|]. by intros <-. }
  assert (∀ k c x, db !! k = Some c → x ∈ c_children c → x ∈ heads lines)
    as Hchild.
  { intros k c x Hk Hx.
    destruct (bi_children _ _ _ Hinv _ _ _ Hk Hx) as (i & qs & Hi & _).
    apply elem_of_heads. eauto. }
  assert (db' !! rev = Some (Commit ch ps (Z.of_nat (length lines) + 1) rh true))
    as Hrev'.
  { rewrite Hout by done. unfold db1. apply lookup_insert_eq. }
  assert (∀ c0, db !! rev = Some c0 → c_frozen c0 = false) as Hrevfr.
  { intros c0 Hc0. destruct (c_frozen c0) eqn:Hfr; [|done]. exfalso.
    destruct (bi_frozen _ _ _ Hinv _ _ Hc0 Hfr) as (i & Hi & _).
    apply Hrev, elem_of_heads. eauto. }
  intros k c h Hk. destruct (decide (k ∈ ps)) as [Hkp|Hkp].
  - destruct (Hin k Hkp) as [Hf Hk']. rewrite Hk in Hk'.
    destruct (Hps _ Hkp) as [Hkrev _].
    unfold db1 in Hk', Hf. rewrite lookup_insert_ne in Hk', Hf by done.
    simplify_eq/=. rewrite elem_of_union. split.
    + intros [Hh|Hh].
      * destruct (db !! k) as [c0|] eqn:Hc0; simpl in *; [|set_solver].
        apply (Hrh _ _ _ Hc0) in Hh as [(Hfr & _)|(x & cx & Hx & Hcx & Hhx)];
          [congruence|].
        right. exists x, cx. split_and!; [set_solver| |done].
        rewrite Hold; [done|]. by apply (Hchild k c0).
      * right. eexists rev, _. split_and!; [set_solver|exact Hrev'|done].
    + intros [(Hfr & _)|(x & cx & Hx & Hcx & Hhx)]; [done|].
      apply elem_of_union in Hx as [->%elem_of_singleton|Hx].
      * right. rewrite Hrev' in Hcx. by simplify_eq/=.
      * left. destruct (db !! k) as [c0|] eqn:Hc0; simpl in *; [|set_solver].
        apply (Hrh _ _ _ Hc0). right. exists x, cx. split_and!; [done| |done].
        rewrite <-Hold; [done|]. by apply (Hchild k c0).
  - rewrite Hout in Hk by done. unfold db1 in Hk.
    rewrite lookup_insert in Hk. case_decide as Hkr; simplify_eq/=.
    + rewrite Hrhc. split.
      * intros [[? ->]|(c0 & Hc0 & Hh)]; [by left|].
        apply (Hrh _ _ _ Hc0) in Hh as [(Hfr & _)|(x & cx & Hx & Hcx & Hhx)].
        { rewrite (Hrevfr _ Hc0) in Hfr. done. }
        right. exists x, cx. split_and!; [apply Hch; eauto| |done].
        rewrite Hold; [done|]. by apply (Hchild k c0).
      * intros [(_ & ? & ->)|(x & cx & Hx & Hcx & Hhx)]; [by left|].
        apply Hch in Hx as (c0 & Hc0 & Hx). right. exists c0. split; [done|].
        apply (Hrh _ _ _ Hc0). right. exists x, cx. split_and!; [done| |done].
        rewrite <-Hold; [done|]. by apply (Hchild k c0).
    + rewrite (Hrh _ _ _ Hk). split.
      * intros [?|(x & cx & Hx & Hcx & Hhx)]; [by left|].
        right. exists x, cx. split_and!; [done| |done].
        rewrite Hold; [done|]. by apply (Hchild k c).
      * intros [?|(x & cx & Hx & Hcx & Hhx)]; [by left|].
        right. exists x, cx. split_and!; [done| |done].
        rewrite <-Hold; [done|]. by apply (Hchild k c).
Qed.

Lemma build_loop_rheads hr rest lines db sdb db' sdb' :
  build_inv lines db sdb → rheads_inv hr db →
  build_loop hr (length lines) rest (db, sdb) = Ok (db', sdb') →
  rheads_inv hr db'.
Proof.
  revert lines db sdb. induction rest as [|revs rest IH];
    intros lines db sdb Hinv Hrh; cbn [build_loop].
  - by intros [= <- <-].
  - destruct (build_step _ _ _ _) as [[db1 sdb1]|] eqn:Hstep;
      cbn [rbind]; [|done].
    intros Hloop.
    eapply (IH (lines ++ [revs])); [by eapply build_step_inv| |].
    + by eapply build_step_rheads.
    + by rewrite length_app, Nat.add_1_r.
Qed.

Lemma build_rheads_inv refs out rc :
  _build_rev_cache refs out = Ok rc →
  rheads_inv (head_revs_of refs) (rev_dict rc).
Proof.
  unfold _build_rev_cache.
  destruct (match parse_rev_list out with [] => _ | _ => _ end)
    as [[y o]|]; simpl; [|done].
  destruct (build_loop _ _ _ _) as [[db sdb']|] eqn:Hloop; simpl; [|done].
  intros ->%RevCache_init_Ok. simpl.
  apply (build_loop_rheads _ _ [] ∅ ∅) in Hloop; [done|apply build_inv_nil|].
  intros k c h Hk. by rewrite lookup_empty in Hk.
Qed.

Lemma descendant_via_child db r x c h :
  db !! r = Some c → x ∈ c_children c → descendant db x h → descendant db r h.
Proof.
  intros Hr Hx Hd. induction Hd as [cx h Hcx Hh|y cy h Hd IH Hy Hh].
  - eapply desc_step; [by eapply desc_child|done..].
  - by eapply desc_step.
Qed.

End rheads_inv_props.

Section rheads_props.
Variable set_iter : gset string → list string.
Variable dict_items : ∀ V : Type, gmap string V → list (string * V).
Hypothesis set_iter_perm : ∀ X, set_iter X ≡ₚ elements X.

(** X7.  In a snapshot built from a listing in which every parent has
    its line, the reachable heads of a revision are exactly the heads of
    local branches that are the revision itself or are reached from it
    along child edges; these are the revisions [get_branch_contains]
    returns without [resolve]. *)
Theorem rheads_are_reachable_heads refs out rc r c h :
  parents_listed (parse_rev_list out) →
  _build_rev_cache refs out = Ok rc →
  rev_dict rc !! r = Some c →
  (h ∈ c_rheads c ↔
     h ∈ head_revs_of refs ∧ (h = r ∨ descendant (rev_dict rc) r h)) ∧
  ∃ l, get_branch_contains set_iter dict_items rc r false = inr l ∧
       (h ∈ l ↔ h ∈ c_rheads c).
Proof using set_iter_perm.
  intros Hwf Hbuild Hc. split.
  2:{ unfold get_branch_contains. rewrite Hc. eexists. split; [done|].
      by rewrite set_iter_perm, elem_of_elements. }
  pose proof (build_rheads_inv _ _ _ Hbuild) as Hrh.
  pose proof (build_parents_later _ _ _ Hbuild) as Hlater.
  destruct (build_loop_of _ _ _ Hbuild) as (sdb & Hinv & _).
  set (db := rev_dict rc) in *. set (hr := head_revs_of refs) in *.
  assert (∀ k ck, db !! k = Some ck → c_frozen ck = true) as Hfinal
    by (intros k ck; by eapply build_inv_final).
  split.
  - (* the heads recorded are heads reached *)
    destruct (bi_frozen _ _ _ Hinv _ _ Hc (Hfinal _ _ Hc)) as (j & Hj & _).
    revert r c h Hc Hj.
    induction (lt_wf j) as [j _ IH]. intros r c h Hc Hj Hh.
    apply (Hrh _ _ _ Hc) in Hh as [(_ & ? & ->)|(x & cx & Hx & Hcx & Hhx)];
      [by auto|].
    destruct (bi_children _ _ _ Hinv _ _ _ Hc Hx) as (i & qs & Hi & Hrq).
    destruct (bi_final _ _ _ Hinv _ _ _ Hi) as (cx' & Hcx' & _ & _ & Hpx).
    assert (cx' = cx) as -> by congruence. subst qs.
    assert (i < j)%nat as Hij by (by eapply Hlater).
    destruct (IH i Hij x cx h Hcx Hi Hhx) as [Hhead [->|Hdesc]].
    + split; [done|]. right. by eapply desc_child.
    + split; [done|]. right. by eapply descendant_via_child.
  - (* the heads reached are recorded *)
    intros [Hhead [->|Hdesc]].
    + apply (Hrh _ _ _ Hc). left. split_and!; [by eapply Hfinal|done..].
    + assert (∀ y cy, descendant db r y → db !! y = Some cy →
                      c_rheads cy ⊆ c_rheads c) as Hmono.
      { intros y cy Hd. revert cy.
        induction Hd as [c0 y Hc0 Hy|z cz y Hd IHd Hz Hy]; intros cy Hcy h' Hh'.
        - assert (c0 = c) as -> by congruence.
          apply (Hrh _ _ _ Hc). right. eauto.
        - apply (IHd cz Hz). apply (Hrh _ _ _ Hz). right. eauto. }
      assert (is_Some (db !! h)) as [ch Hch].
      { inversion Hdesc as [c0 ? Hc0 Hy|z cz ? Hd Hz Hy]; subst.
        - destruct (bi_children _ _ _ Hinv _ _ _ Hc0 Hy) as (i & qs & Hi & _).
          destruct (bi_final _ _ _ Hinv _ _ _ Hi) as (? & ? & _). eauto.
        - destruct (bi_children _ _ _ Hinv _ _ _ Hz Hy) as (i & qs & Hi & _).
          destruct (bi_final _ _ _ Hinv _ _ _ Hi) as (? & ? & _). eauto. }
      apply (Hmono h ch Hdesc Hch). apply (Hrh _ _ _ Hch). left.
      split_and!; [by eapply Hfinal|done..].
Qed.
End rheads_props.

Lemma rheads_are_reachable_heads_witness :
  (Ex.D ∈ ({[Ex.C; Ex.D]} : gset string) ↔
     Ex.D ∈ head_revs_of Ex.refs ∧
     (Ex.D = Ex.A ∨ descendant (rev_dict Ex.rc) Ex.A Ex.D)) ∧
  ∃ l, get_branch_contains elements Ex.items Ex.rc Ex.A false = inr l ∧
       (Ex.D ∈ l ↔ Ex.D ∈ ({[Ex.C; Ex.D]} : gset string)).
Proof.
  assert (parents_listed (parse_rev_list (rev_list_out Ex.git))) as H1
    by (apply (bool_decide_unpack _); vm_compute; exact I).
  assert (_build_rev_cache Ex.refs (rev_list_out Ex.git) = Ok Ex.rc) as H2
    by (vm_compute; reflexivity).
  assert (rev_dict Ex.rc !! Ex.A
          = Some (Commit {[Ex.B]} [] 4 {[Ex.C; Ex.D]} true)) as H3
    by (vm_compute; reflexivity).
  exact (rheads_are_reachable_heads elements Ex.items (λ X, reflexivity _)
           Ex.refs (rev_list_out Ex.git) Ex.rc Ex.A _ Ex.D H1 H2 H3).
Defined.

(** ** The ends of the history *)

Section ends_props.
Implicit Types (db : gmap string commit) (lines : list (list string)).

Lemma RevCache_init_cases y o rd refs sd rc :
  RevCache_init y o rd refs sd = Ok rc →
  (is_Some y ∧ is_Some o ∧ rd ≠ ∅ ∧ refs ≠ ∅) ∨ (rd = ∅ ∧ refs = ∅).
Proof.
  unfold RevCache_init.
  destruct (bool_decide (is_Some y)) eqn:Hy; simpl.
  - destruct (bool_decide (is_Some o)) eqn:Ho; simpl.
    + destruct (bool_decide (rd = ∅)) eqn:Hrd; simpl.
      * destruct (bool_decide (refs = ∅)) eqn:Hrefs; simpl.
        -- apply bool_decide_eq_true in Hrd, Hrefs. auto.
        -- by rewrite !andb_false_r.
      * destruct (bool_decide (refs = ∅)) eqn:Hrefs; simpl.
        -- by rewrite !andb_false_r.
        -- apply bool_decide_eq_true in Hy, Ho.
           apply bool_decide_eq_false in Hrd, Hrefs. auto.
    + destruct (bool_decide (rd = ∅)) eqn:Hrd,
        (bool_decide (refs = ∅)) eqn:Hrefs; simpl;
        rewrite ?andb_false_r; try done.
      apply bool_decide_eq_true in Hrd, Hrefs. auto.
  - destruct (bool_decide (rd = ∅)) eqn:Hrd,
      (bool_decide (refs = ∅)) eqn:Hrefs; simpl;
      rewrite ?andb_false_r; try done.
    apply bool_decide_eq_true in Hrd, Hrefs. auto.
Qed.

Lemma list_last_lookup {A} (l : list A) (x d : A) :
  (x :: l) !! length l = Some (List.last (x :: l) d).
Proof.
  revert x. induction l as [|y l IH]; intros x; [done|].
  change (List.last (x :: y :: l) d) with (List.last (y :: l) d).
  simpl. apply IH.
Qed.

(** The fields of the snapshot, from the run of the builder *)
Lemma build_fields refs out rc :
  _build_rev_cache refs out = Ok rc →
  ∃ sdb, build_inv (parse_rev_list out) (rev_dict rc) sdb ∧
    refs_dict rc = refs ∧
    match parse_rev_list out with
    | [] => youngest_rev rc = None ∧ oldest_rev rc = None ∧
            refs = ∅ ∧ rev_dict rc = ∅ ∧ srev_dict rc = SrevDict ∅
    | first :: rest =>
        youngest_rev rc = head first ∧
        oldest_rev rc = head (List.last (first :: rest) first) ∧
        is_Some (youngest_rev rc) ∧ is_Some (oldest_rev rc) ∧
        refs ≠ ∅ ∧ rev_dict rc ≠ ∅
    end.
Proof.
  intros Hbuild. destruct (build_loop_of _ _ _ Hbuild) as (sdb & Hinv & _ & Hrefs).
  exists sdb. split; [done|]. split; [done|].
  revert Hbuild Hinv. unfold _build_rev_cache.
  destruct (parse_rev_list out) as [|first rest] eqn:Hlines.
  - simpl. unfold freeze_sdb.
    rewrite bool_decide_eq_false_2 by (rewrite map_size_empty; lia).
    intros Hinit _. pose proof (RevCache_init_Ok _ _ _ _ _ _ Hinit) as ->.
    simpl. apply RevCache_init_cases in Hinit as [(Hy & _)|[_ ?]]; [|done].
    by destruct Hy.
  - destruct (first_item first) as [y|] eqn:Hy; cbn [rbind]; [|done].
    destruct (first_item (List.last (first :: rest) first)) as [o|] eqn:Ho;
      cbn [rbind]; [|done].
    destruct (build_loop _ _ _ _) as [[db sdb']|] eqn:Hloop; cbn [rbind];
      [|done].
    intros Hinit Hinv.
    pose proof (RevCache_init_Ok _ _ _ _ _ _ Hinit) as ->.
    cbn [rev_dict youngest_rev oldest_rev refs_dict] in *.
    assert (head first = Some y) as ->
      by (destruct first; simplify_eq/=; done).
    assert (head (List.last (first :: rest) first) = Some o) as ->
      by (destruct (List.last (first :: rest) first); simplify_eq/=; done).
    assert (db ≠ ∅) as Hdb.
    { destruct first as [|r ps]; [done|].
      destruct (bi_final _ _ _ Hinv 0%nat r ps) as (c & Hc & _); [done|].
      intros ->. by rewrite lookup_empty in Hc. }
    apply RevCache_init_cases in Hinit as [(_ & _ & _ & ?)|[? _]]; [|done].
    split_and!; eauto.
Qed.

(** X8.  The snapshot is all or nothing.  From an empty listing
    [_build_rev_cache] returns the empty snapshot when there are no
    references and raises [ValueError] when there are; from a listing with
    lines it returns a snapshot only if there are references, and then the
    youngest and the oldest revision and the graph are all set. *)
Theorem build_rev_cache_all_or_nothing refs out :
  (parse_rev_list out = [] →
     _build_rev_cache refs out =
       if decide (refs = ∅) then Ok RevCache_empty else Raise ValueError) ∧
  (parse_rev_list out ≠ [] → refs = ∅ →
     ∃ e, _build_rev_cache refs out = Raise e) ∧
  (∀ rc, parse_rev_list out ≠ [] → _build_rev_cache refs out = Ok rc →
     refs_dict rc ≠ ∅ ∧ rev_dict rc ≠ ∅ ∧
     is_Some (youngest_rev rc) ∧ is_Some (oldest_rev rc)).
Proof.
  split_and!.
  - intros Hnil. unfold _build_rev_cache. rewrite Hnil. simpl.
    unfold freeze_sdb.
    rewrite bool_decide_eq_false_2 by (rewrite map_size_empty; lia).
    unfold RevCache_init. simpl.
    rewrite (bool_decide_eq_true_2 (∅ = ∅)) by done. simpl.
    destruct (decide (refs = ∅)) as [->|Hne].
    + by rewrite bool_decide_eq_true_2.
    + by rewrite bool_decide_eq_false_2.
  - intros Hne Hrefs.
    destruct (_build_rev_cache refs out) as [rc|e] eqn:Hbuild; [|eauto].
    exfalso. destruct (build_fields _ _ _ Hbuild) as (sdb & _ & _ & Hf).
    destruct (parse_rev_list out); [done|]. by destruct Hf as (_ & _ & _ & _ & ? & _).
  - intros rc Hne Hbuild.
    destruct (build_fields _ _ _ Hbuild) as (sdb & _ & -> & Hf).
    destruct (parse_rev_list out); [done|].
    destruct Hf as (_ & _ & ? & ? & ? & ?). done.
Qed.

(** X9.  The youngest revision of a snapshot is the revision of the
    first line of the listing and has ordinal 1; the oldest revision is
    the revision of the last line and its ordinal is the number of
    lines. *)
Theorem youngest_oldest_rev refs out rc first rest :
  _build_rev_cache refs out = Ok rc →
  parse_rev_list out = first :: rest →
  ∃ y o cy co,
    youngest_rev rc = Some y ∧ head first = Some y ∧
    oldest_rev rc = Some o ∧ head (List.last (first :: rest) first) = Some o ∧
    rev_dict rc !! y = Some cy ∧ c_ord cy = 1 ∧
    rev_dict rc !! o = Some co ∧
    c_ord co = Z.of_nat (length (first :: rest)).
Proof.
  intros Hbuild Hlines.
  destruct (build_fields _ _ _ Hbuild) as (sdb & Hinv & _ & Hf).
  rewrite Hlines in *.
  destruct Hf as (Hy & Ho & [y Hy'] & [o Ho'] & _).
  rewrite Hy' in Hy. rewrite Ho' in Ho.
  destruct first as [|y' ps]; [done|].
  injection Hy as ->.
  destruct (bi_final _ _ _ Hinv 0%nat y' ps) as (cy & Hcy & _ & Hoy & _);
    [done|].
  pose proof (list_last_lookup rest (y' :: ps) (y' :: ps)) as Hlast.
  destruct (List.last ((y' :: ps) :: rest) (y' :: ps)) as [|o' qs] eqn:Hl;
    [done|].
  injection Ho as ->.
  destruct (bi_final _ _ _ Hinv _ _ _ Hlast) as (co & Hco & _ & Hoo & _).
  exists y', o', cy, co. split_and!; [done..|].
  rewrite Hoo. cbn [length]. lia.
Qed.
End ends_props.

Lemma youngest_oldest_rev_witness :
  ∃ y o cy co,
    youngest_rev Ex.rc = Some y ∧ Some Ex.D = Some y ∧
    oldest_rev Ex.rc = Some o ∧ Some Ex.A = Some o ∧
    rev_dict Ex.rc !! y = Some cy ∧ c_ord cy = 1 ∧
    rev_dict Ex.rc !! o = Some co ∧ c_ord co = 4.
Proof.
  assert (_build_rev_cache Ex.refs (rev_list_out Ex.git) = Ok Ex.rc) as H1
    by (vm_compute; reflexivity).
  assert (parse_rev_list (rev_list_out Ex.git)
          = [Ex.D; Ex.C] :: [[Ex.C; Ex.B]; [Ex.B; Ex.A]; [Ex.A]]) as H2
    by (vm_compute; reflexivity).
  exact (youngest_oldest_rev Ex.refs (rev_list_out Ex.git) Ex.rc _ _ H1 H2).
Defined.

(** ** The neighbours of a revision *)

Section neighbour_props.
Variable dict_items : ∀ V : Type, gmap string V → list (string * V).
Hypothesis dict_items_perm :
  ∀ V (m : gmap string V), dict_items V m ≡ₚ map_to_list m.

(** X10.  In a snapshot built from a listing in which every parent has
    its line, [hist_prev_revision] of the revision of a line is the
    revision of the next line and [hist_next_revision] leads back; the
    revision of the first line has no next revision and the revision of
    the last line no previous one. *)
Theorem hist_neighbours refs out rc (i : nat) r ps :
  parents_listed (parse_rev_list out) →
  _build_rev_cache refs out = Ok rc →
  parse_rev_list out !! i = Some (r :: ps) →
  (∀ r' ps', parse_rev_list out !! S i = Some (r' :: ps') →
     hist_prev_revision dict_items (rev_dict rc) r = Ok (Some r') ∧
     hist_next_revision dict_items (rev_dict rc) r' = Ok (Some r)) ∧
  (i = 0%nat → hist_next_revision dict_items (rev_dict rc) r = Ok None) ∧
  (S i = length (parse_rev_list out) →
     hist_prev_revision dict_items (rev_dict rc) r = Ok None).
Proof using dict_items_perm.
  intros Hwf Hbuild Hi. pose proof (build_sound _ _ _ Hwf Hbuild) as Hb.
  destruct (bf_line _ _ Hb _ _ _ Hi) as (c & Hc & Ho & _).
  pose proof (lookup_lt_Some _ _ _ Hi) as Hlt.
  pose proof (bf_size _ _ Hb) as Hsize.
  unfold hist_prev_revision, hist_next_revision. split_and!.
  - intros r' ps' Hi'.
    destruct (bf_line _ _ Hb _ _ _ Hi') as (c' & Hc' & Ho' & _).
    pose proof (lookup_lt_Some _ _ _ Hi') as Hlt'.
    destruct (history_relative_rev_in_range dict_items dict_items_perm
                _ _ r c 1 Hb Hc) as (x & cx & -> & Hx & Hox); [done|lia|].
    destruct (history_relative_rev_in_range dict_items dict_items_perm
                _ _ r' c' (-1) Hb Hc') as (z & cz & -> & Hz & Hoz); [done|lia|].
    split; do 2 f_equal; eapply built_ord_inj; (done || lia).
  - intros ->. unfold history_relative_rev. rewrite Hc. simpl.
    by rewrite bool_decide_eq_true_2 by lia.
  - intros Hlast. unfold history_relative_rev. rewrite Hc. simpl.
    by rewrite bool_decide_eq_true_2 by lia.
Qed.
End neighbour_props.

Lemma hist_neighbours_witness :
  hist_prev_revision Ex.items (rev_dict Ex.rc) Ex.C = Ok (Some Ex.B) ∧
  hist_next_revision Ex.items (rev_dict Ex.rc) Ex.B = Ok (Some Ex.C).
Proof.
  assert (parents_listed (parse_rev_list (rev_list_out Ex.git))) as H1
    by (apply (bool_decide_unpack _); vm_compute; exact I).
  assert (_build_rev_cache Ex.refs (rev_list_out Ex.git) = Ok Ex.rc) as H2
    by (vm_compute; reflexivity).
  assert (parse_rev_list (rev_list_out Ex.git) !! 1%nat = Some [Ex.C; Ex.B])
    as H3 by (vm_compute; reflexivity).
  destruct (hist_neighbours Ex.items (λ V m, reflexivity _) Ex.refs
              (rev_list_out Ex.git) Ex.rc 1%nat Ex.C [Ex.B] H1 H2 H3)
    as (Hnext & _).
  apply (Hnext Ex.B [Ex.A]). vm_compute; reflexivity.
Defined.

(** ** [fullrev] *)

Section fullrev_props.
Implicit Types (db : gmap string commit) (sdb : gmap Z (list string)).

Lemma startswith_refl s : startswith s s = true.
Proof. apply startswith_spec, str_take_all. done. Qed.

Lemma is_sha_length s : is_sha s = true → (4 ≤ String.length s ≤ 40)%nat.
Proof.
  unfold is_sha. rewrite andb_true_iff, bool_decide_eq_true. by intros [? _].
Qed.

Lemma is_full_sha_length r : is_full_sha r = true → String.length r = 40%nat.
Proof.
  unfold is_full_sha. rewrite andb_true_iff, bool_decide_eq_true.
  by intros [? _].
Qed.

(** A revision and a prefix of it of four or more bytes have one key. *)
Lemma rev_key_prefix r srev :
  startswith r srev = true →
  (4 ≤ String.length srev)%nat → (4 ≤ String.length r)%nat →
  __rev_key srev = __rev_key r.
Proof.
  intros Hpre%startswith_spec Hs Hr. rewrite <-Hpre. by apply rev_key_take.
Qed.

Lemma elem_of_bucket_of key lines r :
  r ∈ bucket_of key lines ↔ r ∈ heads lines ∧ __rev_key r = Ok key.
Proof. unfold bucket_of. rewrite list_elem_of_filter. tauto. Qed.

(** Whatever [srev_dict] holds for a key is the bucket of the key. *)
Lemma freeze_sdb_lookup_Ok lines db sdb key b :
  build_inv lines db sdb → 0 ≤ key →
  srev_lookup (freeze_sdb sdb) key = Ok b → b = bucket_of key lines.
Proof.
  intros Hinv Hkey. pose proof (bi_sdb _ _ _ Hinv key) as Hb.
  unfold freeze_sdb. case_bool_decide; simpl.
  - rewrite list_lookup_fmap.
    destruct (seqZ 0 (max_key sdb + 1) !! Z.to_nat key) as [k|] eqn:Hk;
      simpl; [|done].
    apply lookup_seqZ in Hk as [-> _]. rewrite Z.add_0_l, Z2Nat.id by done.
    intros [= <-]. rewrite Hb. by destruct (bucket_of key lines).
  - destruct (sdb !! key) as [b'|] eqn:Hb'; [|done]. intros [= <-].
    destruct (bucket_of key lines); simplify_eq. done.
Qed.

Lemma max_key_lt sdb key :
  0 < key → (∀ k, is_Some (sdb !! k) → k < key) → max_key sdb < key.
Proof.
  intros Hkey Hall. unfold max_key.
  assert (Forall (λ k, k < key) (map_to_list sdb).*1) as Hl.
  { apply Forall_forall. intros k ((k' & b) & -> & Hin)%list_elem_of_fmap.
    apply Hall. apply elem_of_map_to_list in Hin. simpl. eauto. }
  induction Hl as [|k l Hk _ IH]; simpl; lia.
Qed.

(** The keys of the buckets are the keys of the revisions of the lines. *)
Lemma sdb_key_rev lines db sdb k :
  build_inv lines db sdb → is_Some (sdb !! k) →
  ∃ r, r ∈ heads lines ∧ __rev_key r = Ok k.
Proof.
  intros Hinv [b Hb]. rewrite (bi_sdb _ _ _ Hinv) in Hb.
  destruct (bucket_of k lines) as [|r b'] eqn:Hbk; [done|].
  exists r. apply elem_of_bucket_of. rewrite Hbk. left.
Qed.

(** X11.  For a prefix of four to forty hexadecimal digits, in a snapshot
    built from a listing of full names in which every parent has its
    line, [fullrev] returns a revision exactly when it is the one
    revision of [rev_dict] that starts with the prefix. *)
Theorem fullrev_unique_prefix refs out rc srev r :
  parents_listed (parse_rev_list out) →
  _build_rev_cache refs out = Ok rc →
  Forall (λ x, is_full_sha x = true) (heads (parse_rev_list out)) →
  is_sha srev = true →
  fullrev rc srev = Ok (Some r) ↔
    is_Some (rev_dict rc !! r) ∧ startswith r srev = true ∧
    ∀ r', is_Some (rev_dict rc !! r') → startswith r' srev = true → r' = r.
Proof.
  intros Hwf Hbuild Hfull Hsha.
  pose proof (build_sound _ _ _ Hwf Hbuild) as Hb.
  destruct (build_loop_of _ _ _ Hbuild) as (sdb & Hinv & Hsrev & _).
  rewrite Forall_forall in Hfull.
  pose proof (is_sha_length _ Hsha) as Hlen.
  assert (∀ x, is_Some (rev_dict rc !! x) → String.length x = 40%nat)
    as Hlen40.
  { intros x Hx. apply is_full_sha_length, Hfull. by apply (bf_keys _ _ Hb). }
  assert (∀ x, is_Some (rev_dict rc !! x) → startswith x srev = true →
               __rev_key srev = __rev_key x) as Hkeyeq.
  { intros x Hx Hpre. apply rev_key_prefix; [done|lia|].
    rewrite (Hlen40 x Hx). lia. }
  unfold fullrev. rewrite Hsha. cbn [negb].
  destruct (bool_decide (String.length srev = 40%nat) &&
            bool_decide (is_Some (rev_dict rc !! srev))) eqn:Hshort.
  - apply andb_true_iff in Hshort as [Hl40 Hin].
    apply bool_decide_eq_true in Hl40, Hin. split.
    + intros [= <-]. split_and!; [done|apply startswith_refl|].
      intros r' Hr' Hpre%startswith_spec.
      rewrite str_take_all in Hpre; [done|]. rewrite (Hlen40 r' Hr'). lia.
    + intros (Hr & Hpre & Huniq). do 2 f_equal.
      apply Huniq; [done|apply startswith_refl].
  - clear Hshort. split.
    + destruct (__rev_key srev) as [key|] eqn:Hkey; cbn [rbind]; [|done].
      destruct (srev_lookup (srev_dict rc) key) as [b|e] eqn:Hlook;
        [|by destruct e].
      rewrite Hsrev in Hlook.
      apply (freeze_sdb_lookup_Ok _ _ _ _ _ Hinv) in Hlook as ->;
        [|by eapply rev_key_range].
      destruct (filter _ _) as [|s [|]] eqn:Hf; try done.
      intros [= ->].
      assert (r ∈ filter (λ s, startswith s srev = true)
                    (bucket_of key (parse_rev_list out))) as Hr
        by (rewrite Hf; left).
      apply list_elem_of_filter in Hr as [Hpre Hr].
      apply elem_of_bucket_of in Hr as [Hr _].
      split_and!; [by apply (bf_keys _ _ Hb)|done|].
      intros r' Hr' Hpre'.
      assert (r' ∈ filter (λ s, startswith s srev = true)
                     (bucket_of key (parse_rev_list out))) as Hin.
      { apply list_elem_of_filter. split; [done|].
        apply elem_of_bucket_of. split; [by apply (bf_keys _ _ Hb)|].
        by rewrite <-(Hkeyeq r' Hr' Hpre'). }
      rewrite Hf in Hin. by apply list_elem_of_singleton in Hin.
    + intros (Hr & Hpre & Huniq).
      pose proof (proj1 (bf_keys _ _ Hb r) Hr) as Hhead.
      destruct (bf_srev _ _ Hb r Hhead) as (key & Hkey & Hlook).
      rewrite (Hkeyeq r Hr Hpre), Hkey. cbn [rbind]. rewrite Hlook.
      erewrite (filter_unique (λ s, startswith s srev = true)); [done|..].
      * apply NoDup_filter, (bf_nodup _ _ Hb).
      * by apply elem_of_bucket_of.
      * done.
      * intros y [Hy _]%elem_of_bucket_of Hpy.
        apply Huniq; [|done]. by apply (bf_keys _ _ Hb).
Qed.

(** X12.  For a prefix that names no revision and whose key is beyond
    the keys of all revisions, [fullrev] returns [None] while [srev_dict]
    is a dict, and raises [IndexError] once it is an array. *)
Theorem fullrev_index_error refs out rc srev key :
  _build_rev_cache refs out = Ok rc →
  is_sha srev = true → rev_dict rc !! srev = None →
  __rev_key srev = Ok key →
  (∀ r k, r ∈ heads (parse_rev_list out) → __rev_key r = Ok k → k < key) →
  (∀ m, srev_dict rc = SrevDict m → fullrev rc srev = Ok None) ∧
  (∀ a, srev_dict rc = SrevList a → fullrev rc srev = Raise IndexError).
Proof.
  intros Hbuild Hsha Hnone Hkey Hbeyond.
  destruct (build_loop_of _ _ _ Hbuild) as (sdb & Hinv & Hsrev & _).
  assert (∀ k, is_Some (sdb !! k) → 0 ≤ k < key) as Hkeys.
  { intros k (r & Hr & Hk)%(sdb_key_rev _ _ _ _ Hinv).
    split; [by eapply rev_key_range|by eapply Hbeyond]. }
  assert (fullrev rc srev =
          match srev_lookup (srev_dict rc) key with
          | Raise KeyError => Ok None
          | Raise e => Raise e
          | Ok srevs =>
              match filter (λ s, startswith s srev = true) srevs with
              | [s] => Ok (Some s)
              | _ => Ok None
              end
          end) as ->.
  { unfold fullrev. rewrite Hsha, Hnone, Hkey.
    rewrite (bool_decide_eq_false_2 (is_Some None)) by (by intros [? ?]).
    by rewrite andb_false_r. }
  rewrite Hsrev. unfold freeze_sdb. case_bool_decide as Hsize.
  - split; [done|]. intros a _. simpl.
    rewrite list_lookup_fmap, lookup_seqZ_ge; [done|].
    assert (0 < key).
    { destruct (map_choose sdb) as (k & b & Hk).
      - intros ->. rewrite map_size_empty in Hsize. lia.
      - destruct (Hkeys k); [by eauto|]. lia. }
    assert (max_key sdb < key)
      by (apply max_key_lt; [done|]; intros k Hk; by apply Hkeys).
    lia.
  - split; [|done]. intros m _. simpl.
    destruct (sdb !! key) as [b|] eqn:Hb; [|done].
    destruct (Hkeys key); [by eauto|]. lia.
Qed.
End fullrev_props.

Lemma fullrev_unique_prefix_witness :
  fullrev Ex.rc "c3c3" = Ok (Some Ex.C) ↔
    is_Some (rev_dict Ex.rc !! Ex.C) ∧ startswith Ex.C "c3c3" = true ∧
    ∀ r', is_Some (rev_dict Ex.rc !! r') → startswith r' "c3c3" = true →
          r' = Ex.C.
Proof.
  assert (parents_listed (parse_rev_list (rev_list_out Ex.git))) as H1
    by (apply (bool_decide_unpack _); vm_compute; exact I).
  assert (_build_rev_cache Ex.refs (rev_list_out Ex.git) = Ok Ex.rc) as H2
    by (vm_compute; reflexivity).
  assert (Forall (λ x, is_full_sha x = true)
            (heads (parse_rev_list (rev_list_out Ex.git)))) as H3
    by (apply (bool_decide_unpack _); vm_compute; exact I).
  assert (is_sha "c3c3" = true) as H4 by reflexivity.
  exact (fullrev_unique_prefix Ex.refs (rev_list_out Ex.git) Ex.rc "c3c3"
           Ex.C H1 H2 H3 H4).
Defined.


Lemma built_ok (r : result RevCache) :
  (if r is Ok _ then true else false) = true → r = Ok (Big.built r).
Proof. by destruct r. Qed.

Lemma array_ok (t : srev_table) :
  (if t is SrevList _ then true else false) = true →
  t = SrevList (Big.array t).
Proof. by destruct t. Qed.

Lemma fullrev_index_error_witness :
  srev_dict Big.rc = SrevList Big.table ∧
  fullrev Big.rc "ffff" = Raise IndexError.
Proof.
  assert (_build_rev_cache Big.refs Big.out = Ok Big.rc) as H1.
  { apply (built_ok (_build_rev_cache Big.refs Big.out)).
    vm_compute; reflexivity. }
  assert (is_sha "ffff" = true) as H2 by reflexivity.
  assert (rev_dict Big.rc !! "ffff" = None) as H3
    by (vm_compute; reflexivity).
  assert (__rev_key "ffff" = Ok 65535) as H4 by reflexivity.
  assert (∀ r k, r ∈ heads (parse_rev_list Big.out) → __rev_key r = Ok k →
                 k < 65535) as H5.
  { assert (forallb (λ r, if __rev_key r is Ok k
                          then bool_decide (k < 65535) else true)
              (heads (parse_rev_list Big.out)) = true) as Hall
      by (vm_compute; reflexivity).
    rewrite forallb_forall in Hall. intros r k Hr%list_elem_of_In Hk.
    specialize (Hall r Hr). rewrite Hk in Hall.
    by apply bool_decide_eq_true in Hall. }
  assert (srev_dict Big.rc = SrevList Big.table) as H6.
  { apply (array_ok (srev_dict Big.rc)). vm_compute; reflexivity. }
  split; [exact H6|].
  exact (proj2 (fullrev_index_error Big.refs Big.out Big.rc "ffff" 65535
                  H1 H2 H3 H4 H5) Big.table H6).
Defined.
